(** * ChainBot backend services: a shallow embedding and its properties

    The development follows four services of [chainbot/backend/app/services]:

    - [workflow_orchestrator.py]: template interpolation, condition
      evaluation, the step handlers, the sequential driver and the cycle
      check of visual workflows;
    - [audit.py]: redaction of audit metadata;
    - [agent_brain.py]: provider selection and the conversation store;
    - [websocket_manager.py]: the connection registry and its broadcasts.

    Part I holds the model, Part II the lemmas and theorems.

    Python values are modelled by the type [value]; a Python [dict] keeps its
    insertion order, so it is an association list with unique keys.  Python
    strings are modelled as byte strings (the ASCII fragment of [str]); floats
    are left out.  Exceptions are explicit: fallible code returns a [result],
    stateful code threads its state. *)

From Stdlib Require Import ZArith Ascii String List Lia.
From stdpp Require Import base tactics option list strings gmap pretty.

Open Scope string_scope.
Set Warnings "-register-all,-clear-no-such-hyp".

(* ===================================================================== *)
(** * Part I: the model                                                   *)
(* ===================================================================== *)

(** ** Python values and exceptions *)

(** An exception: its class name and its message. *)
Record exn : Type := Exn { exn_class : string; exn_msg : string }.

Inductive value : Type :=
| VNone
| VBool (b : bool)
| VInt (n : Z)
| VStr (s : string)
| VList (items : list value)
| VDict (entries : list (string * value))
| VError (e : exn).   (* an exception object kept as data (asyncio.gather) *)

(** An insertion-ordered [dict] with string keys. *)
Definition dict : Type := list (string * value).

Inductive result (A : Type) : Type :=
| Ok (a : A)
| Raise (e : exn).
Arguments Ok {A} a.
Arguments Raise {A} e.

Definition is_ok {A} (r : result A) : bool :=
  match r with Ok _ => true | Raise _ => false end.

(** [try: body except Exception: handler] for pure code. *)
Definition try_except {A} (body : result A) (handler : exn -> result A) : result A :=
  match body with
  | Ok a => Ok a
  | Raise e => handler e
  end.

Definition rbind {A B} (r : result A) (k : A -> result B) : result B :=
  match r with
  | Ok a => k a
  | Raise e => Raise e
  end.

(** ** Ordered dictionaries *)

Module Dict.

Fixpoint get {V} (k : string) (d : list (string * V)) : option V :=
  match d with
  | [] => None
  | (k', v) :: d' => if String.eqb k k' then Some v else get k d'
  end.

Definition mem {V} (k : string) (d : list (string * V)) : bool :=
  match get k d with Some _ => true | None => false end.

(** [d[k] = v]: an existing key keeps its position, a new key goes last. *)
Fixpoint set {V} (k : string) (v : V) (d : list (string * V)) : list (string * V) :=
  match d with
  | [] => [(k, v)]
  | (k', v') :: d' =>
      if String.eqb k k' then (k', v) :: d' else (k', v') :: set k v d'
  end.

(** [del d[k]] on a key that is present. *)
Fixpoint del {V} (k : string) (d : list (string * V)) : list (string * V) :=
  match d with
  | [] => []
  | (k', v') :: d' => if String.eqb k k' then d' else (k', v') :: del k d'
  end.

Definition keys {V} (d : list (string * V)) : list string := map fst d.

End Dict.

(** ** Strings: the [str] methods the services use *)

Module Str.

Fixpoint drop (n : nat) (s : string) : string :=
  match n, s with
  | O, _ => s
  | S n', String _ s' => drop n' s'
  | S _, EmptyString => EmptyString
  end.

(** [sub in s]. *)
Fixpoint contains (sub s : string) : bool :=
  String.prefix sub s ||
  match s with
  | EmptyString => false
  | String _ s' => contains sub s'
  end.

(** The scan of [str.replace] for a non-empty [old]: [skip] counts the
    characters of a matched occurrence that are still to be passed over. *)
Fixpoint replace_scan (old new : string) (skip : nat) (s : string) : string :=
  match s with
  | EmptyString => EmptyString
  | String c s' =>
      match skip with
      | S k => replace_scan old new k s'
      | O =>
          if String.prefix old s
          then new +:+ replace_scan old new (String.length old - 1) s'
          else String c (replace_scan old new O s')
      end
  end.

(** With an empty [old], Python puts [new] before every character and at
    the end. *)
Fixpoint replace_empty (new s : string) : string :=
  match s with
  | EmptyString => new
  | String c s' => new +:+ String c (replace_empty new s')
  end.

(** [s.replace(old, new)]: every non-overlapping occurrence, left to right. *)
Definition replace (old new s : string) : string :=
  match old with
  | EmptyString => replace_empty new s
  | String _ _ => replace_scan old new O s
  end.


Definition lower_char (c : ascii) : ascii :=
  let n := nat_of_ascii c in
  if (65 <=? n)%nat && (n <=? 90)%nat then ascii_of_nat (n + 32) else c.

Fixpoint lower (s : string) : string :=
  match s with
  | EmptyString => EmptyString
  | String c s' => String (lower_char c) (lower s')
  end.

(** [str.isspace] on a single ASCII character. *)
Definition is_space (c : ascii) : bool :=
  let n := nat_of_ascii c in
  ((9 <=? n)%nat && (n <=? 13)%nat) || ((28 <=? n)%nat && (n <=? 32)%nat).

Fixpoint lstrip (s : string) : string :=
  match s with
  | EmptyString => EmptyString
  | String c s' => if is_space c then lstrip s' else s
  end.

Definition strip (s : string) : string :=
  String.rev (lstrip (String.rev (lstrip s))).

End Str.

(** ** [str], [repr], [==] and [bool] on values *)

Module Py.

Definition hex_digit (n : nat) : ascii :=
  ascii_of_nat (if (n <? 10)%nat then 48 + n else 87 + n).

(** One character of [repr] of a string delimited by [quote]. *)
Definition repr_char (quote c : ascii) : string :=
  let n := nat_of_ascii c in
  if Ascii.eqb c "\" then "\\"
  else if Ascii.eqb c quote then String "\" (String c "")
  else if (n =? 9)%nat then "\t"
  else if (n =? 10)%nat then "\n"
  else if (n =? 13)%nat then "\r"
  else if (n <? 32)%nat || (n =? 127)%nat
       then "\x" +:+ String (hex_digit (n / 16)) (String (hex_digit (n mod 16)) "")
  else String c "".

Fixpoint repr_chars (quote : ascii) (s : string) : string :=
  match s with
  | EmptyString => EmptyString
  | String c s' => repr_char quote c +:+ repr_chars quote s'
  end.

(** [repr(s)]: single quotes, unless [s] has a single quote and no double
    quote. *)
Definition repr_str (s : string) : string :=
  let quote : ascii :=
    if Str.contains "'" s && negb (Str.contains (String (ascii_of_nat 34) "") s)
    then ascii_of_nat 34 else "'"%char in
  String quote (repr_chars quote s) +:+ String quote "".

Fixpoint repr (v : value) : string :=
  match v with
  | VNone => "None"
  | VBool true => "True"
  | VBool false => "False"
  | VInt n => pretty n
  | VStr s => repr_str s
  | VList items => "[" +:+ String.concat ", " (map repr items) +:+ "]"
  | VDict entries =>
      "{" +:+ String.concat ", "
                (map (fun kv => repr_str (fst kv) +:+ ": " +:+ repr (snd kv)) entries)
          +:+ "}"
  | VError e => exn_class e +:+ "(" +:+ repr_str (exn_msg e) +:+ ")"
  end.

(** [str(v)]. *)
Definition str (v : value) : string :=
  match v with
  | VStr s => s
  | VError e => exn_msg e
  | _ => repr v
  end.

(** [bool(v)]. *)
Definition truthy (v : value) : bool :=
  match v with
  | VNone => false
  | VBool b => b
  | VInt n => negb (n =? 0)%Z
  | VStr s => negb (String.eqb s "")
  | VList items => match items with [] => false | _ => true end
  | VDict entries => match entries with [] => false | _ => true end
  | VError _ => true
  end.

(** [a == b]: [bool] compares as [int], lists elementwise, dicts by key
    whatever the order; exception objects are equal only to themselves. *)
Fixpoint eq (a b : value) : bool :=
  match a, b with
  | VNone, VNone => true
  | VBool x, VBool y => Bool.eqb x y
  | VBool x, VInt y => ((if x then 1 else 0) =? y)%Z
  | VInt x, VBool y => (x =? (if y then 1 else 0))%Z
  | VInt x, VInt y => (x =? y)%Z
  | VStr x, VStr y => String.eqb x y
  | VList xs, VList ys =>
      (fix eq_items (xs ys : list value) : bool :=
         match xs, ys with
         | [], [] => true
         | x :: xs', y :: ys' => eq x y && eq_items xs' ys'
         | _, _ => false
         end) xs ys
  | VDict d1, VDict d2 =>
      (length d1 =? length d2)%nat &&
      (fix eq_entries (d : list (string * value)) : bool :=
         match d with
         | [] => true
         | (k, v) :: d' =>
             match Dict.get k d2 with
             | Some v' => eq v v' && eq_entries d'
             | None => false
             end
         end) d1
  | _, _ => false
  end.

End Py.

(** ** Template interpolation and condition evaluation
       ([workflow_orchestrator.py], lines 486-524 and 1327-1367) *)

(** What a name of the evaluation environment is bound to. *)
Inductive binding : Type :=
| BValue (v : value)
| BBuiltin (name : string).

Definition placeholder (key : string) : string := "${" +:+ key +:+ "}".

Fixpoint _interpolate_variables (template : value) (variables : dict) : value :=
  match template with
  | VStr t =>
      VStr (fold_left
              (fun t kv => Str.replace (placeholder (fst kv)) (Py.str (snd kv)) t)
              variables t)
  | VDict entries =>
      VDict (map (fun kv => (fst kv, _interpolate_variables (snd kv) variables)) entries)
  | VList items =>
      VList (map (fun item => _interpolate_variables item variables) items)
  | _ => template
  end.

(** The namespace handed to [eval]: the whitelist, then every variable on
    top of it. *)
Definition safe_dict (variables : dict) : list (string * binding) :=
  fold_left
    (fun acc kv => Dict.set (fst kv) (BValue (snd kv)) acc)
    variables
    [ ("variables", BValue (VDict variables));
      ("len", BBuiltin "len"); ("str", BBuiltin "str"); ("int", BBuiltin "int");
      ("float", BBuiltin "float"); ("bool", BBuiltin "bool");
      ("list", BBuiltin "list"); ("dict", BBuiltin "dict");
      ("True", BValue (VBool true)); ("False", BValue (VBool false));
      ("None", BValue VNone) ].

Section Conditions.

(** Python's [eval(expression, {"__builtins__": {}}, namespace)]: the value
    of the expression, or the exception it raises. *)
Variable py_eval : string -> list (string * binding) -> result value.

Definition _evaluate_expression (expression : string) (variables : dict)
  : result value :=
  try_except (py_eval expression (safe_dict variables))
             (fun _ => Ok (VBool false)).



End Conditions.

(** ** Templates as segments

    A template read as literal text and placeholders, to state what
    interpolation computes. *)

Module Template.

Inductive segment : Type :=
| Lit (text : string)
| Hole (name : string).

Definition render_segment (seg : segment) : string :=
  match seg with
  | Lit text => text
  | Hole name => placeholder name
  end.

Definition join (parts : list string) : string :=
  fold_right String.append EmptyString parts.

Definition render (segs : list segment) : string :=
  join (map render_segment segs).

(** What a segment becomes in a scope: a bound placeholder gives the string
    form of its value, an unbound one stays. *)
Definition fill (variables : dict) (seg : segment) : string :=
  match seg with
  | Lit text => text
  | Hole name =>
      match Dict.get name variables with
      | Some v => Py.str v
      | None => placeholder name
      end
  end.

Fixpoint lacks (c : ascii) (s : string) : bool :=
  match s with
  | EmptyString => true
  | String a s' => negb (Ascii.eqb a c) && lacks c s'
  end.

(** Literal text without [$]; names without [$] and [}]. *)
Definition plain_segment (seg : segment) : bool :=
  match seg with
  | Lit text => lacks "$" text
  | Hole name => lacks "$" name && lacks "}" name
  end.

Definition plain_template (segs : list segment) : bool :=
  forallb plain_segment segs.

(** Keys without [}]; values whose string form has no [$]. *)
Definition plain_scope (variables : dict) : bool :=
  forallb (fun kv => lacks "}" (fst kv) && lacks "$" (Py.str (snd kv))) variables.

(** One round of the substitution, on segments. *)
Definition subst (key text : string) (seg : segment) : segment :=
  match seg with
  | Lit t => Lit t
  | Hole name => if String.eqb name key then Lit text else Hole name
  end.

End Template.

(** ** A definitional evaluator for a fragment of Python expressions

    [eval] itself is outside the repository.  The general results of Part II
    hold for every evaluator; this one runs the services at concrete inputs.
    Its fragment is [atom (+ atom)*], an atom being a decimal literal, a name
    or [len(name)].  On the fragment it follows Python; any other text is
    reported as a [SyntaxError], and no statement relies on that. *)

Module PyEval.

Definition is_digit (c : ascii) : bool :=
  let n := nat_of_ascii c in (48 <=? n)%nat && (n <=? 57)%nat.

Definition is_ident_start (c : ascii) : bool :=
  let n := nat_of_ascii c in
  ((65 <=? n)%nat && (n <=? 90)%nat) || ((97 <=? n)%nat && (n <=? 122)%nat)
  || (n =? 95)%nat.

Definition is_ident_char (c : ascii) : bool := is_ident_start c || is_digit c.

Fixpoint all_chars (p : ascii -> bool) (s : string) : bool :=
  match s with
  | EmptyString => true
  | String c s' => p c && all_chars p s'
  end.

Definition is_identifier (s : string) : bool :=
  match s with
  | EmptyString => false
  | String c _ => is_ident_start c && all_chars is_ident_char s
  end.

Fixpoint digits_value (acc : Z) (s : string) : Z :=
  match s with
  | EmptyString => acc
  | String c s' => digits_value (10 * acc + Z.of_nat (nat_of_ascii c - 48)) s'
  end.

(** A decimal literal: no leading zero, except in a literal of zeros. *)
Definition is_literal (s : string) : bool :=
  match s with
  | EmptyString => false
  | String c _ =>
      all_chars is_digit s
      && (negb (Ascii.eqb c "0") || all_chars (Ascii.eqb "0"%char) s)
  end.

Fixpoint split_plus (cur : string) (s : string) : list string :=
  match s with
  | EmptyString => [String.rev cur]
  | String c s' =>
      if Ascii.eqb c "+" then String.rev cur :: split_plus EmptyString s'
      else split_plus (String c cur) s'
  end.

Definition lookup_name (ns : list (string * binding)) (name : string)
  : result value :=
  match Dict.get name ns with
  | Some (BValue v) => Ok v
  | Some (BBuiltin _) => Raise (Exn "SyntaxError" "outside the fragment")
  | None => Raise (Exn "NameError" ("name '" +:+ name +:+ "' is not defined"))
  end.

Definition len (v : value) : result value :=
  match v with
  | VStr s => Ok (VInt (Z.of_nat (String.length s)))
  | VList items => Ok (VInt (Z.of_nat (length items)))
  | VDict entries => Ok (VInt (Z.of_nat (length entries)))
  | _ => Raise (Exn "TypeError" "object has no len()")
  end.

Definition eval_atom (ns : list (string * binding)) (text : string)
  : result value :=
  let a := Str.strip text in
  if is_literal a then Ok (VInt (digits_value 0 a))
  else if is_identifier a then lookup_name ns a
  else if String.prefix "len(" a
          && String.eqb (Str.drop (String.length a - 1) a) ")" then
    let arg := Str.strip (String.substring 4 (String.length a - 5) a) in
    if is_identifier arg then
      match Dict.get "len" ns with
      | Some (BBuiltin "len") => rbind (lookup_name ns arg) len
      | Some _ => Raise (Exn "TypeError" "object is not callable")
      | None => Raise (Exn "NameError" "name 'len' is not defined")
      end
    else Raise (Exn "SyntaxError" "outside the fragment")
  else Raise (Exn "SyntaxError" "outside the fragment").

Definition as_int (v : value) : option Z :=
  match v with
  | VInt n => Some n
  | VBool b => Some (if b then 1 else 0)%Z
  | _ => None
  end.

Definition add (a b : value) : result value :=
  match as_int a, as_int b with
  | Some x, Some y => Ok (VInt (x + y))
  | _, _ =>
      match a, b with
      | VStr x, VStr y => Ok (VStr (x +:+ y))
      | VList x, VList y => Ok (VList (x ++ y))
      | _, _ => Raise (Exn "TypeError" "unsupported operand type(s) for +")
      end
  end.

Definition eval (expression : string) (ns : list (string * binding))
  : result value :=
  match split_plus EmptyString expression with
  | [] => Raise (Exn "SyntaxError" "outside the fragment")
  | first :: rest =>
      fold_left
        (fun acc text =>
           rbind acc (fun a => rbind (eval_atom ns text) (fun b => add a b)))
        rest (eval_atom ns first)
  end.

End PyEval.


(** ** The realtime fanout bus ([websocket_manager.py]) *)

Module WS.

Inductive WindowType : Type :=
| AGENT_MAP | CODE_AGENT | CHAT | WATCHTOWER | WORKFLOW_BUILDER | DATA_IMPORTER.

Definition window_value (w : WindowType) : string :=
  match w with
  | AGENT_MAP => "agent_map"
  | CODE_AGENT => "code_agent"
  | CHAT => "chat"
  | WATCHTOWER => "watchtower"
  | WORKFLOW_BUILDER => "workflow_builder"
  | DATA_IMPORTER => "data_importer"
  end.

Definition window_eqb (a b : WindowType) : bool :=
  match a, b with
  | AGENT_MAP, AGENT_MAP | CODE_AGENT, CODE_AGENT | CHAT, CHAT
  | WATCHTOWER, WATCHTOWER | WORKFLOW_BUILDER, WORKFLOW_BUILDER
  | DATA_IMPORTER, DATA_IMPORTER => true
  | _, _ => false
  end.

#[export] Instance window_eq_dec : EqDecision WindowType.
Proof. solve_decision. Defined.

Inductive MessageType : Type :=
| AGENT_STATUS_UPDATE | AGENT_SPAWN | AGENT_KILL | AGENT_MAP_UPDATE
| CODE_CHANGE | CODE_SAVE | CODE_RUN | CODE_DIFF | HARRY_SUGGESTION
| CHAT_MESSAGE | CHAT_HISTORY | AGENT_RESPONSE | SLASH_COMMAND
| LOG_UPDATE | SYSTEM_STATS | ALERT | INCIDENT
| WORKFLOW_UPDATE | WORKFLOW_START | WORKFLOW_COMPLETE | WORKFLOW_ERROR
| WINDOW_OPEN | WINDOW_CLOSE | WINDOW_FOCUS | HOT_SWAP | HEALTH_CHECK.

Record WebSocketMessage : Type := {
  message_type : MessageType;
  window_type : WindowType;
  timestamp : N;
  data : dict;
  user_id : option string;
  session_id : option string
}.

(** A connection; [websocket] is the handle of its transport. *)
Record WindowConnection : Type := {
  websocket : nat;
  conn_window_type : WindowType;
  conn_user_id : option string;
  conn_session_id : option string;
  connected_at : N;
  last_activity : N;
  subscriptions : list string
}.

(** The manager, with the two registries of the source and two records of
    what reached the transports: the messages written, newest first, and
    the handles closed. *)
Record manager : Type := {
  active_connections : list (string * WindowConnection);
  window_connections : WindowType -> list string;
  wire : list (nat * WebSocketMessage);
  closed : list nat
}.

Definition init : manager :=
  {| active_connections := [];
     window_connections := fun _ => [];
     wire := [];
     closed := [] |}.

(** What the transports do during one operation: whether [send_text] and
    [close] raise on a handle, and the clock (microseconds). *)
Record world : Type := {
  send_raises : nat -> bool;
  close_raises : nat -> bool;
  now : N
}.

Definition set_bucket (w : WindowType) (ids : list string)
           (buckets : WindowType -> list string) : WindowType -> list string :=
  fun w' => if window_eqb w w' then ids else buckets w'.

(** [l.remove(x)] for an [x] that is in [l]: the first occurrence goes. *)
Fixpoint remove_first (x : string) (l : list string) : list string :=
  match l with
  | [] => []
  | y :: l' => if String.eqb x y then l' else y :: remove_first x l'
  end.

Definition in_list (x : string) (l : list string) : bool :=
  existsb (String.eqb x) l.

Definition disconnect (env : world) (connection_id : string) (m : manager)
  : manager :=
  match Dict.get connection_id (active_connections m) with
  | None => m
  | Some connection =>
      let w := conn_window_type connection in
      let buckets :=
        if in_list connection_id (window_connections m w)
        then set_bucket w (remove_first connection_id (window_connections m w))
                        (window_connections m)
        else window_connections m in
      {| active_connections := Dict.del connection_id (active_connections m);
         window_connections := buckets;
         wire := wire m;
         closed := if close_raises env (websocket connection)
                   then closed m else websocket connection :: closed m |}
  end.

Definition touch (t : N) (c : WindowConnection) : WindowConnection :=
  {| websocket := websocket c;
     conn_window_type := conn_window_type c;
     conn_user_id := conn_user_id c;
     conn_session_id := conn_session_id c;
     connected_at := connected_at c;
     last_activity := t;
     subscriptions := subscriptions c |}.

Definition send_message (env : world) (connection_id : string)
           (message : WebSocketMessage) (m : manager) : manager :=
  match Dict.get connection_id (active_connections m) with
  | None => m
  | Some connection =>
      if send_raises env (websocket connection)
      then disconnect env connection_id m
      else {| active_connections :=
                Dict.set connection_id (touch (now env) connection)
                         (active_connections m);
              window_connections := window_connections m;
              wire := (websocket connection, message) :: wire m;
              closed := closed m |}
  end.

(** The [for] loop of [broadcast_to_window] runs over the bucket itself,
    not over a copy: the iterator holds an index into the live list, and
    the loop ends when the index reaches the current length.  Sending only
    ever shortens the bucket, so the initial length bounds the number of
    rounds. *)
Fixpoint broadcast_loop (env : world) (w : WindowType) (message : WebSocketMessage)
         (rounds index : nat) (m : manager) : manager :=
  match rounds with
  | O => m
  | S rounds' =>
      match nth_error (window_connections m w) index with
      | None => m
      | Some connection_id =>
          broadcast_loop env w message rounds' (S index)
                         (send_message env connection_id message m)
      end
  end.

Definition broadcast_to_window (env : world) (w : WindowType)
           (message : WebSocketMessage) (m : manager) : manager :=
  broadcast_loop env w message (length (window_connections m w)) O m.

(** [broadcast_to_all] iterates over [list(self.active_connections.keys())],
    a copy taken before the first send. *)
Definition broadcast_to_all (env : world) (message : WebSocketMessage)
           (m : manager) : manager :=
  fold_left (fun m' connection_id => send_message env connection_id message m')
            (Dict.keys (active_connections m)) m.

Definition opt_text (o : option string) : string :=
  match o with Some s => s | None => "None" end.

Fixpoint rstrip_zeros (rev_digits : string) : string :=
  match rev_digits with
  | String "0" s' => rstrip_zeros s'
  | _ => rev_digits
  end.

Fixpoint pad_left (n : nat) (s : string) : string :=
  match n with
  | O => s
  | S n' => if (String.length s <? 6)%nat then pad_left n' (String "0" s) else s
  end.

(** The text of [datetime.utcnow().timestamp()] for a clock reading in
    microseconds: seconds, a point, and the fraction without its trailing
    zeros. *)
Definition timestamp_text (t : N) : string :=
  let frac :=
    String.rev (rstrip_zeros (String.rev (pad_left 6 (pretty (t mod 1000000)%N)))) in
  pretty (t / 1000000)%N +:+ "." +:+ (if String.eqb frac "" then "0" else frac).

Definition make_connection_id (w : WindowType) (uid sid : option string) (t : N)
  : string :=
  window_value w +:+ "_" +:+ opt_text uid +:+ "_" +:+ opt_text sid +:+ "_"
               +:+ timestamp_text t.

Definition _get_window_capabilities (w : WindowType) : list string :=
  match w with
  | AGENT_MAP => ["agent_spawn"; "agent_kill"; "agent_status"; "agent_config";
                  "dependency_view"; "real_time_updates"; "drag_drop"]
  | CODE_AGENT => ["code_edit"; "code_save"; "code_run"; "code_diff";
                   "harry_suggestions"; "syntax_highlighting"; "auto_complete"]
  | CHAT => ["multi_agent_chat"; "markdown_support"; "slash_commands";
             "context_recall"; "message_pinning"; "reactions"]
  | WATCHTOWER => ["log_streaming"; "system_stats"; "alert_management";
                   "incident_timeline"; "forensic_search"; "escalation"]
  | WORKFLOW_BUILDER => ["workflow_creation"; "drag_drop_builder";
                         "workflow_execution"; "real_time_monitoring";
                         "error_handling"; "rollback"]
  | DATA_IMPORTER => ["file_upload"; "data_parsing"; "context_assignment";
                      "search_filtering"; "metadata_management"]
  end.

(** [connect], once [websocket.accept()] has returned. *)
Definition connect (env : world) (ws : nat) (w : WindowType)
           (uid sid : option string) (m : manager) : string * manager :=
  let connection_id := make_connection_id w uid sid (now env) in
  let connection :=
    {| websocket := ws; conn_window_type := w; conn_user_id := uid;
       conn_session_id := sid; connected_at := now env;
       last_activity := now env; subscriptions := [] |} in
  let registered :=
    {| active_connections := Dict.set connection_id connection (active_connections m);
       window_connections :=
         set_bucket w (window_connections m w ++ [connection_id])
                    (window_connections m);
       wire := wire m;
       closed := closed m |} in
  let welcome_message :=
    {| message_type := WINDOW_OPEN; window_type := w; timestamp := now env;
       data := [ ("connection_id", VStr connection_id);
                 ("window_type", VStr (window_value w));
                 ("capabilities", VList (map VStr (_get_window_capabilities w))) ];
       user_id := None; session_id := None |} in
  (connection_id, send_message env connection_id welcome_message registered).

(** [cleanup_inactive_connections]: the idle connections are collected
    first, then disconnected. *)
Definition cleanup_inactive_connections (env : world) (timeout : N) (m : manager)
  : manager :=
  let inactive :=
    map fst (List.filter (fun kc => (timeout <? now env - last_activity (snd kc))%N)
                         (active_connections m)) in
  fold_left (fun m' connection_id => disconnect env connection_id m') inactive m.

(** One operation of the bus, and a run of operations, each in the world
    it meets. *)
Inductive op : Type :=
| Connect (ws : nat) (w : WindowType) (uid sid : option string)
| Disconnect (connection_id : string)
| Send (connection_id : string) (message : WebSocketMessage)
| BroadcastWindow (w : WindowType) (message : WebSocketMessage)
| BroadcastAll (message : WebSocketMessage)
| Cleanup (timeout : N).

Definition step (env : world) (o : op) (m : manager) : manager :=
  match o with
  | Connect ws w uid sid => snd (connect env ws w uid sid m)
  | Disconnect connection_id => disconnect env connection_id m
  | Send connection_id message => send_message env connection_id message m
  | BroadcastWindow w message => broadcast_to_window env w message m
  | BroadcastAll message => broadcast_to_all env message m
  | Cleanup timeout => cleanup_inactive_connections env timeout m
  end.

Definition run (trace : list (world * op)) (m : manager) : manager :=
  fold_left (fun m' eo => step (fst eo) (snd eo) m') trace m.



(** The two registries agree: no id is registered twice, every active
    connection is in the bucket of its own window, and every id of a bucket
    is an active connection of that window. *)
Definition consistent (m : manager) : Prop :=
  NoDup (Dict.keys (active_connections m))
  /\ (forall w, NoDup (window_connections m w))
  /\ (forall connection_id c,
        Dict.get connection_id (active_connections m) = Some c ->
        connection_id ∈ window_connections m (conn_window_type c))
  /\ (forall connection_id w,
        connection_id ∈ window_connections m w ->
        exists c, Dict.get connection_id (active_connections m) = Some c
                  /\ conn_window_type c = w).

(** *** The connections a call leaves behind, and the statistics *)



(** *** [cleanup_inactive_connections] *)


(** *** [broadcast_to_window] when no write raises *)

(** Whether a send to [connection_id] can be made without an exception. *)
Definition accepts (env : world) (m : manager) (connection_id : string) : bool :=
  match Dict.get connection_id (active_connections m) with
  | Some c => negb (send_raises env (websocket c))
  | None => true
  end.

(** The transport a message to [connection_id] is written to. *)
Definition transport (m : manager) (connection_id : string) : option nat :=
  websocket <$> Dict.get connection_id (active_connections m).

(** *** [connect] *)


(** *** [get_connection_stats] *)





End WS.

(** ** The audit sink ([audit.py]) *)

Module Audit.

Definition sensitive_fields : list string :=
  ["password"; "token"; "secret"; "api_key"].

Definition is_sensitive (key : string) : bool :=
  existsb (String.eqb (Str.lower key)) sensitive_fields.

Definition REDACTED : value := VStr "[REDACTED]".

(** [_sanitize_data]; every call of the source passes a [dict]. *)
Fixpoint _sanitize_data (data : value) : value :=
  match data with
  | VDict entries =>
      VDict
        (map (fun kv =>
                (fst kv,
                 if is_sensitive (fst kv) then REDACTED
                 else match snd kv with
                      | VDict _ => _sanitize_data (snd kv)
                      | VList items =>
                          VList (map (fun item =>
                                        match item with
                                        | VDict _ => _sanitize_data item
                                        | _ => item
                                        end) items)
                      | other => other
                      end))
             entries)
  | other => other
  end.

Record AuditLog : Type := {
  action : string;
  actor_id : Z;
  target_type : string;
  target_id : Z;
  timestamp : N;
  session_id : option Z;
  agent_id : option Z;
  workflow_id : option Z;
  entanglement_id : option Z;
  meta : value
}.

(** The service and the table it writes to, oldest record first. *)
Record service : Type := {
  audit_enabled : bool;
  db : list AuditLog
}.

Definition opt_int (o : option Z) : value :=
  match o with Some n => VInt n | None => VNone end.

(** [_broadcast_audit_event]; the ISO text of the timestamp is not
    modelled, its decimal reading stands for it.  The function catches
    every exception. *)
Definition _broadcast_audit_event (env : WS.world) (audit_log : AuditLog)
           (ws : WS.manager) : WS.manager :=
  let event_data : dict :=
    [ ("action", VStr (action audit_log));
      ("actor_id", VInt (actor_id audit_log));
      ("target_type", VStr (target_type audit_log));
      ("target_id", VInt (target_id audit_log));
      ("timestamp", VStr (pretty (timestamp audit_log)));
      ("session_id", opt_int (session_id audit_log));
      ("agent_id", opt_int (agent_id audit_log));
      ("workflow_id", opt_int (workflow_id audit_log));
      ("entanglement_id", opt_int (entanglement_id audit_log));
      ("meta", meta audit_log) ] in
  WS.broadcast_to_window env WS.WATCHTOWER
    {| WS.message_type := WS.LOG_UPDATE; WS.window_type := WS.WATCHTOWER;
       WS.timestamp := WS.now env; WS.data := event_data;
       WS.user_id := None; WS.session_id := None |}
    ws.

(** [log_event]: [commit_raises] says whether the database refuses the
    write.  The result is the boolean the source returns. *)
Definition log_event (env : WS.world) (commit_raises : bool)
           (action : string) (actor_id : Z) (target_type : string) (target_id : Z)
           (session_id agent_id workflow_id entanglement_id : option Z)
           (meta : option dict) (st : service * WS.manager)
  : bool * (service * WS.manager) :=
  let '(svc, ws) := st in
  if negb (audit_enabled svc) then (true, st)
  else
    let sanitized_meta :=
      match meta with
      | Some ((_ :: _) as entries) => _sanitize_data (VDict entries)
      | _ => VDict []
      end in
    let audit_log :=
      {| action := action; actor_id := actor_id; target_type := target_type;
         target_id := target_id; timestamp := WS.now env;
         session_id := session_id; agent_id := agent_id;
         workflow_id := workflow_id; entanglement_id := entanglement_id;
         meta := sanitized_meta |} in
    if commit_raises then (false, st)
    else (true, ({| audit_enabled := audit_enabled svc;
                    db := db svc ++ [audit_log] |},
                 _broadcast_audit_event env audit_log ws)).

(** *** The other entry points of the service, and its statistics *)

(** The value found by following a path of keys through nested
    dictionaries. *)
Fixpoint lookup_path (path : list string) (v : value) : option value :=
  match path with
  | [] => Some v
  | key :: rest =>
      match v with
      | VDict entries =>
          match Dict.get key entries with
          | Some v' => lookup_path rest v'
          | None => None
          end
      | _ => None
      end
  end.

Definition is_scalar (v : value) : bool :=
  match v with
  | VDict _ | VList _ => false
  | _ => true
  end.

(** [_sanitize_data] on one entry of a dictionary. *)
Definition sanitize_entry (key : string) (v : value) : value :=
  if is_sensitive key then REDACTED
  else match v with
       | VDict _ => _sanitize_data v
       | VList items =>
           VList (map (fun item => match item with
                                   | VDict _ => _sanitize_data item
                                   | _ => item
                                   end) items)
       | other => other
       end.

(** [base.update(extra)]. *)
Definition update (base extra : dict) : dict :=
  fold_left (fun d kv => Dict.set kv.1 kv.2 d) extra base.

(** The four wrappers of [log_event].  The [severity] they pass on chooses
    the level of the line written to the application log, which is not
    modelled. *)
Definition log_security_event (env : WS.world) (commit_raises : bool)
           (event_type : string) (actor_id : Z) (details : dict)
           (st : service * WS.manager) : bool * (service * WS.manager) :=
  log_event env commit_raises ("security." +:+ event_type) actor_id "security" 0
            None None None None (Some details) st.

(** [duration_ms] is a float in the source; it is carried as a value. *)
Definition log_performance_event (env : WS.world) (commit_raises : bool)
           (operation : string) (duration_ms : value) (resource_type : string)
           (resource_id : Z) (metadata : option dict)
           (st : service * WS.manager) : bool * (service * WS.manager) :=
  let meta : dict :=
    [ ("operation", VStr operation); ("duration_ms", duration_ms);
      ("performance", VBool true) ] in
  let meta :=
    match metadata with
    | Some ((_ :: _) as extra) => update meta extra
    | _ => meta
    end in
  log_event env commit_raises "performance.measure" 0 resource_type resource_id
            None None None None (Some meta) st.

Definition log_workflow_event (env : WS.world) (commit_raises : bool)
           (workflow_id : Z) (action : string) (user_id : Z) (session_id : option Z)
           (metadata : option dict)
           (st : service * WS.manager) : bool * (service * WS.manager) :=
  log_event env commit_raises ("workflow." +:+ action) user_id "workflow" workflow_id
            session_id None (Some workflow_id) None metadata st.

Definition log_agent_event (env : WS.world) (commit_raises : bool)
           (agent_id : Z) (action : string) (user_id : Z) (session_id : option Z)
           (metadata : option dict)
           (st : service * WS.manager) : bool * (service * WS.manager) :=
  log_event env commit_raises ("agent." +:+ action) user_id "agent" agent_id
            session_id (Some agent_id) None None metadata st.

(** A call of one of the five logging functions, and a run of calls, each
    in the world it meets and with a database that takes the write or
    refuses it. *)
Inductive call : Type :=
| LogEvent (action : string) (actor_id : Z) (target_type : string) (target_id : Z)
           (session_id agent_id workflow_id entanglement_id : option Z)
           (meta : option dict)
| LogSecurity (event_type : string) (actor_id : Z) (details : dict)
| LogPerformance (operation : string) (duration_ms : value) (resource_type : string)
                 (resource_id : Z) (metadata : option dict)
| LogWorkflow (workflow_id : Z) (action : string) (user_id : Z)
              (session_id : option Z) (metadata : option dict)
| LogAgent (agent_id : Z) (action : string) (user_id : Z)
           (session_id : option Z) (metadata : option dict).

Definition perform (env : WS.world) (commit_raises : bool) (c : call)
           (st : service * WS.manager) : bool * (service * WS.manager) :=
  match c with
  | LogEvent action actor_id target_type target_id
             session_id agent_id workflow_id entanglement_id meta =>
      log_event env commit_raises action actor_id target_type target_id
                session_id agent_id workflow_id entanglement_id meta st
  | LogSecurity event_type actor_id details =>
      log_security_event env commit_raises event_type actor_id details st
  | LogPerformance operation duration_ms resource_type resource_id metadata =>
      log_performance_event env commit_raises operation duration_ms resource_type
                            resource_id metadata st
  | LogWorkflow workflow_id action user_id session_id metadata =>
      log_workflow_event env commit_raises workflow_id action user_id session_id
                         metadata st
  | LogAgent agent_id action user_id session_id metadata =>
      log_agent_event env commit_raises agent_id action user_id session_id metadata st
  end.

Definition perform_all (calls : list (WS.world * bool * call))
           (st : service * WS.manager) : service * WS.manager :=
  fold_left (fun st' c => (perform c.1.1 c.1.2 c.2 st').2) calls st.

(** No sensitive key that is reached through dictionaries under keys that
    are not sensitive holds anything but the sentinel. *)
Definition redacted (v : value) : Prop :=
  forall path key found,
    Forall (fun k => is_sensitive k = false) path ->
    is_sensitive key = true ->
    lookup_path (path ++ [key]) v = Some found ->
    found = REDACTED.

(** The filters of [get_audit_stats]: a bound is applied when it is given. *)
Definition in_period (start_date end_date : option N) (log : AuditLog) : bool :=
  match start_date with Some s => (s <=? timestamp log)%N | None => true end
  && match end_date with Some e => (timestamp log <=? e)%N | None => true end.

(** [counts[k] = counts.get(k, 0) + 1] for every [k] of a list. *)
Definition tally {K} `{Countable K} (keys : list K) : gmap K nat :=
  fold_left (fun counts k => <[k := S (default 0%nat (counts !! k))]> counts) keys ∅.

Record audit_stats : Type := {
  total_events : nat;
  action_distribution : gmap string nat;
  user_activity : gmap Z nat;
  period : option N * option N
}.

(** [get_audit_stats]: [None] stands for the empty dictionary that the
    source returns when the database raises. *)
Definition get_audit_stats (query_raises : bool) (start_date end_date : option N)
           (svc : service) : option audit_stats :=
  if query_raises then None
  else
    let logs := List.filter (in_period start_date end_date) (db svc) in
    Some {| total_events := length logs;
            action_distribution := tally (map action logs);
            user_activity := tally (map actor_id logs);
            period := (start_date, end_date) |}.

(** The sum of the counts of a tally. *)
Definition counted {K} `{Countable K} (counts : gmap K nat) : nat :=
  map_fold (fun _ n total => (n + total)%nat) 0%nat counts.

End Audit.

(** ** The agent brain ([agent_brain.py], with the local client of
       [maclink_client.py]) *)

Module Brain.

Inductive CompletionProvider : Type := OPENAI | MACLINK.

Definition provider_eqb (a b : CompletionProvider) : bool :=
  match a, b with
  | OPENAI, OPENAI | MACLINK, MACLINK => true
  | _, _ => false
  end.

Record AgentPersona : Type := {
  name : string;
  description : string;
  system_prompt : string;
  preferred_provider : CompletionProvider;
  preferred_model : string;
  max_tokens : nat;
  capabilities : list string
}.

(** One entry of a conversation: [{"role": ..., "content": ...}]. *)
Record entry : Type := { role : string; content : string }.

Record BrainRequest : Type := {
  prompt : string;
  agent_id : string;
  persona : option AgentPersona;
  provider : option CompletionProvider;
  model : option string;
  conversation_history : list entry
}.

Record BrainResponse : Type := {
  resp_content : string;
  resp_provider : CompletionProvider;
  resp_model : string;
  resp_agent_id : string;
  tokens_used : nat
}.

(** [BrainError(message, provider)]. *)
Record BrainError : Type := {
  err_message : string;
  err_provider : option CompletionProvider
}.

(** *** The local client *)

Record LocalModelInfo : Type := { model_name : string; status : string }.

Record MacLinkRequest : Type := {
  mq_prompt : string;
  mq_model_name : string;
  mq_max_tokens : nat;
  mq_system_message : option string;
  mq_history : list entry
}.

(** What one call of [_make_inference_request] does: a reply, a
    [MacLinkError] with its status code, or another exception. *)
Inductive inference : Type :=
| Reply (content : string) (tokens : nat)
| MacLinkError (message : string) (status_code : option nat)
| OtherError (message : string).

Record MacLinkClient : Type := {
  available_models : list (string * LocalModelInfo);
  max_retries : nat;
  (** the server's answer to the attempt of a given number *)
  _make_inference_request : nat -> MacLinkRequest -> inference
}.

Definition is_server_error (code : option nat) : bool :=
  match code with
  | Some c => existsb (Nat.eqb c) [500; 502; 503; 504]%nat
  | None => false
  end.

(** The retry loop [for attempt in range(self.max_retries)]. *)
Fixpoint maclink_attempts (c : MacLinkClient) (request : MacLinkRequest)
         (remaining attempt : nat) : inference :=
  match remaining with
  | O => MacLinkError "Max retries exceeded" None
  | S remaining' =>
      match _make_inference_request c attempt request with
      | Reply content tokens => Reply content tokens
      | MacLinkError message code =>
          if is_server_error code && (attempt <? max_retries c - 1)%nat
          then maclink_attempts c request remaining' (S attempt)
          else MacLinkError message code
      | OtherError message =>
          MacLinkError ("Unexpected error: " +:+ message) None
      end
  end.

(** [MacLinkClient.generate_completion]. *)
Definition maclink_generate_completion (c : MacLinkClient) (request : MacLinkRequest)
  : inference :=
  match Dict.get (mq_model_name request) (available_models c) with
  | None =>
      MacLinkError ("Model " +:+ mq_model_name request +:+ " not available") None
  | Some model_info =>
      if negb (String.eqb (status model_info) "ready")
      then MacLinkError ("Model " +:+ mq_model_name request
                           +:+ " is not ready (status: " +:+ status model_info +:+ ")")
                        None
      else maclink_attempts c request (max_retries c) O
  end.

(** *** The remote client *)

Inductive GPTModel : Type :=
| GPT_4 | GPT_4_TURBO | GPT_4O | GPT_4O_MINI | GPT_3_5_TURBO | GPT_3_5_TURBO_16K.

Definition gpt_members : list (string * (string * GPTModel)) :=
  [ ("GPT_4", ("gpt-4", GPT_4));
    ("GPT_4_TURBO", ("gpt-4-turbo-preview", GPT_4_TURBO));
    ("GPT_4O", ("gpt-4o", GPT_4O));
    ("GPT_4O_MINI", ("gpt-4o-mini", GPT_4O_MINI));
    ("GPT_3_5_TURBO", ("gpt-3.5-turbo", GPT_3_5_TURBO));
    ("GPT_3_5_TURBO_16K", ("gpt-3.5-turbo-16k", GPT_3_5_TURBO_16K)) ].

Definition upper_char (c : ascii) : ascii :=
  let n := nat_of_ascii c in
  if (97 <=? n)%nat && (n <=? 122)%nat then ascii_of_nat (n - 32) else c.

(** [model.upper().replace("-", "_")]. *)
Fixpoint member_name (model : string) : string :=
  match model with
  | EmptyString => EmptyString
  | String c s' =>
      String (if Ascii.eqb c "-" then "_"%char else upper_char c) (member_name s')
  end.

(** [GPTModel(model) if hasattr(GPTModel, ...) else GPTModel.GPT_4O];
    [GPTModel(model)] raises [ValueError] when no member has that value. *)
Definition select_gpt_model (model : string) : option GPTModel :=
  if Dict.mem (member_name model) gpt_members then
    match List.find (fun m => String.eqb (fst (snd m)) model) gpt_members with
    | Some m => Some (snd (snd m))
    | None => None
    end
  else Some GPT_4O.

Record OpenAIRequest : Type := {
  oq_prompt : string;
  oq_model : GPTModel;
  oq_max_tokens : nat;
  oq_system_message : option string;
  oq_history : list entry
}.

(** The remote client: its [generate_completion] answers with a content
    and a token count, or raises. *)
Record OpenAIClient : Type := {
  openai_generate_completion : OpenAIRequest -> option (string * nat)
}.

(** *** The brain *)

Record brain : Type := {
  openai_client : option OpenAIClient;
  maclink_client : option MacLinkClient;
  conversation_store : gmap string (list entry);
  requests : CompletionProvider -> nat;      (* provider_stats[...]["requests"] *)
  log : list string                          (* logger.warning, oldest first *)
}.

Definition with_store (store : gmap string (list entry)) (b : brain) : brain :=
  {| openai_client := openai_client b; maclink_client := maclink_client b;
     conversation_store := store; requests := requests b; log := log b |}.

Definition with_log (l : list string) (b : brain) : brain :=
  {| openai_client := openai_client b; maclink_client := maclink_client b;
     conversation_store := conversation_store b; requests := requests b; log := l |}.

Definition count_request (p : CompletionProvider) (b : brain) : brain :=
  {| openai_client := openai_client b; maclink_client := maclink_client b;
     conversation_store := conversation_store b;
     requests := fun q => if provider_eqb p q then S (requests b q) else requests b q;
     log := log b |}.

(** A [str] option that Python's [if x:] accepts. *)
Definition given (o : option string) : option string :=
  match o with
  | Some s => if String.eqb s "" then None else Some s
  | None => None
  end.

Definition is_some {A} (o : option A) : bool :=
  match o with Some _ => true | None => false end.

Definition no_providers : BrainError :=
  {| err_message := "No completion providers available"; err_provider := None |}.

(** [_select_provider_and_model]: the pair chosen and the warnings logged,
    or the error raised. *)
Definition _select_provider_and_model (b : brain) (request : BrainRequest)
  : (CompletionProvider * string * list string) + BrainError :=
  let provider0 :=
    match provider request, persona request with
    | Some p, _ => p
    | None, Some ps => preferred_provider ps
    | None, None => if is_some (openai_client b) then OPENAI else MACLINK
    end in
  let model :=
    match given (model request), persona request with
    | Some m, _ => m
    | None, Some ps => preferred_model ps
    | None, None => match provider0 with OPENAI => "gpt-4o" | MACLINK => "llama2" end
    end in
  (* Validate provider availability *)
  let after_openai : (CompletionProvider * list string) + BrainError :=
    if provider_eqb provider0 OPENAI && negb (is_some (openai_client b)) then
      if is_some (maclink_client b)
      then inl (MACLINK, ["OpenAI not available, falling back to MacLink"])
      else inr no_providers
    else inl (provider0, []) in
  match after_openai with
  | inr e => inr e
  | inl (provider1, warnings) =>
      if provider_eqb provider1 MACLINK && negb (is_some (maclink_client b)) then
        if is_some (openai_client b)
        then inl (OPENAI, model,
                  (warnings ++ ["MacLink not available, falling back to OpenAI"])%list)
        else inr no_providers
      else inl (provider1, model, warnings)
  end.

Definition max_history_length : nat := 20.

(** [l[-n:]] for a positive [n]. *)
Definition last_n {A} (n : nat) (l : list A) : list A :=
  skipn (length l - n) l.

Definition _prepare_conversation_history (b : brain) (agent_id : string)
           (additional_history : list entry) : list entry :=
  let stored_history := default [] (conversation_store b !! agent_id) in
  let full_history := (stored_history ++ additional_history)%list in
  if (max_history_length <? length full_history)%nat
  then last_n max_history_length full_history
  else full_history.

Definition _update_conversation_history (agent_id user_message assistant_response : string)
           (b : brain) : brain :=
  let stored := default [] (conversation_store b !! agent_id) in
  let extended :=
    (stored ++ [ {| role := "user"; content := user_message |};
                 {| role := "assistant"; content := assistant_response |} ])%list in
  let kept :=
    if (max_history_length <? length extended)%nat
    then last_n max_history_length extended
    else extended in
  with_store (<[agent_id := kept]> (conversation_store b)) b.

Definition clear_conversation_history (agent_id : string) (b : brain) : brain :=
  with_store (delete agent_id (conversation_store b)) b.

Definition get_conversation_history (b : brain) (agent_id : string) : list entry :=
  default [] (conversation_store b !! agent_id).

Definition persona_max_tokens (request : BrainRequest) : nat :=
  match persona request with Some ps => max_tokens ps | None => 2048%nat end.

Definition persona_system_prompt (request : BrainRequest) : option string :=
  match persona request with Some ps => Some (system_prompt ps) | None => None end.

Definition _generate_openai_completion (b : brain) (request : BrainRequest)
           (model : string) (history : list entry) : BrainResponse + BrainError :=
  match openai_client b with
  | None => inr {| err_message := "OpenAI client not initialized";
                   err_provider := Some OPENAI |}
  | Some client =>
      match select_gpt_model model with
      | None => inr {| err_message := "Unexpected error: "
                                        +:+ Py.repr_str model +:+ " is not a valid GPTModel";
                       err_provider := Some OPENAI |}
      | Some gpt =>
          match openai_generate_completion client
                  {| oq_prompt := prompt request; oq_model := gpt;
                     oq_max_tokens := persona_max_tokens request;
                     oq_system_message := persona_system_prompt request;
                     oq_history := history |} with
          | Some (text, tokens) =>
              inl {| resp_content := text; resp_provider := OPENAI;
                     resp_model := model; resp_agent_id := agent_id request;
                     tokens_used := tokens |}
          | None => inr {| err_message := "OpenAI error";
                           err_provider := Some OPENAI |}
          end
      end
  end.

Definition _generate_maclink_completion (b : brain) (request : BrainRequest)
           (model : string) (history : list entry) : BrainResponse + BrainError :=
  match maclink_client b with
  | None => inr {| err_message := "MacLink client not initialized";
                   err_provider := Some MACLINK |}
  | Some client =>
      match maclink_generate_completion client
              {| mq_prompt := prompt request; mq_model_name := model;
                 mq_max_tokens := persona_max_tokens request;
                 mq_system_message := persona_system_prompt request;
                 mq_history := history |} with
      | Reply text tokens =>
          inl {| resp_content := text; resp_provider := MACLINK;
                 resp_model := model; resp_agent_id := agent_id request;
                 tokens_used := tokens |}
      | MacLinkError message _ =>
          inr {| err_message := "MacLink error: " +:+ message;
                 err_provider := Some MACLINK |}
      | OtherError message =>
          inr {| err_message := "Unexpected error: " +:+ message;
                 err_provider := Some MACLINK |}
      end
  end.

(** [generate_completion]: the response or the [BrainError] raised, and the
    brain afterwards. *)
Definition generate_completion (request : BrainRequest) (b : brain)
  : (BrainResponse + BrainError) * brain :=
  match _select_provider_and_model b request with
  | inr e => (inr e, b)
  | inl (provider, model, warnings) =>
      let b1 := with_log (log b ++ warnings)%list b in
      let history :=
        _prepare_conversation_history b1 (agent_id request)
                                      (conversation_history request) in
      let outcome :=
        match provider with
        | OPENAI => _generate_openai_completion b1 request model history
        | MACLINK => _generate_maclink_completion b1 request model history
        end in
      match outcome with
      | inr e => (inr e, b1)
      | inl response =>
          (inl response,
           count_request provider
             (_update_conversation_history (agent_id request) (prompt request)
                                           (resp_content response) b1))
      end
  end.

(** What [_update_conversation_history] and [_prepare_conversation_history]
    keep of a list: the list, or its last 20 entries when it is longer. *)
Definition window (l : list entry) : list entry :=
  if (max_history_length <? length l)%nat then last_n max_history_length l else l.

(** The two entries of one exchange. *)
Definition turn (user_message assistant_response : string) : list entry :=
  [ {| role := "user"; content := user_message |};
    {| role := "assistant"; content := assistant_response |} ].

(** Every stored history is within the limit. *)
Definition bounded (b : brain) : Prop :=
  forall agent_id,
    (length (get_conversation_history b agent_id) <= max_history_length)%nat.

(** The operations that touch the conversation store. *)
Inductive store_op : Type :=
| Complete (request : BrainRequest)
| Clear (agent_id : string).

Definition store_step (o : store_op) (b : brain) : brain :=
  match o with
  | Complete request => snd (generate_completion request b)
  | Clear agent_id => clear_conversation_history agent_id b
  end.

Definition new_brain (openai : option OpenAIClient) (maclink : option MacLinkClient)
  : brain :=
  {| openai_client := openai; maclink_client := maclink;
     conversation_store := ∅; requests := fun _ => O; log := [] |}.

(** *** Vocabulary for the selection of providers and the retries *)

(** Whether the client of a provider is configured. *)
Definition available (b : brain) (p : CompletionProvider) : bool :=
  match p with
  | OPENAI => is_some (openai_client b)
  | MACLINK => is_some (maclink_client b)
  end.

(** The provider a request asks for, before availability is looked at. *)
Definition wanted (b : brain) (request : BrainRequest) : CompletionProvider :=
  match provider request, persona request with
  | Some p, _ => p
  | None, Some ps => preferred_provider ps
  | None, None => if is_some (openai_client b) then OPENAI else MACLINK
  end.

(** What the retry loop makes of the answer to an attempt. *)
Definition settle (i : inference) : inference :=
  match i with
  | OtherError message => MacLinkError ("Unexpected error: " +:+ message) None
  | other => other
  end.

Definition retried (i : inference) : bool :=
  match i with
  | MacLinkError _ code => is_server_error code
  | _ => false
  end.

End Brain.

(** ** The workflow orchestrator ([workflow_orchestrator.py]) *)

Module Orchestrator.

Inductive StepStatus : Type :=
| PENDING | RUNNING | COMPLETED | FAILED | SKIPPED | CANCELLED.

Definition step_status_value (s : StepStatus) : string :=
  match s with
  | PENDING => "pending" | RUNNING => "running" | COMPLETED => "completed"
  | FAILED => "failed" | SKIPPED => "skipped" | CANCELLED => "cancelled"
  end.

Definition step_status_eqb (a b : StepStatus) : bool :=
  String.eqb (step_status_value a) (step_status_value b).

Inductive ExecutionStatus : Type :=
| EXEC_PENDING | EXEC_RUNNING | EXEC_COMPLETED | EXEC_FAILED | EXEC_CANCELLED
| EXEC_PAUSED.

Definition execution_status_value (s : ExecutionStatus) : string :=
  match s with
  | EXEC_PENDING => "pending" | EXEC_RUNNING => "running"
  | EXEC_COMPLETED => "completed" | EXEC_FAILED => "failed"
  | EXEC_CANCELLED => "cancelled" | EXEC_PAUSED => "paused"
  end.

(** [StepContext] and [ExecutionContext], without their clock readings. *)
Record StepContext : Type := {
  step_id : string;
  step_data : value;
  step_variables : dict;
  step_results : value;
  step_status : StepStatus;
  step_error : option string;
  retry_count : nat;
  max_retries : nat
}.

Record ExecutionContext : Type := {
  execution_id : string;
  workflow_id : string;
  workflow_data : value;
  variables : dict;
  results : dict;
  status : ExecutionStatus;
  current_step : option string;
  completed_steps : list string;
  failed_steps : list string;
  step_contexts : list (string * StepContext);
  error : option string;
  max_parallel_steps : nat
}.

(** The state an execution threads: its context, the number of broadcasts
    attempted so far, the broadcasts that went out (newest first), and the
    statuses every step context was given, in order (oldest first). *)
Record state : Type := {
  context : ExecutionContext;
  broadcast_calls : nat;
  outbox : list (string * dict);
  history : list (string * StepStatus)
}.

Definition M (A : Type) : Type := state -> result A * state.

Definition ret {A} (a : A) : M A := fun st => (Ok a, st).
Definition raise {A} (e : exn) : M A := fun st => (Raise e, st).
Definition bind {A B} (m : M A) (k : A -> M B) : M B :=
  fun st => match m st with
            | (Ok a, st') => k a st'
            | (Raise e, st') => (Raise e, st')
            end.
(** [try: body except Exception as e: handler e]. *)
Definition catch {A} (body : M A) (handler : exn -> M A) : M A :=
  fun st => match body st with
            | (Ok a, st') => (Ok a, st')
            | (Raise e, st') => handler e st'
            end.
Definition lift {A} (r : result A) : M A := fun st => (r, st).
Definition get_context : M ExecutionContext := fun st => (Ok (context st), st).
Definition modify_context (f : ExecutionContext -> ExecutionContext) : M unit :=
  fun st => (Ok tt, {| context := f (context st);
                       broadcast_calls := broadcast_calls st;
                       outbox := outbox st; history := history st |}).

Notation "x <- m ;; k" := (bind m (fun x => k))
  (at level 100, m at next level, right associativity).
Notation "m ;;; k" := (bind m (fun _ => k))
  (at level 100, right associativity).

(** *** Field updates *)

Definition with_variables (v : dict) (c : ExecutionContext) : ExecutionContext :=
  {| execution_id := execution_id c; workflow_id := workflow_id c;
     workflow_data := workflow_data c; variables := v; results := results c;
     status := status c; current_step := current_step c;
     completed_steps := completed_steps c; failed_steps := failed_steps c;
     step_contexts := step_contexts c; error := error c;
     max_parallel_steps := max_parallel_steps c |}.

Definition with_status (s : ExecutionStatus) (c : ExecutionContext) : ExecutionContext :=
  {| execution_id := execution_id c; workflow_id := workflow_id c;
     workflow_data := workflow_data c; variables := variables c; results := results c;
     status := s; current_step := current_step c;
     completed_steps := completed_steps c; failed_steps := failed_steps c;
     step_contexts := step_contexts c; error := error c;
     max_parallel_steps := max_parallel_steps c |}.

Definition with_error (e : option string) (c : ExecutionContext) : ExecutionContext :=
  {| execution_id := execution_id c; workflow_id := workflow_id c;
     workflow_data := workflow_data c; variables := variables c; results := results c;
     status := status c; current_step := current_step c;
     completed_steps := completed_steps c; failed_steps := failed_steps c;
     step_contexts := step_contexts c; error := e;
     max_parallel_steps := max_parallel_steps c |}.

Definition with_current_step (s : option string) (c : ExecutionContext)
  : ExecutionContext :=
  {| execution_id := execution_id c; workflow_id := workflow_id c;
     workflow_data := workflow_data c; variables := variables c; results := results c;
     status := status c; current_step := s;
     completed_steps := completed_steps c; failed_steps := failed_steps c;
     step_contexts := step_contexts c; error := error c;
     max_parallel_steps := max_parallel_steps c |}.

Definition with_completed_steps (l : list string) (c : ExecutionContext)
  : ExecutionContext :=
  {| execution_id := execution_id c; workflow_id := workflow_id c;
     workflow_data := workflow_data c; variables := variables c; results := results c;
     status := status c; current_step := current_step c;
     completed_steps := l; failed_steps := failed_steps c;
     step_contexts := step_contexts c; error := error c;
     max_parallel_steps := max_parallel_steps c |}.

Definition with_failed_steps (l : list string) (c : ExecutionContext)
  : ExecutionContext :=
  {| execution_id := execution_id c; workflow_id := workflow_id c;
     workflow_data := workflow_data c; variables := variables c; results := results c;
     status := status c; current_step := current_step c;
     completed_steps := completed_steps c; failed_steps := l;
     step_contexts := step_contexts c; error := error c;
     max_parallel_steps := max_parallel_steps c |}.

Definition with_step_contexts (scs : list (string * StepContext))
           (c : ExecutionContext) : ExecutionContext :=
  {| execution_id := execution_id c; workflow_id := workflow_id c;
     workflow_data := workflow_data c; variables := variables c; results := results c;
     status := status c; current_step := current_step c;
     completed_steps := completed_steps c; failed_steps := failed_steps c;
     step_contexts := scs; error := error c;
     max_parallel_steps := max_parallel_steps c |}.

Definition sc_with_status (s : StepStatus) (sc : StepContext) : StepContext :=
  {| step_id := step_id sc; step_data := step_data sc;
     step_variables := step_variables sc; step_results := step_results sc;
     step_status := s; step_error := step_error sc;
     retry_count := retry_count sc; max_retries := max_retries sc |}.

Definition sc_with_results (r : value) (sc : StepContext) : StepContext :=
  {| step_id := step_id sc; step_data := step_data sc;
     step_variables := step_variables sc; step_results := r;
     step_status := step_status sc; step_error := step_error sc;
     retry_count := retry_count sc; max_retries := max_retries sc |}.

Definition sc_with_error (e : option string) (sc : StepContext) : StepContext :=
  {| step_id := step_id sc; step_data := step_data sc;
     step_variables := step_variables sc; step_results := step_results sc;
     step_status := step_status sc; step_error := e;
     retry_count := retry_count sc; max_retries := max_retries sc |}.

Definition sc_with_retry_count (n : nat) (sc : StepContext) : StepContext :=
  {| step_id := step_id sc; step_data := step_data sc;
     step_variables := step_variables sc; step_results := step_results sc;
     step_status := step_status sc; step_error := step_error sc;
     retry_count := n; max_retries := max_retries sc |}.

(** A step context is an object shared through [context.step_contexts];
    writing one of its fields is an update of the entry under its id. *)
Definition update_step (id : string) (f : StepContext -> StepContext) : M unit :=
  modify_context (fun c =>
    match Dict.get id (step_contexts c) with
    | Some sc => with_step_contexts (Dict.set id (f sc) (step_contexts c)) c
    | None => c
    end).

(** [step_context.status = s], recorded in the history. *)
Definition set_step_status (id : string) (s : StepStatus) : M unit :=
  fun st =>
    update_step id (sc_with_status s)
      {| context := context st; broadcast_calls := broadcast_calls st;
         outbox := outbox st; history := (history st ++ [(id, s)])%list |}.

Definition key_error {A} (k : string) : result A :=
  Raise (Exn "KeyError" (Py.repr_str k)).

(** [d[k]] on a value that is a [dict]. *)
Definition getitem (d : value) (k : string) : result value :=
  match d with
  | VDict entries =>
      match Dict.get k entries with
      | Some v => Ok v
      | None => key_error k
      end
  | _ => Raise (Exn "TypeError" "object is not subscriptable")
  end.

(** [d.get(k, default)]. *)
Definition get_default (d : value) (k : string) (dflt : value) : value :=
  match d with
  | VDict entries => default dflt (Dict.get k entries)
  | _ => dflt
  end.

Definition has_key (d : value) (k : string) : bool :=
  match d with
  | VDict entries => Dict.mem k entries
  | _ => false
  end.

(** The key a value stands for in a [dict] of this model. *)
Definition as_key (v : value) : string := Py.str v.

(** [for x in v]. *)
Fixpoint chars (s : string) : list value :=
  match s with
  | EmptyString => []
  | String c s' => VStr (String c EmptyString) :: chars s'
  end.

Definition py_iter (v : value) : result (list value) :=
  match v with
  | VList items => Ok items
  | VStr s => Ok (chars s)
  | VDict entries => Ok (map (fun kv => VStr (fst kv)) entries)
  | _ => Raise (Exn "TypeError" "object is not iterable")
  end.

Fixpoint has_str (v : value) : bool :=
  match v with
  | VStr _ => true
  | VList items => existsb has_str items
  | VDict entries => existsb (fun kv => has_str (snd kv)) entries
  | _ => false
  end.

(** [_interpolate_variables(template, variables)] when [variables] need not
    be a [dict]: [variables.items()] is reached at the first string of the
    template. *)
Definition interpolate_in (template variables : value) : result value :=
  match variables with
  | VDict d => Ok (_interpolate_variables template d)
  | _ => if has_str template
         then Raise (Exn "AttributeError" "object has no attribute 'items'")
         else Ok template
  end.

Definition get_step_context (id : string) : M StepContext :=
  c <- get_context ;;
  match Dict.get id (step_contexts c) with
  | Some sc => ret sc
  | None => lift (key_error id)
  end.

Section Handlers.

(** The collaborators of an execution: [eval]; the calls that leave the
    process (agents, HTTP, JSON encoding), by step type; and whether the
    broadcast of a given number raises. *)
Variable py_eval : string -> list (string * binding) -> result value.
Variable external : string -> value -> dict -> result value.
Variable broadcast_raises : nat -> bool.

(** [websocket_manager.broadcast_to_user(user_id, event, payload)]. *)
Definition broadcast_to_user (event : string) (payload : dict) : M unit :=
  fun st =>
    let n := broadcast_calls st in
    if broadcast_raises n
    then (Raise (Exn "Exception" "broadcast failed"),
          {| context := context st; broadcast_calls := S n;
             outbox := outbox st; history := history st |})
    else (Ok tt,
          {| context := context st; broadcast_calls := S n;
             outbox := (event, payload) :: outbox st; history := history st |}).

Definition opt_value (o : option string) : value :=
  match o with Some s => VStr s | None => VNone end.

Definition _update_step_status (id : string) : M unit :=
  sc <- get_step_context id ;;
  c <- get_context ;;
  broadcast_to_user "workflow_step_updated"
    [ ("execution_id", VStr (execution_id c));
      ("step_id", VStr id);
      ("status", VStr (step_status_value (step_status sc)));
      ("results", step_results sc);
      ("error", opt_value (step_error sc)) ].

Definition _update_execution_status : M unit :=
  c <- get_context ;;
  broadcast_to_user "workflow_execution_updated"
    [ ("execution_id", VStr (execution_id c));
      ("status", VStr (execution_status_value (status c)));
      ("current_step", opt_value (current_step c));
      ("completed_steps", VList (map VStr (completed_steps c)));
      ("failed_steps", VList (map VStr (failed_steps c)));
      ("error", opt_value (error c)) ].

Definition eval_condition (expression : value) (vars : dict) : result value :=
  match expression with
  | VStr e => _evaluate_expression py_eval e vars
  | _ => Ok (VBool false)      (* eval raises TypeError, which is caught *)
  end.

(** *** The handlers; [exec] is [_execute_step] *)

Definition _handle_agent_task (step : value) : M value :=
  c <- get_context ;;
  config <- lift (getitem step "config") ;;
  _ <- lift (getitem config "agent_id") ;;
  _ <- lift (getitem config "task") ;;
  lift (external "agent_task" step (variables c)).

Definition _handle_api_call (step : value) : M value :=
  c <- get_context ;;
  config <- lift (getitem step "config") ;;
  url <- lift (getitem config "url") ;;
  lift (external "api_call"
          (VDict [ ("url", _interpolate_variables url (variables c));
                   ("method", get_default config "method" (VStr "GET"));
                   ("headers", get_default config "headers" (VDict []));
                   ("data", let data := get_default config "data" VNone in
                            if Py.truthy data
                            then _interpolate_variables data (variables c)
                            else data) ])
          (variables c)).

Definition _handle_condition (step : value) : M value :=
  c <- get_context ;;
  config <- lift (getitem step "config") ;;
  condition <- lift (getitem config "condition") ;;
  result <- lift (eval_condition condition (variables c)) ;;
  ret (VDict [("condition_result", result)]).

Fixpoint loop_body (exec : value -> M value) (loop_steps : list value)
         (results : list value) : M (list value) :=
  match loop_steps with
  | [] => ret results
  | loop_step :: rest =>
      result <- exec loop_step ;;
      loop_body exec rest (results ++ [result])%list
  end.

Fixpoint loop_items (exec : value -> M value) (loop_steps : list value)
         (items : list value) (results : list value) : M (list value) :=
  match items with
  | [] => ret results
  | item :: rest =>
      c <- get_context ;;
      (* Create loop context *)
      let loop_context :=
        Dict.set "loop_index" (VInt (Z.of_nat (length results)))
                 (Dict.set "loop_item" item (variables c)) in
      (* Execute loop steps: [exec] is handed the execution context, and
         [loop_context] is not read again *)
      results' <- loop_body exec loop_steps results ;;
      loop_items exec loop_steps rest results'
  end.

Definition _handle_loop (exec : value -> M value) (step : value) : M value :=
  c <- get_context ;;
  config <- lift (getitem step "config") ;;
  raw_items <- lift (getitem config "items") ;;
  let items := _interpolate_variables raw_items (variables c) in
  loop_steps <- lift (rbind (getitem config "steps") py_iter) ;;
  item_list <- lift (py_iter items) ;;
  results <- loop_items exec loop_steps item_list [] ;;
  ret (VDict [("loop_results", VList results)]).

(** [asyncio.gather(..., return_exceptions=True)], the tasks taken one
    after the other: an exception becomes the result of its task. *)
Fixpoint gather (exec : value -> M value) (steps : list value) : M (list value) :=
  match steps with
  | [] => ret []
  | s :: rest =>
      r <- catch (exec s) (fun e => ret (VError e)) ;;
      rs <- gather exec rest ;;
      ret (r :: rs)
  end.

Definition _handle_parallel (exec : value -> M value) (step : value) : M value :=
  config <- lift (getitem step "config") ;;
  parallel_steps <- lift (rbind (getitem config "steps") py_iter) ;;
  results <- gather exec parallel_steps ;;
  ret (VDict [("parallel_results", VList results)]).

Definition _handle_wait (step : value) : M value :=
  config <- lift (getitem step "config") ;;
  duration <- lift (getitem config "duration") ;;
  ret (VDict [("waited", duration)]).

Definition _handle_transform (step : value) : M value :=
  c <- get_context ;;
  config <- lift (getitem step "config") ;;
  raw_input <- lift (getitem config "input") ;;
  let input_data := _interpolate_variables raw_input (variables c) in
  transform_type <- lift (getitem config "type") ;;
  if Py.eq transform_type (VStr "json_parse") then
    r <- lift (external "json_parse" input_data (variables c)) ;;
    ret (VDict [("transformed", r)])
  else if Py.eq transform_type (VStr "json_stringify") then
    r <- lift (external "json_stringify" input_data (variables c)) ;;
    ret (VDict [("transformed", r)])
  else if Py.eq transform_type (VStr "template") then
    template <- lift (getitem config "template") ;;
    r <- lift (interpolate_in template input_data) ;;
    ret (VDict [("transformed", r)])
  else
    raise (Exn "ValueError"
               ("Unknown transform type: " +:+ Py.str transform_type)).

Definition _handle_webhook (step : value) : M value :=
  c <- get_context ;;
  config <- lift (getitem step "config") ;;
  url <- lift (getitem config "url") ;;
  lift (external "webhook"
          (VDict [ ("url", _interpolate_variables url (variables c));
                   ("payload",
                    _interpolate_variables (get_default config "payload" (VDict []))
                                           (variables c)) ])
          (variables c)).

Definition _handle_email (step : value) : M value :=
  c <- get_context ;;
  config <- lift (getitem step "config") ;;
  to <- lift (getitem config "to") ;;
  let to_email := _interpolate_variables to (variables c) in
  _ <- lift (getitem config "subject") ;;
  _ <- lift (getitem config "body") ;;
  ret (VDict [("email_sent", VBool true); ("to", to_email)]).

Definition _handle_notification (step : value) : M value :=
  c <- get_context ;;
  config <- lift (getitem step "config") ;;
  raw_message <- lift (getitem config "message") ;;
  let message := _interpolate_variables raw_message (variables c) in
  let notification_type := get_default config "type" (VStr "info") in
  broadcast_to_user "notification"
    [ ("type", notification_type); ("message", message);
      ("workflow_id", VStr (workflow_id c));
      ("execution_id", VStr (execution_id c)) ] ;;;
  ret (VDict [("notification_sent", VBool true); ("type", notification_type)]).

(** [self.step_handlers.get(step_type)]. *)
Definition step_handlers (exec : value -> M value) (step_type : string)
  : option (value -> M value) :=
  if String.eqb step_type "agent_task" then Some _handle_agent_task
  else if String.eqb step_type "api_call" then Some _handle_api_call
  else if String.eqb step_type "condition" then Some _handle_condition
  else if String.eqb step_type "loop" then Some (_handle_loop exec)
  else if String.eqb step_type "parallel" then Some (_handle_parallel exec)
  else if String.eqb step_type "wait" then Some _handle_wait
  else if String.eqb step_type "transform" then Some _handle_transform
  else if String.eqb step_type "webhook" then Some _handle_webhook
  else if String.eqb step_type "email" then Some _handle_email
  else if String.eqb step_type "notification" then Some _handle_notification
  else None.

Definition set_variable (k : string) (v : value) : M unit :=
  modify_context (fun c => with_variables (Dict.set k v (variables c)) c).

(** [_execute_step]; [depth] is the nesting the interpreter still allows,
    and running out of it is Python's [RecursionError]. *)
Fixpoint _execute_step (depth : nat) (step : value) : M value :=
  match depth with
  | O => raise (Exn "RecursionError" "maximum recursion depth exceeded")
  | S depth' =>
      id_value <- lift (getitem step "id") ;;
      let id := as_key id_value in
      _ <- get_step_context id ;;
      let step_type := as_key (get_default step "type" (VStr "agent_task")) in
      catch
        (set_step_status id RUNNING ;;;
         _update_step_status id ;;;
         result <-
           match step_handlers (_execute_step depth') step_type with
           | Some handler => handler step
           | None => raise (Exn "ValueError" ("Unknown step type: " +:+ step_type))
           end ;;
         (* Store result *)
         update_step id (sc_with_results result) ;;;
         set_step_status id COMPLETED ;;;
         (* Update variables *)
         (if has_key step "output_variable"
          then set_variable (as_key (get_default step "output_variable" VNone)) result
          else ret tt) ;;;
         _update_step_status id ;;;
         ret result)
        (fun e =>
           set_step_status id FAILED ;;;
           update_step id (sc_with_error (Some (exn_msg e))) ;;;
           _update_step_status id ;;;
           raise e)
  end.

Definition _should_skip_step (step : value) : M bool :=
  c <- get_context ;;
  if has_key step "condition" then
    r <- lift (eval_condition (get_default step "condition" VNone) (variables c)) ;;
    ret (negb (Py.truthy r))
  else ret false.

Definition _mark_step_skipped (id : string) : M unit :=
  _ <- get_step_context id ;;
  set_step_status id SKIPPED ;;;
  _update_step_status id.

Definition _handle_step_error (id : string) (e : exn) : M unit :=
  _ <- get_step_context id ;;
  set_step_status id FAILED ;;;
  update_step id (sc_with_error (Some (exn_msg e))) ;;;
  modify_context (fun c => with_failed_steps (failed_steps c ++ [id])%list c) ;;;
  _update_step_status id.

Definition _handle_step_failure (depth : nat) (step : value) : M unit :=
  let failure_config := get_default step "on_failure" (VDict []) in
  let action := get_default failure_config "action" (VStr "fail") in
  if Py.eq action (VStr "retry") then
    let max_retries := get_default failure_config "max_retries" (VInt 3) in
    id_value <- lift (getitem step "id") ;;
    sc <- get_step_context (as_key id_value) ;;
    below <- lift (match PyEval.as_int max_retries with
                   | Some n => Ok (Z.of_nat (retry_count sc) <? n)%Z
                   | None => Raise (Exn "TypeError" "'<' not supported")
                   end) ;;
    if below then
      update_step (as_key id_value) (sc_with_retry_count (S (retry_count sc))) ;;;
      set_step_status (as_key id_value) PENDING ;;;
      _ <- _execute_step depth step ;;
      ret tt
    else modify_context (with_status EXEC_FAILED)
  else if Py.eq action (VStr "continue") then ret tt
  else modify_context (with_status EXEC_FAILED).

Definition stopped (s : ExecutionStatus) : bool :=
  match s with
  | EXEC_FAILED | EXEC_CANCELLED => true
  | _ => false
  end.

Fixpoint _execute_sequential_steps (depth : nat) (steps : list value) : M unit :=
  match steps with
  | [] => ret tt
  | step :: rest =>
      c <- get_context ;;
      if stopped (status c) then ret tt
      else
        id_value <- lift (getitem step "id") ;;
        let id := as_key id_value in
        modify_context (with_current_step (Some id)) ;;;
        skip <- _should_skip_step step ;;
        (if skip then _mark_step_skipped id
         else
           catch
             (_ <- _execute_step depth step ;;
              modify_context
                (fun c => with_completed_steps (completed_steps c ++ [id])%list c) ;;;
              sc <- get_step_context id ;;
              if step_status_eqb (step_status sc) FAILED
              then _handle_step_failure depth step
              else ret tt)
             (fun e => _handle_step_error id e)) ;;;
        _execute_sequential_steps depth rest
  end.

Fixpoint _execute_conditional_steps (depth : nat) (steps : list value) : M unit :=
  match steps with
  | [] => ret tt
  | step :: rest =>
      c <- get_context ;;
      if stopped (status c) then ret tt
      else
        id_value <- lift (getitem step "id") ;;
        let id := as_key id_value in
        let condition := get_default step "condition" VNone in
        proceed <-
          (if Py.truthy condition
           then r <- lift (eval_condition condition (variables c)) ;;
                ret (Py.truthy r)
           else ret true) ;;
        (if proceed
         then _ <- _execute_step depth step ;; ret tt
         else _mark_step_skipped id) ;;;
        _execute_conditional_steps depth rest
  end.

(** [_execute_parallel_steps] with its single group, the tasks taken one
    after the other. *)
Fixpoint parallel_errors (group results : list value) : M unit :=
  match group, results with
  | step :: group', r :: results' =>
      (match r with
       | VError e =>
           id_value <- lift (getitem step "id") ;;
           _handle_step_error (as_key id_value) e
       | _ => ret tt
       end) ;;;
      parallel_errors group' results'
  | _, _ => ret tt
  end.

Definition _execute_parallel_steps (depth : nat) (steps : list value) : M unit :=
  c <- get_context ;;
  if stopped (status c) then ret tt
  else
    results <- gather (_execute_step depth) steps ;;
    parallel_errors steps results.

(** [_execute_workflow_async], without the database write and the
    bookkeeping of the task tables. *)
Definition _execute_workflow_async (depth : nat) : M unit :=
  catch
    (modify_context (with_status EXEC_RUNNING) ;;;
     _update_execution_status ;;;
     c <- get_context ;;
     let steps :=
       match get_default (workflow_data c) "steps" (VList []) with
       | VList l => l
       | _ => []
       end in
     match steps with
     | [] =>
         modify_context (with_status EXEC_COMPLETED) ;;;
         _update_execution_status
     | _ =>
         let workflow_type :=
           as_key (get_default (workflow_data c) "type" (VStr "sequential")) in
         (if String.eqb workflow_type "sequential"
          then _execute_sequential_steps depth steps
          else if String.eqb workflow_type "parallel"
          then _execute_parallel_steps depth steps
          else if String.eqb workflow_type "conditional"
          then _execute_conditional_steps depth steps
          else _execute_sequential_steps depth steps) ;;;
         modify_context (with_status EXEC_COMPLETED) ;;;
         _update_execution_status
     end)
    (fun e =>
       modify_context (with_status EXEC_FAILED) ;;;
       modify_context (with_error (Some (exn_msg e))) ;;;
       _update_execution_status).

End Handlers.

(** The context [execute_workflow] builds: one step context for every
    top-level step of the definition. *)
Definition new_step_context (step : value) : StepContext :=
  {| step_id := as_key (get_default step "id" VNone); step_data := step;
     step_variables := []; step_results := VDict []; step_status := PENDING;
     step_error := None; retry_count := 0; max_retries := 3 |}.

Definition new_context (execution_id workflow_id : string) (definition : value)
           (input_data : dict) : ExecutionContext :=
  {| execution_id := execution_id; workflow_id := workflow_id;
     workflow_data := definition; variables := input_data; results := [];
     status := EXEC_PENDING; current_step := None;
     completed_steps := []; failed_steps := [];
     step_contexts :=
       fold_left (fun scs step =>
                    Dict.set (as_key (get_default step "id" VNone))
                             (new_step_context step) scs)
                 (match get_default definition "steps" (VList []) with
                  | VList l => l
                  | _ => []
                  end) [];
     error := None; max_parallel_steps := 5 |}.

Definition start (c : ExecutionContext) : state :=
  {| context := c; broadcast_calls := 0; outbox := []; history := [] |}.

(** The depth of nesting left to an execution (CPython's default limit). *)
Definition recursion_limit : nat := 1000.

(** *** What an execution leaves alone *)

(** The retry bookkeeping of an execution: for every step context, in
    order, its id, its retry count and its limit. *)
Definition counters (st : state) : list (string * (nat * nat)) :=
  map (fun kv => (kv.1, (retry_count kv.2, max_retries kv.2)))
      (step_contexts (context st)).

(** What the steps of an execution leave alone: the status of the
    execution, its error and the retry bookkeeping. *)
Definition kept (st : state)
  : ExecutionStatus * option string * list (string * (nat * nat)) :=
  (status (context st), error (context st), counters st).

(** A computation that leaves both as it finds them. *)
Definition frames {A} (m : M A) : Prop :=
  forall st, kept (m st).2 = kept st.

(** Every step has an id, and a step context under it. *)
Definition prepared (st : state) (steps : list value) : Prop :=
  Forall (fun step =>
            exists id_value,
              getitem step "id" = Ok id_value
              /\ is_Some (Dict.get (as_key id_value) (step_contexts (context st))))
         steps.

End Orchestrator.

(** ** Validation of visual workflows ([workflow_orchestrator.py],
       lines 709-791 and 1369-1434) *)

Module Visual.

(** A node and an edge of the builder, with the keys the validation reads;
    a node without a ["type"] has [node_type = None]. *)
Record Node : Type := { node_id : string; node_type : option string }.
Record Edge : Type := { source : string; target : string }.

(** The two sets of the search: [visited] and [rec_stack]. *)
Definition marks : Type := (gset string * gset string)%type.

(** [graph = {node["id"]: [] for node in nodes}]. *)
Definition empty_graph (nodes : list Node) : list (string * list string) :=
  fold_left (fun g node => Dict.set (node_id node) [] g) nodes [].

(** [graph[edge["source"]].append(edge["target"])]. *)
Definition add_edge (g : list (string * list string)) (edge : Edge)
  : result (list (string * list string)) :=
  match Dict.get (source edge) g with
  | Some targets => Ok (Dict.set (source edge) (targets ++ [target edge])%list g)
  | None => Orchestrator.key_error (source edge)
  end.

Definition build_graph (nodes : list Node) (edges : list Edge)
  : result (list (string * list string)) :=
  fold_left (fun acc edge => rbind acc (fun g => add_edge g edge))
            edges (Ok (empty_graph nodes)).

(** The loop [for neighbor in graph[node]] of [dfs]; [rec] is [dfs]. *)
Fixpoint visit (rec : string -> marks -> result (bool * marks))
         (node : string) (neighbors : list string) (mk : marks)
  : result (bool * marks) :=
  match neighbors with
  | [] => Ok (false, (mk.1, mk.2 ∖ {[node]}))
  | neighbor :: rest =>
      if decide (neighbor ∉ mk.1) then
        match rec neighbor mk with
        | Raise e => Raise e
        | Ok (true, mk') => Ok (true, mk')
        | Ok (false, mk') => visit rec node rest mk'
        end
      else if decide (neighbor ∈ mk.2) then Ok (true, mk)
      else visit rec node rest mk
  end.

(** [dfs]; [depth] is the nesting the interpreter still allows, and running
    out of it is Python's [RecursionError]. *)
Fixpoint dfs (depth : nat) (graph : list (string * list string))
         (node : string) (mk : marks) : result (bool * marks) :=
  match depth with
  | O => Raise (Exn "RecursionError" "maximum recursion depth exceeded")
  | S depth' =>
      let mk1 : marks := ({[node]} ∪ mk.1, {[node]} ∪ mk.2) in
      match Dict.get node graph with
      | None => Orchestrator.key_error node
      | Some neighbors => visit (dfs depth' graph) node neighbors mk1
      end
  end.

(** The loop [for node in graph] at the end of [_has_cycles]. *)
Fixpoint search (depth : nat) (graph : list (string * list string))
         (roots : list string) (mk : marks) : result bool :=
  match roots with
  | [] => Ok false
  | node :: rest =>
      if decide (node ∉ mk.1) then
        match dfs depth graph node mk with
        | Raise e => Raise e
        | Ok (true, _) => Ok true
        | Ok (false, mk') => search depth graph rest mk'
        end
      else search depth graph rest mk
  end.

(** [_has_cycles]: every exception of its body answers [False]. *)
Definition _has_cycles (depth : nat) (nodes : list Node) (edges : list Edge) : bool :=
  match
    try_except
      (rbind (build_graph nodes edges) (fun graph =>
         search depth graph (Dict.keys graph) (∅, ∅)))
      (fun _ => Ok false)
  with
  | Ok b => b
  | Raise _ => false
  end.

Definition valid_node_types : list string :=
  ["ai_agent"; "condition"; "transform"; "api_call"; "user_input"; "output"].

Definition valid_type (node : Node) : bool :=
  match node_type node with
  | Some t => existsb (String.eqb t) valid_node_types
  | None => false
  end.

Definition valid_edge (nodes : list Node) (edge : Edge) : bool :=
  existsb (fun n => String.eqb (node_id n) (source edge)) nodes
  && existsb (fun n => String.eqb (node_id n) (target edge)) nodes.

(** [_validate_visual_workflow]: the three checks in the order of the
    source, each raising [ValueError]. *)
Definition _validate_visual_workflow (depth : nat) (nodes : list Node)
           (edges : list Edge) : result unit :=
  if _has_cycles depth nodes edges
  then Raise (Exn "ValueError" "Workflow contains cycles")
  else match List.find (fun n => negb (valid_type n)) nodes with
       | Some n => Raise (Exn "ValueError"
                              ("Invalid node type: "
                                 +:+ match node_type n with
                                     | Some t => t
                                     | None => "None"
                                     end))
       | None =>
           match List.find (fun e => negb (valid_edge nodes e)) edges with
           | Some e => Raise (Exn "ValueError"
                                  ("Invalid edge: " +:+ source e +:+ " -> " +:+ target e))
           | None => Ok tt
           end
       end.

(** A stored definition of a visual workflow. *)
Record definition : Type := {
  def_name : string;
  def_nodes : list Node;
  def_edges : list Edge
}.

(** [create_visual_workflow] up to the commit of the record: the workflows
    stored afterwards, or the exception of the validation.  The audit entry
    and the broadcast that follow the commit are left out. *)
Definition create_visual_workflow (depth : nat) (workflow_name : string)
           (nodes : list Node) (edges : list Edge) (db : list definition)
  : result (list definition) :=
  rbind (_validate_visual_workflow depth nodes edges) (fun _ =>
    Ok (db ++ [ {| def_name := workflow_name; def_nodes := nodes;
                   def_edges := edges |} ])%list).

(** The edge relation a list of edges induces, and what a cycle is: a node
    that reaches itself along one edge or more. *)
Definition edge_of (edges : list Edge) (a b : string) : Prop :=
  ∃ e, e ∈ edges ∧ source e = a ∧ target e = b.

Definition cyclic (edges : list Edge) : Prop :=
  ∃ x, tc (edge_of edges) x x.

(** Notions for the analysis of the search.  [successor g b a]: [b] is a
    neighbour of [a] in the graph.  A graph [records] a list of edges when
    its neighbours are the targets of those edges, source by source.  The
    marks are [settled] when the stack is visited and every visited node off
    the stack is accessible: no path from it runs for ever.  [unvisited]
    counts the keys that are not visited. *)
Definition successor (g : list (string * list string)) (b a : string) : Prop :=
  exists ns, Dict.get a g = Some ns /\ b ∈ ns.

Definition records (g : list (string * list string)) (edges : list Edge) : Prop :=
  (forall a ns b, Dict.get a g = Some ns -> b ∈ ns ->
                  exists e, e ∈ edges /\ source e = a /\ target e = b)
  /\ (forall e, e ∈ edges ->
                exists ns, Dict.get (source e) g = Some ns /\ target e ∈ ns).

Definition closed_graph (g : list (string * list string)) : Prop :=
  forall a ns b, Dict.get a g = Some ns -> b ∈ ns -> b ∈ Dict.keys g.

Definition settled (g : list (string * list string)) (mk : marks) : Prop :=
  mk.2 ⊆ mk.1 /\ forall x, x ∈ mk.1 -> x ∉ mk.2 -> Acc (successor g) x.

Definition unvisited (g : list (string * list string)) (visited : gset string) : nat :=
  length (List.filter (fun k => bool_decide (k ∉ visited)) (Dict.keys g)).

(** *** The edges a graph stands for *)

Definition graph_edge (g : list (string * list string)) (a b : string) : Prop :=
  successor g b a.

(** The graph holds no neighbour that no edge accounts for. *)
Definition sound_graph (g : list (string * list string)) (edges : list Edge) : Prop :=
  forall a ns b, Dict.get a g = Some ns -> b ∈ ns -> edge_of edges a b.

(** *** The execution graph and its scheduling ([_build_execution_graph]
        and [_execute_visual_nodes], lines 914-984) *)

(** An entry of the execution graph.  Its ["status"], which the execution
    of a node writes and the scheduling never reads, is left out. *)
Record node_info : Type := {
  info_node : Node;
  dependencies : list string;
  dependents : list string;
  executed : bool
}.

Definition execution_graph : Type := list (string * node_info).

Definition new_entry (node : Node) : node_info :=
  {| info_node := node; dependencies := []; dependents := []; executed := false |}.

Definition add_dependent (id : string) (i : node_info) : node_info :=
  {| info_node := info_node i; dependencies := dependencies i;
     dependents := (dependents i ++ [id])%list; executed := executed i |}.

Definition add_dependency (id : string) (i : node_info) : node_info :=
  {| info_node := info_node i; dependencies := (dependencies i ++ [id])%list;
     dependents := dependents i; executed := executed i |}.

Definition set_executed (i : node_info) : node_info :=
  {| info_node := info_node i; dependencies := dependencies i;
     dependents := dependents i; executed := true |}.

(** A write to a field of [graph[k]]. *)
Definition update_entry (k : string) (f : node_info -> node_info) (g : execution_graph)
  : result execution_graph :=
  match Dict.get k g with
  | Some i => Ok (Dict.set k (f i) g)
  | None => Orchestrator.key_error k
  end.

(** The body of the loop [for edge in edges]. *)
Definition add_execution_edge (g : execution_graph) (edge : Edge)
  : result execution_graph :=
  if Dict.mem (source edge) g && Dict.mem (target edge) g
  then rbind (update_entry (source edge) (add_dependent (target edge)) g)
             (update_entry (target edge) (add_dependency (source edge)))
  else Ok g.

Definition _build_execution_graph (nodes : list Node) (edges : list Edge)
  : result execution_graph :=
  fold_left (fun acc edge => rbind acc (fun g => add_execution_edge g edge))
            edges
            (Ok (fold_left (fun g node => Dict.set (node_id node) (new_entry node) g)
                           nodes [])).

(** The first list of ready nodes: no dependency, and not executed. *)
Definition first_ready (g : execution_graph) : list string :=
  map fst
      (List.filter (fun kv => match dependencies kv.2 with
                              | [] => negb (executed kv.2)
                              | _ :: _ => false
                              end) g).

(** [all(execution_graph[dep]["executed"] for dep in deps)]. *)
Fixpoint all_executed (g : execution_graph) (deps : list string) : result bool :=
  match deps with
  | [] => Ok true
  | dep :: rest =>
      match Dict.get dep g with
      | Some i => if executed i then all_executed g rest else Ok false
      | None => Orchestrator.key_error dep
      end
  end.

(** The next list of ready nodes, over the entries of the graph: not
    executed, and every dependency executed. *)
Fixpoint next_ready (g entries : execution_graph) : result (list string) :=
  match entries with
  | [] => Ok []
  | (k, i) :: rest =>
      rbind (if executed i then Ok false else all_executed g (dependencies i))
        (fun ready =>
           rbind (next_ready g rest) (fun ids =>
           Ok (if ready then k :: ids else ids)))
  end.

(** [for node_id in ready_nodes: execution_graph[node_id]["executed"] = True]. *)
Definition mark_executed (ready : list string) (g : execution_graph)
  : result execution_graph :=
  fold_left (fun acc k => rbind acc (update_entry k set_executed)) ready (Ok g).

(** The loop [while ready_nodes] of [_execute_visual_nodes]: the lists of
    ready nodes it goes through, one per round, and the graph at its end.
    The nodes of a round are executed by tasks whose exceptions [gather]
    collects and which write neither the dependencies nor [executed]; what
    they do is left out.  [rounds] bounds the number of rounds, and [None]
    says that it was not enough. *)
Fixpoint run_rounds (rounds : nat) (ready : list string) (g : execution_graph)
  : option (result (list (list string) * execution_graph)) :=
  match ready with
  | [] => Some (Ok ([], g))
  | _ :: _ =>
      match rounds with
      | O => None
      | S rounds' =>
          match rbind (mark_executed ready g) (fun g' =>
                rbind (next_ready g' g') (fun ready' => Ok (g', ready'))) with
          | Raise e => Some (Raise e)
          | Ok (g', ready') =>
              match run_rounds rounds' ready' g' with
              | Some (Ok (waves, g'')) => Some (Ok (ready :: waves, g''))
              | other => other
              end
          end
      end
  end.

Definition _execute_visual_nodes (rounds : nat) (g : execution_graph)
  : option (result (list (list string) * execution_graph)) :=
  run_rounds rounds (first_ready g) g.

(** [_build_execution_graph] followed by [_execute_visual_nodes], as in
    [_execute_visual_workflow_async]. *)
Definition schedule (rounds : nat) (nodes : list Node) (edges : list Edge)
  : option (result (list (list string) * execution_graph)) :=
  match _build_execution_graph nodes edges with
  | Ok g => _execute_visual_nodes rounds g
  | Raise e => Some (Raise e)
  end.

(** Notions for the analysis of the scheduling.  The ids a node waits for,
    read off the edges; membership as a boolean; the nodes that are ready
    once the nodes of [done] have been executed. *)
Definition waits_for (nodes : list Node) (edges : list Edge) (k : string) : list string :=
  map source
      (List.filter (fun e => valid_edge nodes e && String.eqb (target e) k) edges).

Definition inb (k : string) (l : list string) : bool := bool_decide (k ∈ l).

Definition ready_after (deps : string -> list string) (keys done : list string)
  : list string :=
  List.filter (fun k => negb (inb k done) && forallb (fun d => inb d done) (deps k)) keys.

Fixpoint scheduled (deps : string -> list string) (keys done : list string)
         (waves : list (list string)) : Prop :=
  match waves with
  | [] => True
  | wave :: rest =>
      wave = ready_after deps keys done /\ wave <> []
      /\ scheduled deps keys (done ++ wave)%list rest
  end.

(** The graph [g] is the one built, with the nodes of [done] executed. *)
Definition tracks (deps : string -> list string) (keys done : list string)
           (g : execution_graph) : Prop :=
  Dict.keys g = keys
  /\ forall k i, Dict.get k g = Some i ->
                 dependencies i = deps k /\ executed i = inb k done.

(** *** The JSON transforms of a visual node ([_extract_json_path] and
        [_flatten_json], lines 1509-1548) *)

(** [path.split(".")]. *)
Fixpoint split_dot (s : string) : list string :=
  match s with
  | EmptyString => [EmptyString]
  | String c s' =>
      if Ascii.eqb c "." then EmptyString :: split_dot s'
      else match split_dot s' with
           | [] => [String c EmptyString]
           | w :: ws => String c w :: ws
           end
  end.

(** The loop [for key in keys] of [_extract_json_path]. *)
Fixpoint follow (keys : list string) (result : value) : value :=
  match keys with
  | [] => result
  | key :: rest =>
      match result with
      | VDict entries =>
          match Dict.get key entries with
          | Some v => follow rest v
          | None => VNone
          end
      | _ => VNone
      end
  end.

Definition _extract_json_path (data : value) (path : string) : value :=
  if String.eqb path "" then data else follow (split_dot path) data.

(** [_flatten_json]; [depth] is the nesting the interpreter still allows.
    Whatever its body raises, the function answers [{prefix: data}]. *)
Fixpoint _flatten_json (depth : nat) (data : value) (prefix : string) : result dict :=
  match depth with
  | O => Raise (Exn "RecursionError" "maximum recursion depth exceeded")
  | S depth' =>
      try_except
        (match data with
         | VDict entries =>
             fold_left
               (fun acc kv =>
                  rbind acc (fun result =>
                  let new_key := if String.eqb prefix "" then kv.1
                                 else prefix +:+ "." +:+ kv.1 in
                  rbind (_flatten_json depth' kv.2 new_key) (fun flat =>
                  Ok (Audit.update result flat))))
               entries (Ok [])
         | VList items =>
             fold_left
               (fun acc iv =>
                  rbind acc (fun result =>
                  let new_key := if String.eqb prefix "" then "[" +:+ pretty iv.1 +:+ "]"
                                 else prefix +:+ "[" +:+ pretty iv.1 +:+ "]" in
                  rbind (_flatten_json depth' iv.2 new_key) (fun flat =>
                  Ok (Audit.update result flat))))
               (combine (seq 0 (length items)) items) (Ok [])
         | _ => Ok (Dict.set prefix data [])
         end)
        (fun _ => Ok (Dict.set prefix data []))
  end.

(** Notions for the round trip.  A key that a path can name: not empty and
    without a dot.  A tree: dictionaries, with keys of that kind and no key
    twice, down to values that are neither dictionaries nor lists. *)
Fixpoint dotless (s : string) : bool :=
  match s with
  | EmptyString => true
  | String c s' => negb (Ascii.eqb c ".") && dotless s'
  end.

Definition plain_key (k : string) : bool := negb (String.eqb k "") && dotless k.

Fixpoint tree (v : value) : bool :=
  match v with
  | VDict entries =>
      bool_decide (NoDup (map fst entries))
      && forallb (fun kv => plain_key kv.1 && tree kv.2) entries
  | VList _ => false
  | _ => true
  end.

(** The nesting of a value: the depth [_flatten_json] needs for it is one
    more. *)
Fixpoint height (v : value) : nat :=
  match v with
  | VDict entries => S (list_max (map (fun kv => height kv.2) entries))
  | VList items => S (list_max (map height items))
  | _ => O
  end.

End Visual.

(** ** Concrete inputs used by the examples of Part II *)

Module Scenarios.

(** *** Fanout bus: two chat windows, and a world in which writing to the
        first transport raises *)

Definition world_at (t : N) (broken : list nat) : WS.world :=
  {| WS.send_raises := fun h => existsb (Nat.eqb h) broken;
     WS.close_raises := fun _ => false;
     WS.now := t |}.

Definition two_chat_windows : WS.manager :=
  WS.run [ (world_at 1000000 [], WS.Connect 1 WS.CHAT (Some "ann") None);
           (world_at 2000000 [], WS.Connect 2 WS.CHAT (Some "bob") None) ]
         WS.init.

Definition alert : WS.WebSocketMessage :=
  {| WS.message_type := WS.ALERT; WS.window_type := WS.CHAT;
     WS.timestamp := 3000000%N; WS.data := [("text", VStr "disk full")];
     WS.user_id := None; WS.session_id := None |}.


Definition kinds (m : WS.manager) : list (nat * WS.MessageType) :=
  map (fun hm => (fst hm, WS.message_type (snd hm))) (WS.wire m).

(** *** Audit: a secret below a list of lists *)

Definition nested_list_meta : dict :=
  [ ("batch", VList [ VList [ VDict [("password", VStr "hunter2")] ] ]);
    ("note", VStr "ok") ].

Definition flat_list_meta : dict :=
  [ ("batch", VList [ VDict [("password", VStr "hunter2")] ]);
    ("note", VStr "ok") ].

(** *** Brain: the local provider serves [llama2]; the remote one is not
        configured *)

Definition local_client : Brain.MacLinkClient :=
  {| Brain.available_models :=
       [("llama2", {| Brain.model_name := "llama2"; Brain.status := "ready" |})];
     Brain.max_retries := 3;
     Brain._make_inference_request :=
       fun _ q => Brain.Reply ("echo: " +:+ Brain.mq_prompt q) 7 |}.

Definition local_only : Brain.brain := Brain.new_brain None (Some local_client).

Definition remote_request : Brain.BrainRequest :=
  {| Brain.prompt := "hello"; Brain.agent_id := "agent-1"; Brain.persona := None;
     Brain.provider := Some Brain.OPENAI; Brain.model := None;
     Brain.conversation_history := [] |}.

Definition remote_request_naming_llama2 : Brain.BrainRequest :=
  {| Brain.prompt := "hello"; Brain.agent_id := "agent-1"; Brain.persona := None;
     Brain.provider := Some Brain.OPENAI; Brain.model := Some "llama2";
     Brain.conversation_history := [] |}.

(** Ten exchanges with the local provider fill the history of an agent. *)
Definition ask (n : nat) : Brain.store_op :=
  Brain.Complete
    {| Brain.prompt := "q" +:+ pretty n; Brain.agent_id := "agent-1";
       Brain.persona := None; Brain.provider := None; Brain.model := Some "llama2";
       Brain.conversation_history := [] |}.

Definition ten_exchanges : Brain.brain :=
  fold_left (fun b o => Brain.store_step o b) (map ask (seq 0 10)) local_only.

(** *** Orchestrator *)

Definition offline : string -> value -> dict -> result value :=
  fun _ _ _ => Raise (Exn "ConnectionError" "offline").

(** A loop over two addresses whose body is the step [notify]; [notify] is
    also a step of the workflow, so that a step context exists for it. *)
Definition notify : value :=
  VDict [ ("id", VStr "notify"); ("type", VStr "email");
          ("config", VDict [ ("to", VStr "${loop_item}");
                             ("subject", VStr "news"); ("body", VStr "...") ]);
          ("output_variable", VStr "last") ].

Definition each : value :=
  VDict [ ("id", VStr "each"); ("type", VStr "loop");
          ("config", VDict [ ("items", VList [VStr "ann@x.org"; VStr "bob@x.org"]);
                             ("steps", VList [notify]) ]) ].

Definition loop_workflow : value :=
  VDict [ ("type", VStr "sequential"); ("steps", VList [each; notify]) ].

Definition loop_run : result unit * Orchestrator.state :=
  Orchestrator._execute_workflow_async
    PyEval.eval offline (fun _ => false) Orchestrator.recursion_limit
    (Orchestrator.start (Orchestrator.new_context "e-1" "w-1" loop_workflow [])).




(** *** Visual workflows: a pipeline and a ring *)

Definition transform_node (id : string) : Visual.Node :=
  {| Visual.node_id := id; Visual.node_type := Some "transform" |}.

Definition pipeline_nodes : list Visual.Node :=
  [transform_node "a"; transform_node "b"; transform_node "c"].

Definition pipeline_edges : list Visual.Edge :=
  [ {| Visual.source := "a"; Visual.target := "b" |};
    {| Visual.source := "b"; Visual.target := "c" |};
    {| Visual.source := "a"; Visual.target := "c" |} ].

Definition ring_edges : list Visual.Edge :=
  [ {| Visual.source := "a"; Visual.target := "b" |};
    {| Visual.source := "b"; Visual.target := "c" |};
    {| Visual.source := "c"; Visual.target := "a" |} ].

Definition statuses (st : Orchestrator.state)
  : list (string * Orchestrator.StepStatus * value) :=
  map (fun kv => (fst kv, Orchestrator.step_status (snd kv),
                  Orchestrator.step_results (snd kv)))
      (Orchestrator.step_contexts (Orchestrator.context st)).




(** A nested record, as the content of a JSON transform. *)
Definition profile : value :=
  VDict [ ("user", VDict [ ("name", VStr "Ada"); ("id", VInt 7) ]);
          ("active", VBool true) ].

End Scenarios.

(* ===================================================================== *)
(** * Part II: properties                                                 *)
(* ===================================================================== *)


#[local] Arguments String.append : simpl nomatch.

(** ** Strings *)

Module StrFacts.
Lemma app_nil_r (s : string) : s +:+ "" = s.
Proof. induction s as [|c s IH]; simpl; [reflexivity | now rewrite IH]. Qed.

Lemma app_assoc (a b c : string) : (a +:+ b) +:+ c = a +:+ (b +:+ c).
Proof. induction a as [|x a IH]; simpl; [reflexivity | now rewrite IH]. Qed.

Lemma prefix_cons (a b : ascii) (s t : string) :
  String.prefix (String a s) (String b t)
  = if Ascii.eqb a b then String.prefix s t else false.
Proof.
  cbn [String.prefix].
  destruct (ascii_dec a b) as [->|Hne].
  - now rewrite Ascii.eqb_refl.
  - destruct (Ascii.eqb_spec a b); [contradiction | reflexivity].
Qed.

Lemma replace_scan_cons (old new : string) (c : ascii) (s : string) :
  Str.replace_scan old new 0 (String c s)
  = if String.prefix old (String c s)
    then new +:+ Str.replace_scan old new (String.length old - 1) s
    else String c (Str.replace_scan old new 0 s).
Proof. reflexivity. Qed.

(** Characters that are passed over leave no trace. *)
Lemma replace_scan_skip (old new p s : string) :
  Str.replace_scan old new (String.length p) (p +:+ s)
  = Str.replace_scan old new 0 s.
Proof.
  induction p as [|c p IH]; cbn [String.length String.append].
  - destruct s; reflexivity.
  - cbn [Str.replace_scan]. exact IH.
Qed.

(** A pattern that starts with [$] matches nowhere inside text without
    [$]: the scan copies such text. *)
Lemma replace_scan_copy (old' new p s : string) :
  Template.lacks "$" p = true ->
  Str.replace_scan (String "$" old') new 0 (p +:+ s)
  = p +:+ Str.replace_scan (String "$" old') new 0 s.
Proof.
  induction p as [|c p IH]; cbn [Template.lacks String.append]; intros Hp;
    [reflexivity|].
  apply andb_prop in Hp as [Hc Hp].
  rewrite replace_scan_cons, prefix_cons.
  rewrite Ascii.eqb_sym.
  destruct (Ascii.eqb c "$"); [discriminate|].
  now rewrite (IH Hp).
Qed.

(** Between names without [}], [key}] is a prefix of [name}...] only when
    the names are equal. *)
Lemma prefix_closing (key name rest : string) :
  Template.lacks "}" key = true ->
  Template.lacks "}" name = true ->
  String.prefix (key +:+ "}") (name +:+ "}" +:+ rest) = String.eqb name key.
Proof.
  revert name.
  induction key as [|c key IH]; intros name Hk Hn.
  - destruct name as [|d name]; cbn [String.append].
    + rewrite prefix_cons, Ascii.eqb_refl. now destruct rest.
    + cbn [Template.lacks] in Hn. apply andb_prop in Hn as [Hd _].
      rewrite prefix_cons. rewrite Ascii.eqb_sym.
      destruct (Ascii.eqb d "}"); [discriminate | reflexivity].
  - cbn [Template.lacks] in Hk. apply andb_prop in Hk as [Hc Hk].
    destruct name as [|d name]; cbn [String.append].
    + rewrite prefix_cons. destruct (Ascii.eqb c "}"); [discriminate | reflexivity].
    + cbn [Template.lacks] in Hn. apply andb_prop in Hn as [_ Hn].
      rewrite prefix_cons. cbn [String.eqb]. rewrite (Ascii.eqb_sym d c).
      destruct (Ascii.eqb c d); [now apply IH | reflexivity].
Qed.

End StrFacts.

(** ** Interpolation *)

Module InterpolationFacts.
Import Template.

Lemma placeholder_eq (key : string) :
  placeholder key = String "$" (String "{" (key +:+ "}")).
Proof. reflexivity. Qed.

Lemma lacks_app (c : ascii) (a b : string) :
  lacks c (a +:+ b) = lacks c a && lacks c b.
Proof.
  induction a as [|x a IH]; cbn [lacks String.append]; [reflexivity|].
  rewrite IH. now rewrite andb_assoc.
Qed.

Lemma render_cons (seg : segment) (segs : list segment) :
  render (seg :: segs) = render_segment seg +:+ render segs.
Proof. reflexivity. Qed.

(** One round of [str.replace] on a plain template acts on its segments. *)
Lemma replace_round (key text : string) (segs : list segment) :
  plain_template segs = true ->
  lacks "}" key = true ->
  Str.replace (placeholder key) text (render segs)
  = render (map (subst key text) segs).
Proof.
  intros Hsegs Hkey. rewrite placeholder_eq. cbn [Str.replace].
  induction segs as [|seg segs IH]; [reflexivity|].
  cbn [plain_template forallb] in Hsegs. apply andb_prop in Hsegs as [Hseg Hsegs].
  specialize (IH Hsegs).
  cbn [map]. rewrite !render_cons.
  destruct seg as [t|name]; cbn [render_segment subst plain_segment] in *.
  - rewrite StrFacts.replace_scan_copy by exact Hseg. now rewrite IH.
  - apply andb_prop in Hseg as [Hdollar Hclose].
    rewrite placeholder_eq. cbn [String.append].
    rewrite StrFacts.replace_scan_cons, !StrFacts.prefix_cons, !Ascii.eqb_refl.
    rewrite StrFacts.app_assoc.
    rewrite StrFacts.prefix_closing by assumption.
    destruct (String.eqb_spec name key) as [->|Hne].
    + cbn [render_segment].
      change (String.length (String "$" (String "{" (key +:+ "}"))) - 1)%nat
        with (String.length (String "{" (key +:+ "}"))).
      set (rest := render segs) in *.
      assert (E : String "{" (key +:+ "}" +:+ rest)
                  = String "{" (key +:+ "}") +:+ rest)
        by (cbn [String.append]; now rewrite StrFacts.app_assoc).
      rewrite E, StrFacts.replace_scan_skip. now rewrite IH.
    + cbn [render_segment]. rewrite placeholder_eq. cbn [String.append].
      f_equal.
      set (rest := render segs) in *.
      assert (E : String "{" (name +:+ String "}" rest)
                  = String "{" (name +:+ "}") +:+ rest)
        by (cbn [String.append]; now rewrite StrFacts.app_assoc).
      rewrite E, StrFacts.replace_scan_copy.
      * now rewrite IH.
      * cbn [lacks]. rewrite lacks_app, Hdollar. reflexivity.
Qed.

Lemma subst_plain (key text : string) (segs : list segment) :
  plain_template segs = true ->
  lacks "$" text = true ->
  plain_template (map (subst key text) segs) = true.
Proof.
  intros Hsegs Htext. unfold plain_template in *.
  rewrite forallb_forall in *. intros seg Hin.
  apply in_map_iff in Hin as (seg0 & <- & Hin0).
  specialize (Hsegs seg0 Hin0).
  destruct seg0 as [t|name]; cbn [subst]; [exact Hsegs|].
  destruct (String.eqb name key); [exact Htext | exact Hsegs].
Qed.

Lemma fill_subst (key : string) (v : value) (variables : dict) (seg : segment) :
  fill variables (subst key (Py.str v) seg) = fill ((key, v) :: variables) seg.
Proof.
  destruct seg as [t|name]; cbn [subst fill Dict.get]; [reflexivity|].
  destruct (String.eqb name key); reflexivity.
Qed.

(** The rounds of [_interpolate_variables] on a plain template, in a plain
    scope: every segment is filled from the scope. *)
Lemma interpolate_rounds (variables : dict) (segs : list segment) :
  plain_template segs = true ->
  plain_scope variables = true ->
  fold_left (fun t kv => Str.replace (placeholder (fst kv)) (Py.str (snd kv)) t)
            variables (render segs)
  = join (map (fill variables) segs).
Proof.
  revert segs.
  induction variables as [|[key v] variables IH]; intros segs Hsegs Hscope.
  - cbn [fold_left]. unfold render. f_equal; apply map_ext; now intros [t|name].
  - cbn [plain_scope forallb fst snd] in Hscope.
    apply andb_prop in Hscope as [Hkv Hscope]. apply andb_prop in Hkv as [Hkey Hv].
    cbn [fold_left fst snd].
    rewrite replace_round by assumption.
    rewrite IH; [| now apply subst_plain | exact Hscope].
    rewrite map_map. f_equal. apply map_ext. intros seg. apply fill_subst.
Qed.

(** What the claim promises for an unbound name, and for a value that
    itself holds a placeholder, is not what the rounds compute. *)
Lemma interpolation_keeps_unbound_names :
  _interpolate_variables (VStr "Hello ${name}") [] = VStr "Hello ${name}"
  /\ _interpolate_variables (VStr "Hello ${name}") [] <> VStr "Hello "
  /\ _interpolate_variables (VStr "${a}") [("a", VStr "${b}"); ("b", VStr "X")]
     = VStr "X"
  /\ _interpolate_variables (VStr "${a}") [("a", VStr "${b}"); ("b", VStr "X")]
     <> VStr (Py.str (VStr "${b}")).
Proof. repeat split; try reflexivity; vm_compute; discriminate. Qed.

(** C5 (amended).  On a template made of literal text without [$] and of
    placeholders [${NAME}] whose names have neither [$] nor [}], in a scope
    whose keys have no [}] and whose values have no [$] in their string
    form, interpolation replaces every placeholder bound in the scope by
    the string form of its value and leaves every unbound placeholder as
    it is.  On a mapping and on a sequence it works value by value and
    element by element; any other value is returned unchanged. *)
Theorem interpolation_fills_plain_templates
        (segs : list segment) (variables : dict)
        (entries : dict) (items : list value) (other : value) :
  plain_template segs = true ->
  plain_scope variables = true ->
  _interpolate_variables (VStr (render segs)) variables
  = VStr (join (map (fill variables) segs))
  /\ _interpolate_variables (VDict entries) variables
     = VDict (map (fun kv => (fst kv, _interpolate_variables (snd kv) variables))
                  entries)
  /\ _interpolate_variables (VList items) variables
     = VList (map (fun item => _interpolate_variables item variables) items)
  /\ match other with
     | VStr _ | VDict _ | VList _ => True
     | _ => _interpolate_variables other variables = other
     end.
Proof.
  intros Hsegs Hscope. repeat split.
  - cbn [_interpolate_variables]. f_equal. now apply interpolate_rounds.
  - now destruct other.
Qed.

Lemma interpolation_fills_plain_templates_witness :
  _interpolate_variables
    (VStr (render [Lit "Hello "; Hole "name"; Lit ", see "; Hole "ticket"]))
    [("name", VStr "Ada"); ("count", VInt 3)]
  = VStr "Hello Ada, see ${ticket}".
Proof.
  exact (proj1 (interpolation_fills_plain_templates
                  [Lit "Hello "; Hole "name"; Lit ", see "; Hole "ticket"]
                  [("name", VStr "Ada"); ("count", VInt 3)]
                  [] [] VNone eq_refl eq_refl)).
Defined.

End InterpolationFacts.

(** ** Condition evaluation *)

Module ConditionFacts.

Section AnyEvaluator.

Variable py_eval : string -> list (string * binding) -> result value.




End AnyEvaluator.


End ConditionFacts.

(** ** Ordered dictionaries *)

Module DictFacts.

Section Facts.

Context {V : Type}.
Implicit Types (d : list (string * V)) (k : string) (v : V).

Lemma get_Some_keys d k v : Dict.get k d = Some v -> k ∈ Dict.keys d.
Proof.
  induction d as [|[k' v'] d IH]; cbn [Dict.get Dict.keys map fst]; [discriminate|].
  destruct (String.eqb_spec k k') as [->|Hne]; intros H.
  - apply list_elem_of_here.
  - apply list_elem_of_further. now apply IH.
Qed.

Lemma get_None_keys d k : Dict.get k d = None <-> k ∉ Dict.keys d.
Proof.
  induction d as [|[k' v'] d IH]; cbn [Dict.get Dict.keys map fst].
  - split; [intros _; apply not_elem_of_nil | reflexivity].
  - rewrite not_elem_of_cons.
    destruct (String.eqb_spec k k') as [->|Hne].
    + split; [discriminate | now intros [? _]].
    + rewrite IH. tauto.
Qed.

Lemma keys_get d k : k ∈ Dict.keys d -> exists v, Dict.get k d = Some v.
Proof.
  intros Hin. destruct (Dict.get k d) as [v|] eqn:E; [eauto|].
  now apply get_None_keys in E.
Qed.

Lemma get_set_eq d k v : Dict.get k (Dict.set k v d) = Some v.
Proof.
  induction d as [|[k' v'] d IH]; cbn [Dict.set Dict.get].
  - now rewrite String.eqb_refl.
  - destruct (String.eqb_spec k k') as [->|Hne]; cbn [Dict.get].
    + now rewrite String.eqb_refl.
    + destruct (String.eqb_spec k k'); [contradiction | exact IH].
Qed.

Lemma get_set_ne d k k' v : k <> k' -> Dict.get k' (Dict.set k v d) = Dict.get k' d.
Proof.
  intros Hne.
  induction d as [|[k0 v0] d IH]; cbn [Dict.set Dict.get].
  - destruct (String.eqb_spec k' k); [congruence | reflexivity].
  - destruct (String.eqb_spec k k0) as [->|Hne0]; cbn [Dict.get].
    + destruct (String.eqb_spec k' k0); [congruence | reflexivity].
    + now rewrite IH.
Qed.

Lemma keys_set_present d k v :
  k ∈ Dict.keys d -> Dict.keys (Dict.set k v d) = Dict.keys d.
Proof.
  induction d as [|[k' v'] d IH]; cbn [Dict.set Dict.keys map fst].
  - intros H. now apply elem_of_nil in H.
  - intros H. destruct (String.eqb_spec k k') as [->|Hne]; [reflexivity|].
    cbn [map fst]. f_equal. apply IH.
    apply elem_of_cons in H as [?|?]; [contradiction | assumption].
Qed.

Lemma keys_set_absent d k v :
  k ∉ Dict.keys d -> Dict.keys (Dict.set k v d) = (Dict.keys d ++ [k])%list.
Proof.
  induction d as [|[k' v'] d IH]; cbn [Dict.set Dict.keys map fst]; [reflexivity|].
  intros H. apply not_elem_of_cons in H as [Hne H].
  destruct (String.eqb_spec k k'); [contradiction|].
  cbn [map fst app]. f_equal. now apply IH.
Qed.

Lemma keys_del d k :
  NoDup (Dict.keys d) ->
  NoDup (Dict.keys (Dict.del k d))
  /\ forall k', k' ∈ Dict.keys (Dict.del k d) <-> k' ∈ Dict.keys d /\ k' <> k.
Proof.
  induction d as [|[k0 v0] d IH]; cbn [Dict.del Dict.keys map fst]; intros Hnd.
  - split; [constructor|]. intros k'. rewrite elem_of_nil. tauto.
  - apply NoDup_cons in Hnd as [Hk0 Hnd].
    destruct (IH Hnd) as [IHnd IHin].
    destruct (String.eqb_spec k k0) as [->|Hne].
    + split; [exact Hnd|]. intros k'. rewrite elem_of_cons.
      split.
      * intros H. split; [now right|]. now intros ->.
      * intros [[->|H] Hne']; [contradiction | exact H].
    + cbn [map fst]. split.
      * apply NoDup_cons. split; [|exact IHnd].
        rewrite IHin. tauto.
      * intros k'. rewrite !elem_of_cons, IHin.
        split; [intros [->|[H1 H2]]; split; auto | intros [[->|H1] H2]; auto].
Qed.

Lemma get_del_ne d k k' : k <> k' -> Dict.get k' (Dict.del k d) = Dict.get k' d.
Proof.
  intros Hne.
  induction d as [|[k0 v0] d IH]; cbn [Dict.del Dict.get]; [reflexivity|].
  destruct (String.eqb_spec k k0) as [->|Hne0]; cbn [Dict.get].
  - destruct (String.eqb_spec k' k0); [congruence | reflexivity].
  - now rewrite IH.
Qed.

Lemma get_del_eq d k : NoDup (Dict.keys d) -> Dict.get k (Dict.del k d) = None.
Proof.
  intros Hnd. apply get_None_keys.
  destruct (keys_del d k Hnd) as [_ Hin]. rewrite Hin. tauto.
Qed.

Lemma keys_set_NoDup d k v :
  NoDup (Dict.keys d) -> NoDup (Dict.keys (Dict.set k v d)).
Proof.
  intros Hnd. destruct (decide (k ∈ Dict.keys d)) as [Hin|Hout].
  - now rewrite keys_set_present.
  - rewrite keys_set_absent by assumption.
    apply NoDup_app. split; [exact Hnd|]. split.
    + intros x Hx Hx'. apply list_elem_of_singleton in Hx' as ->. contradiction.
    + apply NoDup_singleton.
Qed.

End Facts.

End DictFacts.

(** ** The fanout bus *)

Module FanoutFacts.
Import WS.

Lemma window_eqb_spec (a b : WindowType) : reflect (a = b) (window_eqb a b).
Proof. destruct a, b; constructor; congruence. Qed.

Lemma set_bucket_same w ids buckets : set_bucket w ids buckets w = ids.
Proof. unfold set_bucket. now destruct (window_eqb_spec w w). Qed.

Lemma set_bucket_other w w' ids buckets :
  w <> w' -> set_bucket w ids buckets w' = buckets w'.
Proof. intros Hne. unfold set_bucket. now destruct (window_eqb_spec w w'). Qed.

Lemma in_list_spec (x : string) (l : list string) : in_list x l = true <-> x ∈ l.
Proof.
  unfold in_list. rewrite existsb_exists. split.
  - intros (y & Hin & Heq). apply String.eqb_eq in Heq as ->.
    now apply list_elem_of_In.
  - intros Hin. exists x. split; [now apply list_elem_of_In | apply String.eqb_refl].
Qed.

Lemma remove_first_spec (x : string) (l : list string) :
  NoDup l ->
  NoDup (remove_first x l)
  /\ forall y, y ∈ remove_first x l <-> y ∈ l /\ y <> x.
Proof.
  induction l as [|z l IH]; cbn [remove_first]; intros Hnd.
  - split; [constructor|]. intros y. rewrite elem_of_nil. tauto.
  - apply NoDup_cons in Hnd as [Hz Hnd]. destruct (IH Hnd) as [IHnd IHin].
    destruct (String.eqb_spec x z) as [->|Hne].
    + split; [exact Hnd|]. intros y. rewrite elem_of_cons. split.
      * intros H. split; [now right|]. now intros ->.
      * intros [[->|H] Hy]; [contradiction | exact H].
    + split.
      * apply NoDup_cons. split; [|exact IHnd]. rewrite IHin. tauto.
      * intros y. rewrite !elem_of_cons, IHin.
        split; [intros [->|[H1 H2]]; split; auto | intros [[->|H1] H2]; auto].
Qed.

(** *** Every operation keeps the registries in agreement *)

Lemma disconnect_consistent env connection_id m :
  consistent m -> consistent (disconnect env connection_id m).
Proof.
  intros (Hkeys & Hbuckets & Hactive & Hbucket). unfold disconnect.
  destruct (Dict.get connection_id (active_connections m)) as [c|] eqn:Hget;
    [|now repeat split].
  set (w := conn_window_type c).
  assert (Hin : connection_id ∈ window_connections m w) by now apply Hactive.
  apply in_list_spec in Hin as Hin'. rewrite Hin'.
  destruct (remove_first_spec connection_id _ (Hbuckets w)) as [Hnd Hrm].
  destruct (DictFacts.keys_del (active_connections m) connection_id Hkeys)
    as [Hnd' Hdel].
  unfold consistent. cbn [active_connections window_connections].
  split; [exact Hnd'|]. split; [|split].
  - intros w'. destruct (decide (w = w')) as [E|Hne].
    + subst w'. now rewrite set_bucket_same.
    + rewrite set_bucket_other by assumption. apply Hbuckets.
  - intros id c' Hc'.
    assert (Hne : id <> connection_id).
    { intros ->. rewrite DictFacts.get_del_eq in Hc' by assumption. discriminate. }
    rewrite DictFacts.get_del_ne in Hc' by congruence.
    specialize (Hactive id c' Hc').
    destruct (decide (w = conn_window_type c')) as [E|Hw].
    + rewrite <- E in *. rewrite set_bucket_same. apply Hrm. now split.
    + now rewrite set_bucket_other.
  - intros id w' Hid.
    destruct (decide (w = w')) as [E|Hw].
    + subst w'. rewrite set_bucket_same in Hid. apply Hrm in Hid as [Hid Hne].
      destruct (Hbucket id w Hid) as (c' & Hc' & Hwc').
      exists c'. split; [|exact Hwc'].
      rewrite DictFacts.get_del_ne by congruence. exact Hc'.
    + rewrite set_bucket_other in Hid by assumption.
      destruct (Hbucket id w' Hid) as (c' & Hc' & Hwc').
      exists c'. split; [|exact Hwc'].
      rewrite DictFacts.get_del_ne; [exact Hc'|].
      intros <-. rewrite Hget in Hc'. injection Hc' as <-. now apply Hw.
Qed.

Lemma send_message_consistent env connection_id message m :
  consistent m -> consistent (send_message env connection_id message m).
Proof.
  intros Hm. unfold send_message.
  destruct (Dict.get connection_id (active_connections m)) as [c|] eqn:Hget;
    [|exact Hm].
  destruct (send_raises env (websocket c)); [now apply disconnect_consistent|].
  destruct Hm as (Hkeys & Hbuckets & Hactive & Hbucket).
  unfold consistent. cbn [active_connections window_connections].
  split; [now apply DictFacts.keys_set_NoDup|]. split; [exact Hbuckets|]. split.
  - intros id c' Hc'. destruct (decide (connection_id = id)) as [<-|Hne].
    + rewrite DictFacts.get_set_eq in Hc'. injection Hc' as <-.
      cbn [touch conn_window_type]. now apply Hactive.
    + rewrite DictFacts.get_set_ne in Hc' by assumption. now apply Hactive.
  - intros id w Hid. destruct (Hbucket id w Hid) as (c' & Hc' & Hwc').
    destruct (decide (connection_id = id)) as [<-|Hne].
    + exists (touch (now env) c). rewrite DictFacts.get_set_eq. split; [reflexivity|].
      rewrite Hget in Hc'. injection Hc' as <-. exact Hwc'.
    + exists c'. now rewrite DictFacts.get_set_ne.
Qed.







(** The loop of [broadcast_to_window] has rounds enough: more rounds would
    change nothing. *)
Lemma send_message_bucket_length env connection_id message m w :
  consistent m ->
  (length (window_connections (send_message env connection_id message m) w)
   <= length (window_connections m w))%nat.
Proof.
  intros (Hkeys & Hbuckets & Hactive & Hbucket). unfold send_message.
  destruct (Dict.get connection_id (active_connections m)) as [c|] eqn:Hget;
    [|reflexivity].
  destruct (send_raises env (websocket c)); [|reflexivity].
  unfold disconnect. rewrite Hget.
  cbn [window_connections].
  destruct (in_list connection_id _) eqn:Hin; [|reflexivity].
  destruct (decide (conn_window_type c = w)) as [<-|Hne].
  - rewrite set_bucket_same.
    clear -Hin. induction (window_connections m (conn_window_type c)) as [|z l IH];
      cbn [remove_first length]; [lia|].
    destruct (String.eqb connection_id z) eqn:E; [lia|].
    cbn [in_list existsb] in Hin. unfold in_list in IH.
    rewrite E in Hin. cbn [orb] in Hin. specialize (IH Hin). cbn [length]. lia.
  - now rewrite set_bucket_other.
Qed.

Lemma broadcast_loop_completes env w message rounds index m extra :
  consistent m ->
  (length (window_connections m w) <= index + rounds)%nat ->
  broadcast_loop env w message (rounds + extra) index m
  = broadcast_loop env w message rounds index m.
Proof.
  revert index m. induction rounds as [|rounds IH]; intros index m Hm Hlen.
  - cbn [Nat.add broadcast_loop].
    destruct extra; cbn [broadcast_loop]; [reflexivity|].
    assert (E : nth_error (window_connections m w) index = None)
      by (apply nth_error_None; lia).
    now rewrite E.
  - cbn [broadcast_loop Nat.add].
    destruct (nth_error (window_connections m w) index) as [id|] eqn:E;
      [|reflexivity].
    pose proof (send_message_bucket_length env id message m w Hm) as Hshrink.
    apply IH; [now apply send_message_consistent | lia].
Qed.



(** C4.  Two chat windows are connected, and writing to the first raises
    during a broadcast to the chat window.  The first connection is
    disconnected, and the loop, which runs over the bucket it has just
    shortened, ends without a send to the second connection: no [ALERT]
    reaches any transport.  [broadcast_to_all], which runs over a copy,
    does deliver it to the second connection. *)
Theorem broadcast_to_window_skips_the_next_connection :
  let env := Scenarios.world_at 3000000 [1%nat] in
  let m := Scenarios.two_chat_windows in
  let m' := broadcast_to_window env CHAT Scenarios.alert m in
  window_connections m CHAT = ["chat_ann_None_1.0"; "chat_bob_None_2.0"]
  /\ Dict.keys (active_connections m') = ["chat_bob_None_2.0"]
  /\ window_connections m' CHAT = ["chat_bob_None_2.0"]
  /\ closed m' = [1%nat]
  /\ Scenarios.kinds m' = [(2%nat, WINDOW_OPEN); (1%nat, WINDOW_OPEN)]
  /\ Scenarios.kinds (broadcast_to_all env Scenarios.alert m)
     = [(2%nat, ALERT); (2%nat, WINDOW_OPEN); (1%nat, WINDOW_OPEN)].
Proof. repeat split; vm_compute; reflexivity. Qed.

(** *** The registries after each call *)

Section DictApp.

Context {V : Type}.
Implicit Types (d pre : list (string * V)) (k : string) (v : V).








End DictApp.



(** *** [disconnect] takes one id out of both registries *)








(** *** [broadcast_to_all] *)

Lemma omap_head {A B} (f : A -> option B) (x : A) (l : list A) :
  omap f (x :: l) = match f x with Some y => y :: omap f l | None => omap f l end.
Proof. reflexivity. Qed.




Lemma send_message_accepted env id message m :
  accepts env m id = true ->
  let m' := send_message env id message m in
  window_connections m' = window_connections m
  /\ closed m' = closed m
  /\ Dict.keys (active_connections m') = Dict.keys (active_connections m)
  /\ (forall id', transport m' id' = transport m id')
  /\ wire m' = (option_list ((fun h => (h, message)) <$> transport m id) ++ wire m)%list.
Proof.
  unfold accepts, transport, send_message. cbn zeta.
  destruct (Dict.get id (active_connections m)) as [c|] eqn:Hget.
  - intros Hok. apply negb_true_iff in Hok. rewrite Hok.
    cbn [window_connections closed active_connections wire].
    split; [reflexivity|]. split; [reflexivity|]. split; [|split; [|reflexivity]].
    + apply DictFacts.keys_set_present. now apply (DictFacts.get_Some_keys _ _ c).
    + intros id'. destruct (decide (id = id')) as [<-|Hne].
      * now rewrite DictFacts.get_set_eq, Hget.
      * now rewrite DictFacts.get_set_ne.
  - intros _. repeat split.
Qed.

Lemma accepts_transport env m id :
  accepts env m id
  = match transport m id with
    | Some h => negb (send_raises env h)
    | None => true
    end.
Proof.
  unfold accepts, transport. now destruct (Dict.get id (active_connections m)).
Qed.

Lemma omap_pointwise {A B} (f g : A -> option B) (l : list A) :
  (forall x, f x = g x) -> omap f l = omap g l.
Proof.
  intros E. induction l as [|x l IH]; [reflexivity|]. now rewrite !omap_head, E, IH.
Qed.

Lemma forallb_pointwise {A} (f g : A -> bool) (l : list A) :
  (forall x, f x = g x) -> forallb f l = forallb g l.
Proof.
  intros E. induction l as [|x l IH]; [reflexivity|]. cbn [forallb]. now rewrite E, IH.
Qed.

Lemma deliver_accepted env message (ids : list string) (m : manager) :
  forallb (accepts env m) ids = true ->
  let m' := fold_left (fun m' id => send_message env id message m') ids m in
  window_connections m' = window_connections m
  /\ closed m' = closed m
  /\ Dict.keys (active_connections m') = Dict.keys (active_connections m)
  /\ (forall id, transport m' id = transport m id)
  /\ wire m' = (rev (omap (fun id => (fun h => (h, message)) <$> transport m id) ids)
                  ++ wire m)%list.
Proof.
  revert m. induction ids as [|id ids IH]; intros m Hok.
  - repeat split.
  - cbn [forallb] in Hok. apply andb_prop in Hok as [Hid Hids].
    destruct (send_message_accepted env id message m Hid) as (Hb & Hc & Hk & Ht & Hw).
    destruct (IH (send_message env id message m)) as (Hb' & Hc' & Hk' & Ht' & Hw').
    { rewrite <- Hids. apply forallb_pointwise.
      intros x. now rewrite !accepts_transport, Ht. }
    cbn [fold_left]. cbn zeta in *.
    split; [congruence|]. split; [congruence|]. split; [congruence|].
    split; [intros x; now rewrite Ht', Ht|].
    rewrite Hw', Hw, omap_head.
    rewrite (omap_pointwise _ (fun id => (fun h => (h, message)) <$> transport m id));
      [|intros x; now rewrite Ht].
    destruct (transport m id) as [h|]; cbn [fmap option_fmap option_map option_list rev app].
    + now rewrite <- app_assoc.
    + reflexivity.
Qed.

(** The loop over the live bucket is a loop over its ids when no send
    changes the bucket. *)
Lemma broadcast_loop_accepted env w message (rest : list string) :
  forall index m,
    skipn index (window_connections m w) = rest ->
    forallb (accepts env m) rest = true ->
    broadcast_loop env w message (length rest) index m
    = fold_left (fun m' id => send_message env id message m') rest m.
Proof.
  induction rest as [|id rest IH]; intros index m Hskip Hok; [reflexivity|].
  cbn [length broadcast_loop fold_left].
  assert (Hnth : nth_error (window_connections m w) index = Some id).
  { rewrite <- (firstn_skipn index (window_connections m w)) at 1.
    rewrite Hskip.
    assert (Hlen : (index <= length (window_connections m w))%nat).
    { destruct (Nat.le_gt_cases index (length (window_connections m w))); [assumption|].
      rewrite skipn_all2 in Hskip by lia. discriminate. }
    rewrite nth_error_app2; rewrite length_firstn, Nat.min_l by assumption; [|lia].
    now rewrite Nat.sub_diag. }
  rewrite Hnth.
  cbn [forallb] in Hok. apply andb_prop in Hok as [Hid Hids].
  destruct (send_message_accepted env id message m Hid) as (Hb & _ & _ & Ht & _).
  apply IH.
  - cbn zeta in Hb. rewrite Hb.
    replace (S index) with (1 + index)%nat by reflexivity.
    rewrite <- skipn_skipn, Hskip. reflexivity.
  - rewrite <- Hids. apply forallb_pointwise.
    intros x. now rewrite !accepts_transport, Ht.
Qed.

(** X4.  When no transport of the window raises, [broadcast_to_window]
    writes the message once to every connection of the bucket, in the order
    of the bucket, and leaves both registries with the ids they had. *)
Theorem broadcast_to_window_reaches_the_whole_bucket
        (env : world) (w : WindowType) (message : WebSocketMessage) (m : manager) :
  forallb (accepts env m) (window_connections m w) = true ->
  let m' := broadcast_to_window env w message m in
  wire m'
  = (rev (omap (fun id => (fun h => (h, message)) <$> transport m id)
               (window_connections m w)) ++ wire m)%list
  /\ window_connections m' = window_connections m
  /\ Dict.keys (active_connections m') = Dict.keys (active_connections m)
  /\ closed m' = closed m.
Proof.
  intros Hok. cbn zeta. unfold broadcast_to_window.
  rewrite (broadcast_loop_accepted env w message (window_connections m w) 0 m eq_refl Hok).
  destruct (deliver_accepted env message (window_connections m w) m Hok)
    as (Hb & Hc & Hk & _ & Hw).
  auto.
Qed.

Lemma broadcast_to_window_reaches_the_whole_bucket_witness :
  Scenarios.kinds (broadcast_to_window (Scenarios.world_at 3000000 []) CHAT
                                       Scenarios.alert Scenarios.two_chat_windows)
  = [(2%nat, ALERT); (1%nat, ALERT); (2%nat, WINDOW_OPEN); (1%nat, WINDOW_OPEN)].
Proof.
  unfold Scenarios.kinds.
  rewrite (proj1 (broadcast_to_window_reaches_the_whole_bucket
                    (Scenarios.world_at 3000000 []) CHAT Scenarios.alert
                    Scenarios.two_chat_windows ltac:(vm_compute; reflexivity))).
  vm_compute. reflexivity.
Defined.











End FanoutFacts.

(** ** The audit sink *)

Module AuditFacts.
Import Audit.

(** A sensitive key of the metadata itself is always redacted. *)
Lemma sanitize_top_level (entries : dict) (key : string) (v : value) :
  is_sensitive key = true ->
  (key, v) ∈ entries ->
  exists sanitized,
    _sanitize_data (VDict entries) = VDict sanitized /\ (key, REDACTED) ∈ sanitized.
Proof.
  intros Hkey Hin. eexists. split; [reflexivity|].
  apply list_elem_of_fmap. exists (key, v). cbn [fst snd].
  now rewrite Hkey.
Qed.

(** C6.  The redaction reaches a dictionary inside a list, but not a
    dictionary inside a list inside a list: the password of
    [{"batch": [[{"password": "hunter2"}]], "note": "ok"}] is stored as it
    came, whereas that of [{"batch": [{"password": "hunter2"}], ...}] is
    replaced by the sentinel. *)
Theorem sanitize_misses_lists_of_lists :
  _sanitize_data (VDict Scenarios.nested_list_meta) = VDict Scenarios.nested_list_meta
  /\ map meta
         (db (fst (snd (log_event (Scenarios.world_at 5 []) false
                                  "login" 1 "user" 1 None None None None
                                  (Some Scenarios.nested_list_meta)
                                  ({| audit_enabled := true; db := [] |}, WS.init)))))
     = [ VDict [ ("batch", VList [VList [VDict [("password", VStr "hunter2")]]]);
                 ("note", VStr "ok") ] ]
  /\ _sanitize_data (VDict Scenarios.flat_list_meta)
     = VDict [ ("batch", VList [VDict [("password", REDACTED)]]);
               ("note", VStr "ok") ].
Proof. repeat split; vm_compute; reflexivity. Qed.

(** *** Redaction at depth, the entry points, the statistics *)

(** Induction on values, with the hypothesis for every item of a list and
    for every value of a dictionary. *)
Lemma value_nested_ind (P : value -> Prop) :
  P VNone ->
  (forall b, P (VBool b)) ->
  (forall n, P (VInt n)) ->
  (forall s, P (VStr s)) ->
  (forall items, Forall P items -> P (VList items)) ->
  (forall entries, Forall (fun kv => P kv.2) entries -> P (VDict entries)) ->
  (forall e, P (VError e)) ->
  forall v, P v.
Proof.
  intros HNone HBool HInt HStr HList HDict HError.
  fix IH 1. intros [| b | n | s | items | entries | e].
  - exact HNone.
  - apply HBool.
  - apply HInt.
  - apply HStr.
  - apply HList. induction items as [|item items IHitems]; constructor.
    + apply IH.
    + exact IHitems.
  - apply HDict. induction entries as [|[k v] entries IHentries]; constructor.
    + apply IH.
    + exact IHentries.
  - apply HError.
Qed.

Lemma sanitize_dict (entries : dict) :
  _sanitize_data (VDict entries)
  = VDict (map (fun kv => (kv.1, sanitize_entry kv.1 kv.2)) entries).
Proof.
  cbn [_sanitize_data]. f_equal. apply map_ext. intros [k v]. cbn [fst snd].
  unfold sanitize_entry. now destruct (is_sensitive k), v.
Qed.

Lemma get_map_entries {V W} (F : string -> V -> W) (d : list (string * V)) (k : string) :
  Dict.get k (map (fun kv => (kv.1, F kv.1 kv.2)) d) = F k <$> Dict.get k d.
Proof.
  induction d as [|[k0 v0] d IH]; cbn [map Dict.get fst snd]; [reflexivity|].
  destruct (String.eqb_spec k k0) as [->|Hne]; [reflexivity | exact IH].
Qed.

Lemma sanitize_idempotent_strong (v : value) :
  _sanitize_data (_sanitize_data v) = _sanitize_data v
  /\ forall key, sanitize_entry key (sanitize_entry key v) = sanitize_entry key v.
Proof.
  induction v as [| b | n | s | items IH | entries IH | e] using value_nested_ind;
    try (split; [reflexivity|]; intros key; unfold sanitize_entry;
         destruct (is_sensitive key); reflexivity).
  - (* a list *)
    split; [reflexivity|]. intros key. unfold sanitize_entry.
    destruct (is_sensitive key); [reflexivity|].
    f_equal. rewrite map_map. apply map_ext_Forall.
    eapply Forall_impl; [exact IH|]. cbn beta. intros item [Hitem _].
    destruct item as [| | | | |es|]; try reflexivity.
    rewrite (sanitize_dict es). cbv beta match. rewrite <- (sanitize_dict es).
    exact Hitem.
  - (* a dictionary *)
    assert (Hdict : _sanitize_data (_sanitize_data (VDict entries))
                    = _sanitize_data (VDict entries)).
    { rewrite !sanitize_dict. f_equal. rewrite map_map. apply map_ext_Forall.
      eapply Forall_impl; [exact IH|]. cbn beta. intros [k v] [_ Hentry].
      cbn [fst snd]. f_equal. apply Hentry. }
    split; [exact Hdict|]. intros key. unfold sanitize_entry.
    destruct (is_sensitive key); [reflexivity|].
    rewrite (sanitize_dict entries). cbv beta match. rewrite <- (sanitize_dict entries).
    exact Hdict.
Qed.

Lemma sanitize_path_redacted (path : list string) (key : string) :
  Forall (fun k => is_sensitive k = false) path ->
  is_sensitive key = true ->
  forall data v,
    lookup_path (path ++ [key]) data = Some v ->
    lookup_path (path ++ [key]) (_sanitize_data data) = Some REDACTED.
Proof.
  intros Hpath Hkey. induction Hpath as [|k path Hk Hpath IH]; intros data v Hv.
  - cbn [app lookup_path] in *. destruct data; try discriminate.
    rewrite sanitize_dict, get_map_entries.
    destruct (Dict.get key entries); [|discriminate]. cbn [fmap option_fmap option_map].
    unfold sanitize_entry. now rewrite Hkey.
  - cbn [app lookup_path] in *. destruct data; try discriminate.
    rewrite sanitize_dict, get_map_entries.
    destruct (Dict.get k entries) as [v0|]; [|discriminate].
    cbn [fmap option_fmap option_map]. unfold sanitize_entry. rewrite Hk.
    destruct v0; try (destruct path; discriminate). now apply (IH _ v).
Qed.

Lemma sanitize_path_back (path : list string) (key : string) :
  Forall (fun k => is_sensitive k = false) path ->
  forall data v,
    lookup_path (path ++ [key]) (_sanitize_data data) = Some v ->
    exists v0, lookup_path (path ++ [key]) data = Some v0.
Proof.
  intros Hpath. induction Hpath as [|k path Hk Hpath IH]; intros data v Hv.
  - cbn [app lookup_path] in *. destruct data; try discriminate.
    rewrite sanitize_dict, get_map_entries in Hv.
    destruct (Dict.get key entries); [eauto | discriminate].
  - cbn [app lookup_path] in *. destruct data; try discriminate.
    rewrite sanitize_dict, get_map_entries in Hv.
    destruct (Dict.get k entries) as [v0|]; [|discriminate].
    cbn [fmap option_fmap option_map] in Hv. unfold sanitize_entry in Hv.
    rewrite Hk in Hv.
    destruct v0; try (destruct path; discriminate). now apply (IH _ v).
Qed.

Lemma sanitize_path_scalar (path : list string) :
  Forall (fun k => is_sensitive k = false) path ->
  forall data v,
    is_scalar v = true ->
    lookup_path path data = Some v ->
    lookup_path path (_sanitize_data data) = Some v.
Proof.
  intros Hpath. induction Hpath as [|k path Hk Hpath IH]; intros data v Hscalar Hv.
  - cbn [lookup_path] in *. injection Hv as ->. now destruct v.
  - cbn [lookup_path] in *. destruct data; try discriminate.
    rewrite sanitize_dict, get_map_entries.
    destruct (Dict.get k entries) as [v0|]; [|discriminate].
    cbn [fmap option_fmap option_map]. unfold sanitize_entry. rewrite Hk.
    destruct v0; try exact Hv.
    + destruct path; [|discriminate]. cbn [lookup_path] in Hv. injection Hv as <-.
      discriminate.
    + now apply IH.
Qed.

(** X7.  Redaction is idempotent and keeps the keys of the metadata in their
    order.  A sensitive key reached through dictionaries under keys that
    are not sensitive is given the sentinel, at whatever depth it lies, and
    a scalar reached through keys that are not sensitive is kept. *)
Theorem redaction_reaches_nested_dictionaries
        (data : value) (entries : dict) (path : list string) (key : string) (v : value) :
  _sanitize_data (_sanitize_data data) = _sanitize_data data
  /\ (exists sanitized,
         _sanitize_data (VDict entries) = VDict sanitized
         /\ Dict.keys sanitized = Dict.keys entries)
  /\ (Forall (fun k => is_sensitive k = false) path ->
      is_sensitive key = true ->
      lookup_path (path ++ [key]) data = Some v ->
      lookup_path (path ++ [key]) (_sanitize_data data) = Some REDACTED)
  /\ (Forall (fun k => is_sensitive k = false) path ->
      is_scalar v = true ->
      lookup_path path data = Some v ->
      lookup_path path (_sanitize_data data) = Some v).
Proof.
  split; [apply sanitize_idempotent_strong|]. split; [|split].
  - eexists. split; [apply sanitize_dict|].
    unfold Dict.keys. rewrite map_map. reflexivity.
  - intros Hpath Hkey Hv. now apply (sanitize_path_redacted path key Hpath Hkey data v).
  - intros Hpath Hscalar Hv. now apply sanitize_path_scalar.
Qed.

Lemma sanitize_redacted (data : value) : redacted (_sanitize_data data).
Proof.
  intros path key found Hpath Hkey Hfound.
  destruct (sanitize_path_back path key Hpath data found Hfound) as [v0 Hv0].
  rewrite (sanitize_path_redacted path key Hpath Hkey data v0 Hv0) in Hfound.
  now injection Hfound.
Qed.

Lemma empty_redacted : redacted (VDict []).
Proof. intros [|k path] key found _ _ H; discriminate. Qed.

(** What one call of [log_event] does to the table. *)
Lemma log_event_table env commit_raises action actor_id target_type target_id
      session_id agent_id workflow_id entanglement_id meta st :
  let out := log_event env commit_raises action actor_id target_type target_id
                       session_id agent_id workflow_id entanglement_id meta st in
  audit_enabled out.2.1 = audit_enabled st.1
  /\ (db out.2.1 = db st.1
      \/ exists record, db out.2.1 = (db st.1 ++ [record])%list
                        /\ redacted (Audit.meta record)
                        /\ Audit.action record = action
                        /\ out.1 = true /\ commit_raises = false
                        /\ audit_enabled st.1 = true).
Proof.
  destruct st as [svc ws]. unfold log_event. cbn zeta.
  destruct (audit_enabled svc) eqn:Hen; cbn [negb fst snd]; [|now split; [|left]].
  destruct commit_raises; cbn [fst snd]; [now split; [|left]|].
  split; [cbn [audit_enabled]; congruence|]. right. eexists. split; [reflexivity|].
  cbn [Audit.meta Audit.action]. split; [|repeat split; congruence].
  destruct meta as [[|kv entries]|];
    [apply empty_redacted | apply sanitize_redacted | apply empty_redacted].
Qed.

Lemma perform_table env commit_raises c st :
  audit_enabled (perform env commit_raises c st).2.1 = audit_enabled st.1
  /\ (db (perform env commit_raises c st).2.1 = db st.1
      \/ exists record,
           db (perform env commit_raises c st).2.1 = (db st.1 ++ [record])%list
           /\ redacted (Audit.meta record)
           /\ (perform env commit_raises c st).1 = true
           /\ commit_raises = false /\ audit_enabled st.1 = true).
Proof.
  destruct c; cbn [perform];
    unfold log_security_event, log_performance_event, log_workflow_event,
           log_agent_event; cbn zeta;
    match goal with
    | |- context [log_event ?e ?cr ?a ?ac ?tt ?ti ?s ?ag ?w ?en ?m ?st] =>
        pose proof (log_event_table e cr a ac tt ti s ag w en m st) as H
    end;
    cbn zeta in H;
    destruct H as [Hen [Hsame|(record & Hdb & Hred & _ & Hout & Hcr & Hon)]];
    (split; [exact Hen|]);
    solve [ left; exact Hsame | right; exists record; auto ].
Qed.

Lemma perform_all_table (calls : list (WS.world * bool * call)) (st : service * WS.manager) :
  Forall (fun record => redacted (Audit.meta record)) (db st.1) ->
  Forall (fun record => redacted (Audit.meta record)) (db (perform_all calls st).1)
  /\ (length (db (perform_all calls st).1) <= length (db st.1) + length calls)%nat
  /\ audit_enabled (perform_all calls st).1 = audit_enabled st.1.
Proof.
  revert st. induction calls as [|[[env cr] c] calls IH]; intros st Hst.
  - cbn. split; [exact Hst|]. split; [lia | reflexivity].
  - cbn [perform_all fold_left fst snd].
    destruct (perform_table env cr c st) as [Hen [Hsame|(record & Hdb & Hred & _)]].
    + destruct (IH (perform env cr c st).2) as (H1 & H2 & H3); [now rewrite Hsame|].
      unfold perform_all in *. split; [exact H1|]. split; [|congruence].
      rewrite Hsame in H2. cbn [length]. lia.
    + destruct (IH (perform env cr c st).2) as (H1 & H2 & H3).
      { rewrite Hdb. apply Forall_app. split; [exact Hst|]. now constructor. }
      unfold perform_all in *. split; [exact H1|]. split; [|congruence].
      rewrite Hdb, length_app in H2. cbn [length] in *. lia.
Qed.

(** X8.  Whatever calls of [log_event], [log_security_event],
    [log_performance_event], [log_workflow_event] and [log_agent_event] a
    service with an empty table has gone through, every record of the table
    is redacted: no sensitive key that is reached through dictionaries
    under keys that are not sensitive holds anything but the sentinel.  A
    call stores one record at most, and none when auditing is disabled. *)
Theorem stored_metadata_is_redacted
        (enabled : bool) (ws : WS.manager) (calls : list (WS.world * bool * call)) :
  let final := perform_all calls ({| audit_enabled := enabled; db := [] |}, ws) in
  Forall (fun record => redacted (Audit.meta record)) (db final.1)
  /\ (length (db final.1) <= length calls)%nat
  /\ (enabled = false -> db final.1 = []).
Proof.
  cbn zeta.
  destruct (perform_all_table calls ({| audit_enabled := enabled; db := [] |}, ws))
    as (H1 & H2 & H3); [constructor|].
  split; [exact H1|]. split; [exact H2|].
  intros ->. clear H1 H2 H3. revert ws.
  induction calls as [|[[env cr] c] calls IH]; intros ws; [reflexivity|].
  cbn [perform_all fold_left fst snd].
  assert (E : (perform env cr c ({| audit_enabled := false; db := [] |}, ws)).2
              = ({| audit_enabled := false; db := [] |}, ws)) by now destruct c.
  rewrite E. apply IH.
Qed.

Section Tally.

Context {K : Type} `{Countable K}.

Lemma counted_insert (counts : gmap K nat) (k : K) (n : nat) :
  counted (<[k := n]> counts)
  = (n + counted counts - default 0%nat (counts !! k))%nat.
Proof.
  unfold counted.
  assert (Hcomm : forall (m : gmap K nat) (j1 j2 : K) (z1 z2 y : nat),
             j1 <> j2 -> m !! j1 = Some z1 -> m !! j2 = Some z2 ->
             (z1 + (z2 + y) = z2 + (z1 + y))%nat) by (intros; lia).
  destruct (counts !! k) as [old|] eqn:Hk; cbn [default].
  - rewrite <- insert_delete_eq.
    rewrite (map_fold_insert_L _ _ _ _ _ (Hcomm _)) by apply lookup_delete_eq.
    rewrite (map_fold_delete_L _ _ k old counts (Hcomm _) Hk). unfold id. lia.
  - rewrite (map_fold_insert_L _ _ _ _ _ (Hcomm _) Hk). lia.
Qed.

Lemma counted_ge (counts : gmap K nat) (k : K) :
  (default 0%nat (counts !! k) <= counted counts)%nat.
Proof.
  unfold counted. destruct (counts !! k) as [n|] eqn:Hk; cbn [default]; unfold id; [|lia].
  rewrite (map_fold_delete_L _ _ k n counts); [lia | intros; lia | exact Hk].
Qed.

Lemma tally_fold (keys : list K) (counts : gmap K nat) :
  let counts' :=
    fold_left (fun counts k => <[k := S (default 0%nat (counts !! k))]> counts)
              keys counts in
  counted counts' = (counted counts + length keys)%nat
  /\ forall k, default 0%nat (counts' !! k)
               = (default 0%nat (counts !! k)
                  + length (List.filter (fun k' => bool_decide (k' = k)) keys))%nat.
Proof.
  revert counts. induction keys as [|k0 keys IH]; intros counts; cbn [fold_left].
  - cbn zeta. cbn [length List.filter]. split; [lia | intros; lia].
  - destruct (IH (<[k0 := S (default 0%nat (counts !! k0))]> counts)) as [Hsum Hcount].
    cbn zeta in *. split.
    + rewrite Hsum, counted_insert. pose proof (counted_ge counts k0).
      cbn [length]. lia.
    + intros k. rewrite Hcount. cbn [List.filter].
      destruct (decide (k0 = k)) as [->|Hne].
      * rewrite lookup_insert_eq, bool_decide_eq_true_2 by reflexivity.
        cbn [default length]. unfold id. lia.
      * rewrite lookup_insert_ne, bool_decide_eq_false_2 by assumption. lia.
Qed.

Lemma tally_positive (keys : list K) (counts : gmap K nat) :
  (forall k n, counts !! k = Some n -> (0 < n)%nat) ->
  forall k n,
    fold_left (fun counts k => <[k := S (default 0%nat (counts !! k))]> counts)
              keys counts !! k = Some n ->
    (0 < n)%nat.
Proof.
  revert counts. induction keys as [|k0 keys IH]; intros counts Hpos; cbn [fold_left];
    [exact Hpos|].
  apply IH. intros k n. destruct (decide (k0 = k)) as [->|Hne].
  - rewrite lookup_insert_eq. intros E. injection E as <-. lia.
  - rewrite lookup_insert_ne by assumption. apply Hpos.
Qed.

End Tally.

(** X9.  The statistics of the audit table agree with one another: the
    counts per action add up to the number of events of the period, and so
    do the counts per actor; each action is counted as often as it occurs
    among those events, and an action that does not occur has no count. *)
Theorem audit_stats_add_up
        (start_date end_date : option N) (svc : service) (a : string) :
  exists stats,
    get_audit_stats false start_date end_date svc = Some stats
    /\ total_events stats
       = length (List.filter (in_period start_date end_date) (db svc))
    /\ counted (action_distribution stats) = total_events stats
    /\ counted (user_activity stats) = total_events stats
    /\ action_distribution stats !! a
       = match length (List.filter
                         (fun log => bool_decide (action log = a))
                         (List.filter (in_period start_date end_date) (db svc))) with
         | O => None
         | S n => Some (S n)
         end.
Proof.
  eexists. split; [reflexivity|].
  cbn [total_events action_distribution user_activity].
  set (logs := List.filter (in_period start_date end_date) (db svc)).
  split; [reflexivity|].
  destruct (tally_fold (map action logs) ∅) as [Hsum Hcount].
  destruct (tally_fold (map actor_id logs) ∅) as [Hsum' _].
  cbn zeta in *. unfold tally.
  split; [|split].
  - rewrite Hsum, length_map. unfold counted. now rewrite map_fold_empty.
  - rewrite Hsum', length_map. unfold counted. now rewrite map_fold_empty.
  - specialize (Hcount a). rewrite lookup_empty in Hcount. cbn [default] in Hcount.
    rewrite Nat.add_0_l in Hcount.
    assert (E : length (List.filter (fun k' => bool_decide (k' = a)) (map action logs))
                = length (List.filter (fun log => bool_decide (action log = a)) logs)).
    { clear. induction logs as [|log logs IH]; [reflexivity|].
      cbn [map List.filter]. destruct (bool_decide (action log = a)); cbn [length];
        now rewrite IH. }
    rewrite E in Hcount.
    set (counts := fold_left _ (map action logs) ∅) in *.
    destruct (length (List.filter _ logs)) as [|n] eqn:Hn.
    + destruct (counts !! a) as [c|] eqn:Hc; [|reflexivity].
      exfalso. cbn [default] in Hcount. unfold id in Hcount. subst c.
      apply (tally_positive (map action logs) ∅) in Hc; [lia|].
      intros k n. now rewrite lookup_empty.
    + destruct (counts !! a) as [c|] eqn:Hc; cbn [default] in Hcount;
        unfold id in Hcount; [now subst|discriminate].
Qed.

End AuditFacts.

(** ** The agent brain *)

Module BrainFacts.
Import Brain.

(** *** Provider selection *)

Lemma select_only_local (b : brain) (request : BrainRequest) (c : MacLinkClient) :
  openai_client b = None ->
  maclink_client b = Some c ->
  exists model warnings,
    _select_provider_and_model b request = inl (MACLINK, model, warnings)
    /\ (length warnings <= 1)%nat.
Proof.
  intros Ho Hm. unfold _select_provider_and_model. rewrite Ho, Hm. cbn [is_some negb].
  destruct (provider request) as [[|]|]; [| |destruct (persona request) as [ps|]];
    cbn [provider_eqb andb]; try destruct (preferred_provider ps);
    cbn [provider_eqb andb]; eexists _, _; (split; [reflexivity | cbn; lia]).
Qed.

Lemma select_only_remote (b : brain) (request : BrainRequest) (c : OpenAIClient) :
  openai_client b = Some c ->
  maclink_client b = None ->
  exists model warnings,
    _select_provider_and_model b request = inl (OPENAI, model, warnings)
    /\ (length warnings <= 1)%nat.
Proof.
  intros Ho Hm. unfold _select_provider_and_model. rewrite Ho, Hm. cbn [is_some negb].
  destruct (provider request) as [[|]|]; [| |destruct (persona request) as [ps|]];
    cbn [provider_eqb andb]; try destruct (preferred_provider ps);
    cbn [provider_eqb andb]; eexists _, _; (split; [reflexivity | cbn; lia]).
Qed.

Lemma select_none (b : brain) (request : BrainRequest) :
  openai_client b = None ->
  maclink_client b = None ->
  _select_provider_and_model b request = inr no_providers.
Proof.
  intros Ho Hm. unfold _select_provider_and_model. rewrite Ho, Hm. cbn [is_some negb].
  destruct (provider request) as [[|]|]; [| |destruct (persona request) as [ps|]];
    cbn [provider_eqb andb]; try destruct (preferred_provider ps); reflexivity.
Qed.

(** C7.  With the remote provider not configured and the local one serving
    [llama2], a request for the remote provider is moved to the local one
    (one warning is logged), but it keeps the model name chosen for the
    remote provider: the local client is asked for [gpt-4o], refuses it,
    and [generate_completion] raises a [BrainError].  The same request
    naming [llama2] is answered by the local provider. *)
Theorem fallback_keeps_the_remote_model :
  _select_provider_and_model Scenarios.local_only Scenarios.remote_request
  = inl (MACLINK, "gpt-4o", ["OpenAI not available, falling back to MacLink"])
  /\ fst (generate_completion Scenarios.remote_request Scenarios.local_only)
     = inr {| err_message := "MacLink error: Model gpt-4o not available";
              err_provider := Some MACLINK |}
  /\ fst (generate_completion Scenarios.remote_request_naming_llama2
                              Scenarios.local_only)
     = inl {| resp_content := "echo: hello"; resp_provider := MACLINK;
              resp_model := "llama2"; resp_agent_id := "agent-1";
              tokens_used := 7 |}.
Proof. repeat split. Qed.

(** *** The conversation store *)

Lemma last_n_length {A} (n : nat) (l : list A) :
  length (last_n n l) = Nat.min n (length l).
Proof. unfold last_n. rewrite length_skipn. lia. Qed.

Lemma window_length (l : list entry) : (length (window l) <= max_history_length)%nat.
Proof.
  unfold window. destruct (Nat.ltb_spec max_history_length (length l)).
  - rewrite last_n_length. lia.
  - assumption.
Qed.

Lemma update_lookup (b : brain) (agent_id u a : string) :
  get_conversation_history (_update_conversation_history agent_id u a b) agent_id
  = window (get_conversation_history b agent_id ++ turn u a).
Proof.
  unfold get_conversation_history, _update_conversation_history, with_store.
  cbn [conversation_store]. rewrite lookup_insert_eq. reflexivity.
Qed.

Lemma update_lookup_other (b : brain) (agent_id other u a : string) :
  other <> agent_id ->
  get_conversation_history (_update_conversation_history agent_id u a b) other
  = get_conversation_history b other.
Proof.
  intros Hne.
  unfold get_conversation_history, _update_conversation_history, with_store.
  cbn [conversation_store]. now rewrite lookup_insert_ne.
Qed.

Lemma update_bounded (b : brain) (agent_id u a : string) :
  bounded b -> bounded (_update_conversation_history agent_id u a b).
Proof.
  intros Hb other. destruct (decide (other = agent_id)) as [->|Hne].
  - rewrite update_lookup. apply window_length.
  - rewrite update_lookup_other by assumption. apply Hb.
Qed.

Lemma clear_bounded (b : brain) (agent_id : string) :
  bounded b -> bounded (clear_conversation_history agent_id b).
Proof.
  intros Hb other. specialize (Hb other).
  unfold get_conversation_history, clear_conversation_history, with_store in *.
  cbn [conversation_store].
  destruct (decide (other = agent_id)) as [->|Hne].
  - rewrite lookup_delete_eq. cbn. lia.
  - now rewrite lookup_delete_ne.
Qed.

(** A completion leaves the store as it was when it fails, and appends the
    prompt and the answer when it succeeds. *)
Lemma generate_completion_store (request : BrainRequest) (b : brain) :
  match fst (generate_completion request b) with
  | inl response =>
      conversation_store (snd (generate_completion request b))
      = conversation_store
          (_update_conversation_history (agent_id request) (prompt request)
                                        (resp_content response) b)
  | inr _ =>
      conversation_store (snd (generate_completion request b)) = conversation_store b
  end.
Proof.
  unfold generate_completion.
  destruct (_select_provider_and_model b request) as [[[p model] warnings]|e];
    [|reflexivity].
  set (b1 := with_log _ b).
  destruct p.
  - destruct (_generate_openai_completion b1 request model _); reflexivity.
  - destruct (_generate_maclink_completion b1 request model _); reflexivity.
Qed.

Lemma store_step_bounded (o : store_op) (b : brain) :
  bounded b -> bounded (store_step o b).
Proof.
  intros Hb. destruct o as [request|agent_id]; cbn [store_step].
  - pose proof (generate_completion_store request b) as Hs.
    intros other. unfold get_conversation_history.
    destruct (fst (generate_completion request b)) as [response|e]; rewrite Hs.
    + apply (update_bounded b _ _ _ Hb other).
    + apply Hb.
  - now apply clear_bounded.
Qed.

Lemma run_bounded (ops : list store_op) (b : brain) :
  bounded b -> bounded (fold_left (fun b' o => store_step o b') ops b).
Proof.
  revert b. induction ops as [|o ops IH]; intros b Hb; cbn [fold_left].
  - exact Hb.
  - apply IH. now apply store_step_bounded.
Qed.

Lemma new_brain_bounded openai maclink : bounded (new_brain openai maclink).
Proof.
  intros agent_id. unfold get_conversation_history, new_brain.
  cbn [conversation_store]. rewrite lookup_empty. cbn. lia.
Qed.

(** A history at capacity: ten exchanges give 20 entries, and the eleventh
    drops the first exchange. *)
Lemma history_at_capacity :
  length (get_conversation_history Scenarios.ten_exchanges "agent-1") = 20%nat
  /\ map content (firstn 2 (get_conversation_history Scenarios.ten_exchanges "agent-1"))
     = ["q0"; "echo: q0"]
  /\ length (get_conversation_history
               (store_step (Scenarios.ask 10) Scenarios.ten_exchanges) "agent-1")
     = 20%nat
  /\ map content
         (firstn 2 (get_conversation_history
                      (store_step (Scenarios.ask 10) Scenarios.ten_exchanges) "agent-1"))
     = ["q1"; "echo: q1"]
  /\ map content
         (skipn 18 (get_conversation_history
                      (store_step (Scenarios.ask 10) Scenarios.ten_exchanges) "agent-1"))
     = ["q10"; "echo: q10"].
Proof. repeat split; vm_compute; reflexivity. Qed.

(** C9.  Whatever completions and clearings a brain has gone through, no
    stored history has more than 20 entries.  A successful completion
    stores the history followed by the prompt and the answer, cut to its
    last 20 entries; on a history of exactly 20 entries this drops the two
    oldest and keeps the 18 others before the new turn, and the histories
    of the other agents are not touched. *)
Theorem conversation_history_is_bounded
        (openai : option OpenAIClient) (maclink : option MacLinkClient)
        (ops : list store_op) (agent_id : string) :
  let b := fold_left (fun b' o => store_step o b') ops (new_brain openai maclink) in
  let history := get_conversation_history b agent_id in
  (length history <= 20)%nat
  /\ (forall u a,
        let history' :=
          get_conversation_history (_update_conversation_history agent_id u a b)
                                   agent_id in
        (length history' <= 20)%nat
        /\ (length history = 20%nat ->
            history' = (skipn 2 history ++ turn u a)%list
            /\ length history' = 20%nat)
        /\ (forall other, other <> agent_id ->
              get_conversation_history
                (_update_conversation_history agent_id u a b) other
              = get_conversation_history b other))
  /\ (forall request response,
        fst (generate_completion request b) = inl response ->
        get_conversation_history (snd (generate_completion request b))
                                 (Brain.agent_id request)
        = window (get_conversation_history b (Brain.agent_id request)
                    ++ turn (prompt request) (resp_content response))).
Proof.
  intros b history.
  assert (Hb : bounded b) by (apply run_bounded, new_brain_bounded).
  split; [apply Hb|]. split.
  - intros u a history'. subst history'. rewrite update_lookup. fold history.
    split; [apply window_length|]. split.
    + intros Hlen. unfold window, last_n, max_history_length.
      rewrite length_app, Hlen. cbn [turn length Nat.add Nat.ltb Nat.leb].
      replace (20 + 2 - 20)%nat with 2%nat by lia.
      rewrite skipn_app, Hlen. cbn [Nat.sub skipn].
      split; [reflexivity|].
      rewrite length_app, length_skipn, Hlen. reflexivity.
    + intros other Hne. now apply update_lookup_other.
  - intros request response Hok.
    pose proof (generate_completion_store request b) as Hs. rewrite Hok in Hs.
    unfold get_conversation_history at 1. rewrite Hs.
    apply update_lookup.
Qed.

(** *** Selection, retries and the conversation store *)

(** X10.  Provider selection returns a provider whose client is configured,
    and raises only when neither client is: the provider asked for is
    kept, without a warning, whenever its client is configured, and the
    other provider is chosen, with one warning, when only that one is. *)
Theorem selection_returns_an_available_provider (b : brain) (request : BrainRequest) :
  match _select_provider_and_model b request with
  | inl (p, _, warnings) =>
      available b p = true
      /\ (available b (wanted b request) = true -> p = wanted b request /\ warnings = [])
      /\ (available b (wanted b request) = false ->
          p <> wanted b request /\ length warnings = 1%nat)
  | inr e =>
      e = no_providers /\ openai_client b = None /\ maclink_client b = None
  end.
Proof.
  unfold _select_provider_and_model, wanted, available.
  destruct (openai_client b) as [oc|], (maclink_client b) as [mc|];
    destruct (provider request) as [[|]|]; try destruct (persona request) as [ps|];
    try destruct (preferred_provider ps);
    cbn [is_some provider_eqb andb negb app length];
    repeat split; intros; congruence.
Qed.

(** *** The retry loop of the local client *)

Lemma maclink_attempts_spec (c : MacLinkClient) (request : MacLinkRequest) :
  forall remaining attempt,
    (attempt + remaining = max_retries c)%nat ->
    (0 < remaining)%nat ->
    exists k,
      (attempt <= k < max_retries c)%nat
      /\ (forall j, (attempt <= j < k)%nat ->
                    retried (_make_inference_request c j request) = true)
      /\ (retried (_make_inference_request c k request) = false
          \/ k = (max_retries c - 1)%nat)
      /\ maclink_attempts c request remaining attempt
         = settle (_make_inference_request c k request).
Proof.
  induction remaining as [|remaining IH]; intros attempt Hsum Hpos; [lia|].
  cbn [maclink_attempts].
  destruct (_make_inference_request c attempt request) as [content tokens|message code|message]
    eqn:Hanswer.
  - exists attempt. rewrite Hanswer.
    split; [lia|]. split; [intros j Hj; lia|]. split; [now left | reflexivity].
  - destruct (is_server_error code) eqn:Hcode; cbn [andb].
    + destruct (Nat.ltb_spec attempt (max_retries c - 1)) as [Hlt|Hge].
      * destruct (IH (S attempt)) as (k & Hk & Hbefore & Hlast & Hrun); [lia | lia|].
        exists k. split; [lia|]. split; [|split; assumption].
        intros j Hj. destruct (decide (j = attempt)) as [->|Hne].
        -- rewrite Hanswer. exact Hcode.
        -- apply Hbefore. lia.
      * exists attempt. rewrite Hanswer.
        split; [lia|]. split; [intros j Hj; lia|]. split; [right; lia | reflexivity].
    + exists attempt. rewrite Hanswer.
      split; [lia|]. split; [intros j Hj; lia|]. split; [now left | reflexivity].
  - exists attempt. rewrite Hanswer.
    split; [lia|]. split; [intros j Hj; lia|]. split; [now left | reflexivity].
Qed.

(** X11.  For a model that is ready, the local client makes one attempt after
    the other, at most [max_retries] of them, and goes on to the next only
    after a server error (500, 502, 503, 504): its result is what the last
    attempt made gives, a reply or an error, any other exception being
    turned into a [MacLinkError].  With no attempt allowed the result is
    "Max retries exceeded". *)
Theorem local_client_retries_server_errors_only
        (c : MacLinkClient) (request : MacLinkRequest) (model_info : LocalModelInfo) :
  Dict.get (mq_model_name request) (available_models c) = Some model_info ->
  status model_info = "ready" ->
  match max_retries c with
  | O => maclink_generate_completion c request = MacLinkError "Max retries exceeded" None
  | S last =>
      exists k,
        (k <= last)%nat
        /\ (forall j, (j < k)%nat -> retried (_make_inference_request c j request) = true)
        /\ (retried (_make_inference_request c k request) = false \/ k = last)
        /\ maclink_generate_completion c request
           = settle (_make_inference_request c k request)
  end.
Proof.
  intros Hmodel Hready. unfold maclink_generate_completion.
  rewrite Hmodel, Hready. cbn [String.eqb negb].
  change (negb (String.eqb "ready" "ready")) with false. cbv iota.
  destruct (max_retries c) as [|last] eqn:Hmax; [reflexivity|].
  destruct (maclink_attempts_spec c request (S last) 0) as (k & Hk & Hbefore & Hlast & Hrun);
    [lia | lia|].
  rewrite Hmax in *. exists k. split; [lia|]. split; [|split].
  - intros j Hj. apply Hbefore. lia.
  - destruct Hlast as [Hlast|Hlast]; [now left | right; lia].
  - exact Hrun.
Qed.

Lemma local_client_retries_server_errors_only_witness :
  exists k,
    (k <= 2)%nat
    /\ (forall j, (j < k)%nat ->
          retried (_make_inference_request Scenarios.local_client j
                     {| mq_prompt := "hello"; mq_model_name := "llama2";
                        mq_max_tokens := 16; mq_system_message := None;
                        mq_history := [] |}) = true)
    /\ (retried (_make_inference_request Scenarios.local_client k
                   {| mq_prompt := "hello"; mq_model_name := "llama2";
                      mq_max_tokens := 16; mq_system_message := None;
                      mq_history := [] |}) = false \/ k = 2%nat)
    /\ maclink_generate_completion Scenarios.local_client
         {| mq_prompt := "hello"; mq_model_name := "llama2";
            mq_max_tokens := 16; mq_system_message := None; mq_history := [] |}
       = settle (_make_inference_request Scenarios.local_client k
                   {| mq_prompt := "hello"; mq_model_name := "llama2";
                      mq_max_tokens := 16; mq_system_message := None;
                      mq_history := [] |}).
Proof.
  exact (local_client_retries_server_errors_only
           Scenarios.local_client
           {| mq_prompt := "hello"; mq_model_name := "llama2";
              mq_max_tokens := 16; mq_system_message := None; mq_history := [] |}
           {| model_name := "llama2"; status := "ready" |} eq_refl eq_refl).
Defined.

(** *** [generate_completion] *)

Lemma generate_openai_provider b request model history response :
  _generate_openai_completion b request model history = inl response ->
  resp_provider response = OPENAI /\ resp_model response = model
  /\ resp_agent_id response = agent_id request /\ is_some (openai_client b) = true.
Proof.
  unfold _generate_openai_completion.
  destruct (openai_client b) as [client|]; [|discriminate].
  destruct (select_gpt_model model); [|discriminate].
  destruct (openai_generate_completion client _) as [[text tokens]|]; [|discriminate].
  intros E. injection E as <-. now repeat split.
Qed.

Lemma generate_maclink_provider b request model history response :
  _generate_maclink_completion b request model history = inl response ->
  resp_provider response = MACLINK /\ resp_model response = model
  /\ resp_agent_id response = agent_id request /\ is_some (maclink_client b) = true.
Proof.
  unfold _generate_maclink_completion.
  destruct (maclink_client b) as [client|]; [|discriminate].
  destruct (maclink_generate_completion client _); try discriminate.
  intros E. injection E as <-. now repeat split.
Qed.

(** X12.  A completion that fails leaves the conversation store and the
    request counters as they were.  A completion that succeeds is answered
    by a provider whose client is configured, for the agent of the request,
    counts one request for that provider and none for the other, and the
    warnings logged before are kept. *)
Theorem failed_completions_leave_no_trace (request : BrainRequest) (b : brain) :
  let out := generate_completion request b in
  openai_client out.2 = openai_client b
  /\ maclink_client out.2 = maclink_client b
  /\ (exists warnings, log out.2 = (log b ++ warnings)%list)
  /\ match out.1 with
     | inr _ =>
         conversation_store out.2 = conversation_store b
         /\ requests out.2 = requests b
     | inl response =>
         available b (resp_provider response) = true
         /\ resp_agent_id response = agent_id request
         /\ requests out.2 (resp_provider response)
            = S (requests b (resp_provider response))
         /\ forall p, p <> resp_provider response -> requests out.2 p = requests b p
     end.
Proof.
  cbn zeta. unfold generate_completion.
  destruct (_select_provider_and_model b request) as [[[p model] warnings]|e].
  2:{ cbn [fst snd]. repeat split. exists []. now rewrite app_nil_r. }
  set (b1 := with_log _ b).
  set (history := _prepare_conversation_history b1 _ _).
  destruct p.
  - destruct (_generate_openai_completion b1 request model history) as [response|e]
      eqn:Hgen; cbn [fst snd].
    + destruct (generate_openai_provider _ _ _ _ _ Hgen) as (Hp & _ & Ha & Hc).
      rewrite Hp. cbn [count_request requests provider_eqb].
      repeat split; eauto. intros [|] Hne; [contradiction | reflexivity].
    + repeat split; eauto.
  - destruct (_generate_maclink_completion b1 request model history) as [response|e]
      eqn:Hgen; cbn [fst snd].
    + destruct (generate_maclink_provider _ _ _ _ _ Hgen) as (Hp & _ & Ha & Hc).
      rewrite Hp. cbn [count_request requests provider_eqb].
      repeat split; eauto. intros [|] Hne; [reflexivity | contradiction].
    + repeat split; eauto.
Qed.

(** *** [_prepare_conversation_history] *)

(** X13.  The history handed to a provider is the stored history of the agent
    followed by the history of the request, cut to its last 20 entries: it
    is that list itself when this has 20 entries at most, and it is made of
    the last 20 entries of the request alone when the request brings 20 or
    more.  Preparing it does not change the store. *)
Theorem prepared_history_is_the_last_twenty
        (b : brain) (agent_id : string) (additional_history : list entry) :
  let stored := get_conversation_history b agent_id in
  let prepared := _prepare_conversation_history b agent_id additional_history in
  (length prepared <= 20)%nat
  /\ (exists dropped, (stored ++ additional_history)%list = (dropped ++ prepared)%list)
  /\ ((length stored + length additional_history <= 20)%nat ->
      prepared = (stored ++ additional_history)%list)
  /\ ((20 <= length additional_history)%nat ->
      prepared = last_n 20 additional_history).
Proof.
  cbn zeta. unfold _prepare_conversation_history, get_conversation_history.
  set (stored := default [] (conversation_store b !! agent_id)).
  change max_history_length with 20%nat.
  destruct (Nat.ltb_spec 20 (length (stored ++ additional_history))) as [Hlong|Hshort].
  - split; [rewrite BrainFacts.last_n_length; lia|]. split; [|split].
    + exists (firstn (length (stored ++ additional_history) - 20)
                     (stored ++ additional_history)).
      unfold last_n. now rewrite firstn_skipn.
    + rewrite length_app in Hlong. lia.
    + intros Hmany. unfold last_n. rewrite length_app, skipn_app.
      replace (length stored + length additional_history - 20 - length stored)%nat
        with (length additional_history - 20)%nat by lia.
      rewrite skipn_all2 by lia. reflexivity.
  - split; [exact Hshort|]. split; [now exists []|]. split; [reflexivity|].
    intros Hmany. rewrite length_app in Hshort.
    assert (Hs : length stored = 0%nat) by lia.
    destruct stored; [|discriminate]. cbn [app]. unfold last_n.
    replace (length additional_history - 20)%nat with 0%nat by lia. reflexivity.
Qed.

(** *** [clear_conversation_history] *)

(** X14.  Clearing the history of an agent empties it and touches no other
    agent, and clearing twice is clearing once.  The completion that
    follows is handed the history of the request alone when this has 20
    entries at most, and when it succeeds the stored history is the new
    exchange and nothing else. *)
Theorem cleared_history_starts_afresh
        (b : brain) (agent : string) (request : BrainRequest) :
  let b' := clear_conversation_history agent b in
  get_conversation_history b' agent = []
  /\ (forall other, other <> agent ->
        get_conversation_history b' other = get_conversation_history b other)
  /\ clear_conversation_history agent b' = b'
  /\ ((length (conversation_history request) <= 20)%nat ->
      _prepare_conversation_history b' agent (conversation_history request)
      = conversation_history request)
  /\ (agent_id request = agent ->
      forall response,
        (generate_completion request b').1 = inl response ->
        get_conversation_history (generate_completion request b').2 agent
        = turn (prompt request) (resp_content response)).
Proof.
  cbn zeta.
  assert (Hempty : get_conversation_history (clear_conversation_history agent b) agent
                   = []).
  { unfold get_conversation_history, clear_conversation_history, with_store.
    cbn [conversation_store]. now rewrite lookup_delete_eq. }
  split; [exact Hempty|]. split; [|split; [|split]].
  - intros other Hne.
    unfold get_conversation_history, clear_conversation_history, with_store.
    cbn [conversation_store]. now rewrite lookup_delete_ne.
  - unfold clear_conversation_history, with_store.
    cbn [conversation_store openai_client maclink_client requests log].
    now rewrite delete_delete_eq.
  - intros Hlen. unfold _prepare_conversation_history.
    change (default [] (conversation_store (clear_conversation_history agent b) !! agent))
      with (get_conversation_history (clear_conversation_history agent b) agent).
    rewrite Hempty. cbn [app].
    destruct (Nat.ltb_spec max_history_length (length (conversation_history request)));
      [unfold max_history_length in *; lia | reflexivity].
  - intros <- response Hok.
    pose proof (BrainFacts.generate_completion_store
                  request (clear_conversation_history (agent_id request) b)) as Hs.
    rewrite Hok in Hs.
    unfold get_conversation_history at 1. rewrite Hs.
    change (get_conversation_history
              (_update_conversation_history
                 (agent_id request) (prompt request) (resp_content response)
                 (clear_conversation_history (agent_id request) b))
              (agent_id request)
            = turn (prompt request) (resp_content response)).
    rewrite BrainFacts.update_lookup, Hempty. reflexivity.
Qed.

End BrainFacts.

(** ** The orchestrator *)

Module OrchestratorFacts.
Import Orchestrator.

Section AnyCollaborators.

Variable exec : value -> M value.

(** The body of a loop is run once per item, and the item is not part of
    what it runs on: two lists of items of the same length give the same
    run. *)
Lemma loop_items_ignore_the_items (loop_steps items items' results : list value)
      (st : state) :
  length items = length items' ->
  loop_items exec loop_steps items results st
  = loop_items exec loop_steps items' results st.
Proof.
  revert items' results st.
  induction items as [|item items IH]; intros [|item' items'] results st Hlen;
    try discriminate; [reflexivity|].
  cbn [loop_items]. unfold bind, get_context.
  destruct (loop_body exec loop_steps results st) as [[results'|e] st'];
    [|reflexivity].
  apply IH. now injection Hlen.
Qed.

End AnyCollaborators.

(** C1.  A loop over two addresses whose body sends a mail to
    [${loop_item}].  The body runs in the scope of the execution, where
    [loop_item] is not bound: both mails go to the text [${loop_item}], and
    the scope of the execution ends with the output variable of the body
    and nothing else.  In the scope the loop builds for the first item the
    address would have been [ann@x.org]. *)
Theorem loop_body_runs_in_the_parent_scope :
  fst Scenarios.loop_run = Ok tt
  /\ Scenarios.statuses (snd Scenarios.loop_run)
     = [ ("each", COMPLETED,
          VDict [("loop_results",
                  VList [ VDict [("email_sent", VBool true);
                                 ("to", VStr "${loop_item}")];
                          VDict [("email_sent", VBool true);
                                 ("to", VStr "${loop_item}")] ])]);
         ("notify", COMPLETED,
          VDict [("email_sent", VBool true); ("to", VStr "${loop_item}")]) ]
  /\ variables (context (snd Scenarios.loop_run))
     = [ ("last", VDict [("email_sent", VBool true); ("to", VStr "${loop_item}")]) ]
  /\ _interpolate_variables
       (VStr "${loop_item}")
       (Dict.set "loop_index" (VInt 0) (Dict.set "loop_item" (VStr "ann@x.org") []))
     = VStr "ann@x.org".
Proof. repeat split; vm_compute; reflexivity. Qed.


(** *** Retries, statuses and the end of an execution *)

Lemma bind_Ok {A B} (m : M A) (k : A -> M B) (st st' : state) (b : B) :
  bind m k st = (Ok b, st') ->
  exists a st1, m st = (Ok a, st1) /\ k a st1 = (Ok b, st').
Proof.
  unfold bind. destruct (m st) as [[a|e] st1]; [eauto | discriminate].
Qed.

Lemma catch_Ok {A} (body : M A) (handler : exn -> M A) (st st' : state) (a : A) :
  catch body handler st = (Ok a, st') ->
  body st = (Ok a, st')
  \/ exists e st1, body st = (Raise e, st1) /\ handler e st1 = (Ok a, st').
Proof.
  unfold catch. destruct (body st) as [[a0|e] st1]; [now left | right; eauto].
Qed.

Section Frames.

Lemma frames_ret {A} (a : A) : frames (ret a).
Proof. now intros st. Qed.

Lemma frames_raise {A} (e : exn) : frames (@raise A e).
Proof. now intros st. Qed.

Lemma frames_lift {A} (r : result A) : frames (lift r).
Proof. now intros st. Qed.

Lemma frames_get_context : frames get_context.
Proof. now intros st. Qed.

Lemma frames_bind_dep {A B} (m : M A) (k : A -> M B) :
  frames m ->
  (forall st a st1, m st = (Ok a, st1) -> kept (k a st1).2 = kept st1) ->
  frames (bind m k).
Proof.
  intros Hm Hk st. unfold bind. specialize (Hm st).
  destruct (m st) as [[a|e] st1] eqn:E; cbn [snd] in *; [|exact Hm].
  now rewrite (Hk st a st1 E).
Qed.

Lemma frames_bind {A B} (m : M A) (k : A -> M B) :
  frames m -> (forall a, frames (k a)) -> frames (bind m k).
Proof. intros Hm Hk. apply frames_bind_dep; [exact Hm|]. intros st a st1 _. apply Hk. Qed.

Lemma frames_catch {A} (body : M A) (handler : exn -> M A) :
  frames body -> (forall e, frames (handler e)) -> frames (catch body handler).
Proof.
  intros Hb Hh st. unfold catch. specialize (Hb st).
  destruct (body st) as [[a|e] st1]; cbn [snd] in *; [exact Hb|].
  now rewrite (Hh e st1).
Qed.

Lemma frames_modify_context (f : ExecutionContext -> ExecutionContext) :
  (forall c, step_contexts (f c) = step_contexts c) ->
  (forall c, status (f c) = status c) ->
  (forall c, error (f c) = error c) ->
  frames (modify_context f).
Proof.
  intros Hf Hs He st. unfold kept, counters, modify_context. cbn [snd context].
  now rewrite Hf, Hs, He.
Qed.

Lemma counters_set (d : list (string * StepContext)) (id : string) (sc sc' : StepContext) :
  Dict.get id d = Some sc ->
  retry_count sc' = retry_count sc ->
  max_retries sc' = max_retries sc ->
  map (fun kv => (kv.1, (retry_count kv.2, max_retries kv.2))) (Dict.set id sc' d)
  = map (fun kv => (kv.1, (retry_count kv.2, max_retries kv.2))) d.
Proof.
  intros Hget Hr Hm. induction d as [|[k v] d IH]; [discriminate|].
  cbn [Dict.get Dict.set] in *. destruct (String.eqb id k) eqn:E.
  - injection Hget as ->. cbn [map fst snd]. now rewrite Hr, Hm.
  - cbn [map]. now rewrite IH.
Qed.

Lemma frames_update_step (id : string) (f : StepContext -> StepContext) :
  (forall sc, retry_count (f sc) = retry_count sc /\ max_retries (f sc) = max_retries sc) ->
  frames (update_step id f).
Proof.
  intros Hf st. unfold kept, counters, update_step, modify_context. cbn [snd context].
  destruct (Dict.get id (step_contexts (context st))) as [sc|] eqn:Hget; [|reflexivity].
  cbn [with_step_contexts step_contexts status error].
  destruct (Hf sc) as [Hr Hm]. f_equal. now apply (counters_set _ _ sc).
Qed.

Lemma frames_set_step_status (id : string) (s : StepStatus) :
  frames (set_step_status id s).
Proof.
  intros st. unfold set_step_status.
  rewrite (frames_update_step id (sc_with_status s)); [reflexivity|].
  now intros sc.
Qed.

Lemma frames_get_step_context (id : string) : frames (get_step_context id).
Proof.
  intros st. unfold get_step_context, bind, get_context.
  now destruct (Dict.get id (step_contexts (context st))).
Qed.

Variable py_eval : string -> list (string * binding) -> result value.

Variable external : string -> value -> dict -> result value.

Variable broadcast_raises : nat -> bool.

Lemma frames_broadcast_to_user (event : string) (payload : dict) :
  frames (broadcast_to_user broadcast_raises event payload).
Proof.
  intros st. unfold broadcast_to_user.
  now destruct (broadcast_raises (broadcast_calls st)).
Qed.

Lemma frames_set_variable (k : string) (v : value) : frames (set_variable k v).
Proof. now apply frames_modify_context. Qed.

Lemma kept_counters (st st' : state) : kept st' = kept st -> counters st' = counters st.
Proof. unfold kept. congruence. Qed.

Lemma kept_status (st st' : state) :
  kept st' = kept st -> status (context st') = status (context st).
Proof. unfold kept. congruence. Qed.

Lemma kept_error (st st' : state) :
  kept st' = kept st -> error (context st') = error (context st).
Proof. unfold kept. congruence. Qed.

Ltac frames_step :=
  first
    [ assumption
    | apply frames_ret | apply frames_raise | apply frames_lift
    | apply frames_get_context | apply frames_get_step_context
    | apply frames_set_step_status | apply frames_set_variable
    | apply frames_broadcast_to_user
    | apply frames_update_step; now intros ?
    | apply frames_modify_context; [now intros ? | now intros ? | now intros ?]
    | apply frames_bind; [|intros ?]
    | apply frames_catch; [|intros ?]
    | match goal with
      | |- frames (if ?b then _ else _) => destruct b
      | |- frames (match ?x with _ => _ end) => destruct x eqn:?
      | |- frames (let _ := _ in _) => cbv zeta
      end ].

Ltac frames_tac := repeat frames_step.

Lemma frames_update_step_status (id : string) :
  frames (_update_step_status broadcast_raises id).
Proof. unfold _update_step_status. frames_tac. Qed.

Lemma frames_update_execution_status :
  frames (_update_execution_status broadcast_raises).
Proof. unfold _update_execution_status. frames_tac. Qed.

Lemma frames_handle_agent_task step : frames (_handle_agent_task external step).
Proof. unfold _handle_agent_task. frames_tac. Qed.

Lemma frames_handle_api_call step : frames (_handle_api_call external step).
Proof. unfold _handle_api_call. frames_tac. Qed.

Lemma frames_handle_condition step : frames (_handle_condition py_eval step).
Proof. unfold _handle_condition. frames_tac. Qed.

Lemma frames_handle_wait step : frames (_handle_wait step).
Proof. unfold _handle_wait. frames_tac. Qed.

Lemma frames_handle_transform step : frames (_handle_transform external step).
Proof. unfold _handle_transform. frames_tac. Qed.

Lemma frames_handle_webhook step : frames (_handle_webhook external step).
Proof. unfold _handle_webhook. frames_tac. Qed.

Lemma frames_handle_email step : frames (_handle_email step).
Proof. unfold _handle_email. frames_tac. Qed.

Lemma frames_handle_notification step :
  frames (_handle_notification broadcast_raises step).
Proof.
  unfold _handle_notification. frames_tac.
Qed.

Section AnyExec.

Variable exec : value -> M value.

Hypothesis exec_frames : forall step, frames (exec step).

Lemma frames_loop_body loop_steps results : frames (loop_body exec loop_steps results).
Proof.
  revert results. induction loop_steps as [|s loop_steps IH]; intros results;
    cbn [loop_body]; frames_tac. apply exec_frames. apply IH.
Qed.

Lemma frames_loop_items loop_steps items results :
  frames (loop_items exec loop_steps items results).
Proof.
  revert results. induction items as [|item items IH]; intros results;
    cbn [loop_items]; frames_tac. apply frames_loop_body. apply IH.
Qed.

Lemma frames_gather steps : frames (gather exec steps).
Proof.
  induction steps as [|s steps IH]; cbn [gather]; frames_tac. apply exec_frames.
Qed.

Lemma frames_handle_loop step : frames (_handle_loop exec step).
Proof. unfold _handle_loop. frames_tac. apply frames_loop_items. Qed.

Lemma frames_handle_parallel step : frames (_handle_parallel exec step).
Proof. unfold _handle_parallel. frames_tac. apply frames_gather. Qed.

Lemma frames_step_handlers step_type handler step :
  step_handlers py_eval external broadcast_raises exec step_type = Some handler ->
  frames (handler step).
Proof.
  unfold step_handlers.
  repeat match goal with
         | |- (if ?b then _ else _) = _ -> _ => destruct b
         end; intros E; try discriminate; injection E as <-.
  - apply frames_handle_agent_task.
  - apply frames_handle_api_call.
  - apply frames_handle_condition.
  - apply frames_handle_loop.
  - apply frames_handle_parallel.
  - apply frames_handle_wait.
  - apply frames_handle_transform.
  - apply frames_handle_webhook.
  - apply frames_handle_email.
  - apply frames_handle_notification.
Qed.

End AnyExec.

Lemma execute_step_unfold (depth : nat) (step : value) :
  _execute_step py_eval external broadcast_raises (S depth) step
  = (id_value <- lift (getitem step "id") ;;
     let id := as_key id_value in
     _ <- get_step_context id ;;
     let step_type := as_key (get_default step "type" (VStr "agent_task")) in
     catch
       (set_step_status id RUNNING ;;;
        _update_step_status broadcast_raises id ;;;
        result <-
          match step_handlers py_eval external broadcast_raises
                  (_execute_step py_eval external broadcast_raises depth) step_type with
          | Some handler => handler step
          | None => raise (Exn "ValueError" ("Unknown step type: " +:+ step_type))
          end ;;
        update_step id (sc_with_results result) ;;;
        set_step_status id COMPLETED ;;;
        (if has_key step "output_variable"
         then set_variable (as_key (get_default step "output_variable" VNone)) result
         else ret tt) ;;;
        _update_step_status broadcast_raises id ;;;
        ret result)
       (fun e =>
          set_step_status id FAILED ;;;
          update_step id (sc_with_error (Some (exn_msg e))) ;;;
          _update_step_status broadcast_raises id ;;;
          raise e)).
Proof. reflexivity. Qed.

Lemma frames_execute_step (depth : nat) :
  forall step, frames (_execute_step py_eval external broadcast_raises depth step).
Proof.
  induction depth as [|depth IH]; intros step; [apply frames_raise|].
  rewrite execute_step_unfold. frames_tac;
    try apply frames_update_step_status.
  eapply frames_step_handlers; [exact IH | eassumption].
Qed.

(** *** What the primitives do to a step context *)



Lemma update_step_spec (id : string) (f : StepContext -> StepContext) (st : state) :
  exists st',
    update_step id f st = (Ok tt, st')
    /\ Dict.get id (step_contexts (context st'))
       = f <$> Dict.get id (step_contexts (context st))
    /\ history st' = history st.
Proof.
  unfold update_step, modify_context. eexists. split; [reflexivity|].
  cbn [context history]. split; [|reflexivity].
  destruct (Dict.get id (step_contexts (context st))) as [sc|] eqn:Hget.
  - cbn [with_step_contexts step_contexts]. now rewrite DictFacts.get_set_eq.
  - now rewrite Hget.
Qed.

Lemma set_step_status_spec (id : string) (s : StepStatus) (st : state) :
  exists st',
    set_step_status id s st = (Ok tt, st')
    /\ Dict.get id (step_contexts (context st'))
       = sc_with_status s <$> Dict.get id (step_contexts (context st)).
Proof.
  unfold set_step_status.
  destruct (update_step_spec id (sc_with_status s)
              {| context := context st; broadcast_calls := broadcast_calls st;
                 outbox := outbox st; history := (history st ++ [(id, s)])%list |})
    as (st' & Hrun & Hget & _).
  exists st'. split; [exact Hrun | exact Hget].
Qed.

Lemma update_step_status_context (id : string) (st : state) :
  context (_update_step_status broadcast_raises id st).2 = context st
  /\ ((_update_step_status broadcast_raises id st).1 = Ok tt ->
      exists sc, Dict.get id (step_contexts (context st)) = Some sc).
Proof.
  unfold _update_step_status, get_step_context, bind, get_context, ret, lift.
  destruct (Dict.get id (step_contexts (context st))) as [sc|]; cbn [key_error].
  - unfold broadcast_to_user. destruct (broadcast_raises (broadcast_calls st));
      cbn [fst snd context]; split; eauto.
  - cbn [fst snd]. split; [reflexivity | discriminate].
Qed.

(** A step that returns is marked completed and holds the result
    returned. *)
Lemma execute_step_Ok (depth : nat) (step v : value) (st st' : state) :
  _execute_step py_eval external broadcast_raises depth step st = (Ok v, st') ->
  exists id_value sc,
    getitem step "id" = Ok id_value
    /\ Dict.get (as_key id_value) (step_contexts (context st')) = Some sc
    /\ step_status sc = COMPLETED
    /\ step_results sc = v.
Proof.
  destruct depth as [|depth]; [discriminate|].
  rewrite execute_step_unfold. intros Hrun.
  apply bind_Ok in Hrun as (id_value & st0 & Hid & Hrun).
  unfold lift in Hid. injection Hid as Hid <-.
  exists id_value. cbv zeta in Hrun. set (id := as_key id_value) in *.
  apply bind_Ok in Hrun as (sc0 & st1 & _ & Hrun).
  apply catch_Ok in Hrun as [Hrun|(e & st2 & _ & Hrun)].
  2:{ (* the handler ends in [raise] *)
      apply bind_Ok in Hrun as (? & ? & _ & Hrun).
      apply bind_Ok in Hrun as (? & ? & _ & Hrun).
      apply bind_Ok in Hrun as (? & ? & _ & Hrun). discriminate. }
  apply bind_Ok in Hrun as (? & s1 & _ & Hrun).
  apply bind_Ok in Hrun as (? & s2 & _ & Hrun).
  apply bind_Ok in Hrun as (result & s3 & _ & Hrun).
  apply bind_Ok in Hrun as (? & s4 & Hresults & Hrun).
  apply bind_Ok in Hrun as (? & s5 & Hstatus & Hrun).
  apply bind_Ok in Hrun as (? & s6 & Hvar & Hrun).
  apply bind_Ok in Hrun as (? & s7 & Hbroadcast & Hrun).
  injection Hrun as <- <-.
  destruct (update_step_spec id (sc_with_results result) s3) as (s4' & E4 & Hget4 & _).
  rewrite E4 in Hresults. injection Hresults as _ ->.
  destruct (set_step_status_spec id COMPLETED s4) as (s5' & E5 & Hget5).
  rewrite E5 in Hstatus. injection Hstatus as _ ->.
  assert (Hctx6 : step_contexts (context s6) = step_contexts (context s5)).
  { destruct (has_key step "output_variable").
    - unfold set_variable, modify_context in Hvar. now injection Hvar as _ <-.
    - now injection Hvar as _ <-. }
  destruct (update_step_status_context id s6) as [Hctx7 Hsome].
  rewrite Hbroadcast in Hctx7, Hsome. cbn [fst snd] in Hctx7, Hsome.
  destruct x4. destruct (Hsome eq_refl) as [sc Hsc].
  exists sc. split; [exact Hid|]. rewrite Hctx7. split; [exact Hsc|].
  rewrite Hctx6, Hget5, Hget4 in Hsc.
  destruct (Dict.get id (step_contexts (context s3))) as [sc3|]; [|discriminate].
  cbn in Hsc. injection Hsc as <-. now split.
Qed.


(** *** The drivers *)

Lemma frames_should_skip_step step : frames (_should_skip_step py_eval step).
Proof. unfold _should_skip_step. frames_tac. Qed.

Lemma frames_mark_step_skipped id : frames (_mark_step_skipped broadcast_raises id).
Proof. unfold _mark_step_skipped. frames_tac. Qed.

Lemma frames_handle_step_error id e : frames (_handle_step_error broadcast_raises id e).
Proof. unfold _handle_step_error. frames_tac. Qed.

(** After a step that returned, the sequential driver finds it completed:
    the handling of failures is not reached. *)
Lemma sequential_body_frames (depth : nat) (step id_value : value) :
  getitem step "id" = Ok id_value ->
  frames
    (_ <- _execute_step py_eval external broadcast_raises depth step ;;
     modify_context
       (fun c => with_completed_steps
                   (completed_steps c ++ [as_key id_value])%list c) ;;;
     sc <- get_step_context (as_key id_value) ;;
     if step_status_eqb (step_status sc) FAILED
     then _handle_step_failure py_eval external broadcast_raises depth step
     else ret tt).
Proof.
  intros Hid.
  apply frames_bind_dep; [apply frames_execute_step|].
  intros st v st1 Hrun.
  destruct (execute_step_Ok depth step v st st1 Hrun)
    as (id_value' & sc & Hid' & Hsc & Hstatus & _).
  rewrite Hid in Hid'. injection Hid' as <-.
  cbv [bind modify_context get_step_context get_context ret lift].
  cbn [context with_completed_steps step_contexts].
  rewrite Hsc, Hstatus. reflexivity.
Qed.

Lemma sequential_step_frames (depth : nat) (step id_value : value) :
  getitem step "id" = Ok id_value ->
  frames
    (catch
       (_ <- _execute_step py_eval external broadcast_raises depth step ;;
        modify_context
          (fun c => with_completed_steps
                      (completed_steps c ++ [as_key id_value])%list c) ;;;
        sc <- get_step_context (as_key id_value) ;;
        if step_status_eqb (step_status sc) FAILED
        then _handle_step_failure py_eval external broadcast_raises depth step
        else ret tt)
       (fun e => _handle_step_error broadcast_raises (as_key id_value) e)).
Proof.
  intros Hid. apply frames_catch; [|intros e; apply frames_handle_step_error].
  now apply sequential_body_frames.
Qed.

Lemma frames_bind_lift {A B} (r : result A) (k : A -> M B) :
  (forall a, r = Ok a -> frames (k a)) -> frames (bind (lift r) k).
Proof.
  intros Hk st. unfold bind, lift. destruct r as [a|e]; [|reflexivity].
  now apply Hk.
Qed.

Lemma frames_execute_sequential_steps (depth : nat) (steps : list value) :
  frames (_execute_sequential_steps py_eval external broadcast_raises depth steps).
Proof.
  induction steps as [|step steps IH]; cbn [_execute_sequential_steps];
    [apply frames_ret|].
  apply frames_bind; [apply frames_get_context|]. intros c.
  destruct (stopped (status c)); [apply frames_ret|].
  apply frames_bind_lift. intros id_value Hid. cbv zeta.
  apply frames_bind; [frames_tac|]. intros _.
  apply frames_bind; [apply frames_should_skip_step|]. intros skip.
  apply frames_bind; [|intros _; exact IH].
  destruct skip; [apply frames_mark_step_skipped|].
  now apply sequential_step_frames.
Qed.

Lemma frames_execute_conditional_steps (depth : nat) (steps : list value) :
  frames (_execute_conditional_steps py_eval external broadcast_raises depth steps).
Proof.
  induction steps as [|step steps IH]; cbn [_execute_conditional_steps];
    [apply frames_ret|].
  frames_tac; try apply frames_execute_step; try apply frames_mark_step_skipped.
Qed.

Lemma frames_parallel_errors (group results : list value) :
  frames (parallel_errors broadcast_raises group results).
Proof.
  revert results. induction group as [|step group IH]; intros [|r results];
    cbn [parallel_errors]; try apply frames_ret.
  apply frames_bind; [|intros _; apply IH].
  destruct r; try apply frames_ret.
  apply frames_bind; [apply frames_lift|]. intros id_value.
  apply frames_handle_step_error.
Qed.

Lemma frames_execute_parallel_steps (depth : nat) (steps : list value) :
  frames (_execute_parallel_steps py_eval external broadcast_raises depth steps).
Proof.
  unfold _execute_parallel_steps.
  apply frames_bind; [apply frames_get_context|]. intros c.
  destruct (stopped (status c)); [apply frames_ret|].
  apply frames_bind; [apply frames_gather, frames_execute_step|]. intros results.
  apply frames_parallel_errors.
Qed.

End Frames.

(** *** The whole execution *)

Lemma counters_bind {A B} (m : M A) (k : A -> M B) :
  (forall st, counters (m st).2 = counters st) ->
  (forall a st, counters (k a st).2 = counters st) ->
  forall st, counters (bind m k st).2 = counters st.
Proof.
  intros Hm Hk st. unfold bind. specialize (Hm st).
  destruct (m st) as [[a|e] st1]; cbn [snd] in *; [|exact Hm].
  now rewrite Hk.
Qed.

Lemma counters_catch {A} (body : M A) (handler : exn -> M A) :
  (forall st, counters (body st).2 = counters st) ->
  (forall e st, counters (handler e st).2 = counters st) ->
  forall st, counters (catch body handler st).2 = counters st.
Proof.
  intros Hb Hh st. unfold catch. specialize (Hb st).
  destruct (body st) as [[a|e] st1]; cbn [snd] in *; [exact Hb|].
  now rewrite Hh.
Qed.

Lemma counters_modify_context (f : ExecutionContext -> ExecutionContext) :
  (forall c, step_contexts (f c) = step_contexts c) ->
  forall st, counters (modify_context f st).2 = counters st.
Proof. intros Hf st. unfold counters, modify_context. cbn [snd context]. now rewrite Hf. Qed.

Lemma counters_frames {A} (m : M A) :
  frames m -> forall st, counters (m st).2 = counters st.
Proof. intros Hm st. apply kept_counters, Hm. Qed.

Section Execution.

Variable py_eval : string -> list (string * binding) -> result value.

Variable external : string -> value -> dict -> result value.

Variable broadcast_raises : nat -> bool.

Lemma update_execution_status_context (st : state) :
  context (_update_execution_status broadcast_raises st).2 = context st.
Proof.
  unfold _update_execution_status, bind, get_context, broadcast_to_user.
  now destruct (broadcast_raises (broadcast_calls st)).
Qed.

Lemma frames_dispatch (depth : nat) (workflow_type : string) (steps : list value) :
  frames
    (if String.eqb workflow_type "sequential"
     then _execute_sequential_steps py_eval external broadcast_raises depth steps
     else if String.eqb workflow_type "parallel"
     then _execute_parallel_steps py_eval external broadcast_raises depth steps
     else if String.eqb workflow_type "conditional"
     then _execute_conditional_steps py_eval external broadcast_raises depth steps
     else _execute_sequential_steps py_eval external broadcast_raises depth steps).
Proof.
  repeat match goal with
         | |- frames (if ?b then _ else _) => destruct b
         end;
    first [ apply frames_execute_sequential_steps
          | apply frames_execute_parallel_steps
          | apply frames_execute_conditional_steps ].
Qed.

Lemma execute_workflow_counters (depth : nat) (st : state) :
  counters (_execute_workflow_async py_eval external broadcast_raises depth st).2
  = counters st.
Proof.
  revert st. unfold _execute_workflow_async.
  assert (Hupdate : forall st,
             counters (_update_execution_status broadcast_raises st).2 = counters st).
  { intros st. unfold counters. now rewrite update_execution_status_context. }
  apply counters_catch.
  - apply counters_bind; [now apply counters_modify_context|]. intros _.
    apply counters_bind; [exact Hupdate|]. intros _.
    apply counters_bind; [reflexivity|]. intros c. cbv zeta.
    destruct (match get_default (workflow_data c) "steps" (VList []) with
              | VList l => l
              | _ => []
              end) as [|step steps].
    + apply counters_bind; [now apply counters_modify_context|]. intros _.
      exact Hupdate.
    + apply counters_bind; [apply counters_frames, frames_dispatch|]. intros _.
      apply counters_bind; [now apply counters_modify_context|]. intros _.
      exact Hupdate.
  - intros e.
    apply counters_bind; [now apply counters_modify_context|]. intros _.
    apply counters_bind; [now apply counters_modify_context|]. intros _.
    exact Hupdate.
Qed.


End Execution.

Lemma get_counters (st st' : state) (id : string) (sc' : StepContext) :
  counters st' = counters st ->
  Dict.get id (step_contexts (context st')) = Some sc' ->
  exists sc, Dict.get id (step_contexts (context st)) = Some sc
             /\ retry_count sc' = retry_count sc
             /\ max_retries sc' = max_retries sc.
Proof.
  unfold counters.
  generalize (step_contexts (context st')), (step_contexts (context st)).
  intros d'. induction d' as [|[k' v'] d' IH]; intros [|[k v] d] E Hget;
    try discriminate.
  cbn [map fst snd] in E. injection E as -> Hr Hm E.
  cbn [Dict.get] in *. destruct (String.eqb id k).
  - injection Hget as <-. eauto.
  - now apply IH.
Qed.

(** X15.  Whatever the workflow, the state it is started in, the evaluator,
    the outside world and the broadcasts do, an execution retries no step:
    when [_execute_workflow_async] is over the step contexts are under the
    same ids, in the same order, and each has the retry count and the limit
    it had at the start.  The retry of [_handle_step_failure] is not
    reached. *)
Theorem no_step_is_ever_retried
        (py_eval : string -> list (string * binding) -> result value)
        (external : string -> value -> dict -> result value)
        (broadcast_raises : nat -> bool) (depth : nat) (st : state) :
  let st' := (_execute_workflow_async py_eval external broadcast_raises depth st).2 in
  Dict.keys (step_contexts (context st')) = Dict.keys (step_contexts (context st))
  /\ forall id sc',
       Dict.get id (step_contexts (context st')) = Some sc' ->
       exists sc, Dict.get id (step_contexts (context st)) = Some sc
                  /\ retry_count sc' = retry_count sc
                  /\ max_retries sc' = max_retries sc.
Proof.
  cbn zeta.
  pose proof (execute_workflow_counters py_eval external broadcast_raises depth st)
    as Hframe.
  split.
  - apply (f_equal (map fst)) in Hframe. unfold counters in Hframe.
    rewrite !map_map in Hframe. exact Hframe.
  - intros id sc'. now apply get_counters.
Qed.

(** X16.  The three drivers of the steps, and the execution of one step,
    never change the status of the execution or its error: a step that
    fails, whatever its [on_failure] says, does not mark the execution
    failed, and the test of the status at the head of each driver's loop
    finds what the driver was started with. *)
Theorem step_failures_leave_the_execution_status
        (py_eval : string -> list (string * binding) -> result value)
        (external : string -> value -> dict -> result value)
        (broadcast_raises : nat -> bool) (depth : nat) (steps : list value)
        (step : value) (st : state) :
  let unchanged (st' : state) :=
    status (context st') = status (context st)
    /\ error (context st') = error (context st) in
  unchanged (_execute_sequential_steps py_eval external broadcast_raises depth steps st).2
  /\ unchanged (_execute_parallel_steps py_eval external broadcast_raises depth steps st).2
  /\ unchanged (_execute_conditional_steps py_eval external broadcast_raises depth steps st).2
  /\ unchanged (_execute_step py_eval external broadcast_raises depth step st).2.
Proof.
  cbn zeta.
  pose proof (frames_execute_sequential_steps py_eval external broadcast_raises
                depth steps st) as Hs.
  pose proof (frames_execute_parallel_steps py_eval external broadcast_raises
                depth steps st) as Hp.
  pose proof (frames_execute_conditional_steps py_eval external broadcast_raises
                depth steps st) as Hc.
  pose proof (frames_execute_step py_eval external broadcast_raises depth step st)
    as He.
  repeat split; first [ now apply kept_status | now apply kept_error ].
Qed.


(** *** Executions whose broadcasts go through *)

Section Reliable.

Variable py_eval : string -> list (string * binding) -> result value.

Variable external : string -> value -> dict -> result value.










End Reliable.








End OrchestratorFacts.

(** ** Validation of visual workflows *)

Module VisualFacts.
Import Visual.

Lemma keys_set_elem {V} (d : list (string * V)) (k k' : string) (v : V) :
  k' ∈ Dict.keys (Dict.set k v d) <-> k' = k \/ k' ∈ Dict.keys d.
Proof.
  destruct (decide (k ∈ Dict.keys d)) as [Hin|Hout].
  - rewrite DictFacts.keys_set_present by assumption.
    split; [now right | intros [->|H]; assumption].
  - rewrite DictFacts.keys_set_absent by assumption.
    rewrite elem_of_app, list_elem_of_singleton. tauto.
Qed.

Lemma keys_set_length {V} (d : list (string * V)) (k : string) (v : V) :
  (length (Dict.keys (Dict.set k v d)) <= S (length (Dict.keys d)))%nat.
Proof.
  destruct (decide (k ∈ Dict.keys d)) as [Hin|Hout].
  - rewrite DictFacts.keys_set_present by assumption. lia.
  - rewrite DictFacts.keys_set_absent by assumption. rewrite length_app. cbn. lia.
Qed.

(** *** The graph that [_has_cycles] builds *)

Lemma empty_graph_fold (nodes : list Node) (g : list (string * list string)) :
  NoDup (Dict.keys g) ->
  (forall a ns, Dict.get a g = Some ns -> ns = []) ->
  let g' := fold_left (fun g node => Dict.set (node_id node) [] g) nodes g in
  NoDup (Dict.keys g')
  /\ (forall k, k ∈ Dict.keys g' <-> k ∈ Dict.keys g \/ k ∈ map node_id nodes)
  /\ (forall a ns, Dict.get a g' = Some ns -> ns = [])
  /\ (length (Dict.keys g') <= length (Dict.keys g) + length nodes)%nat.
Proof.
  revert g. induction nodes as [|node nodes IH]; intros g Hnd Hempty; cbn [fold_left].
  - cbn. repeat split; try assumption; try lia.
    + now left.
    + intros [H|H]; [assumption | now apply elem_of_nil in H].
  - destruct (IH (Dict.set (node_id node) [] g)) as (H1 & H2 & H3 & H4).
    + now apply DictFacts.keys_set_NoDup.
    + intros a ns. destruct (decide (node_id node = a)) as [<-|Hne].
      * rewrite DictFacts.get_set_eq. congruence.
      * rewrite DictFacts.get_set_ne by assumption. apply Hempty.
    + cbn zeta. split; [exact H1|]. split; [|split; [exact H3|]].
      * intros k. rewrite H2, keys_set_elem. cbn [map]. rewrite elem_of_cons. tauto.
      * pose proof (keys_set_length g (node_id node) []). cbn [length]. lia.
Qed.

Lemma empty_graph_spec (nodes : list Node) :
  NoDup (Dict.keys (empty_graph nodes))
  /\ (forall k, k ∈ Dict.keys (empty_graph nodes) <-> k ∈ map node_id nodes)
  /\ (forall a ns, Dict.get a (empty_graph nodes) = Some ns -> ns = [])
  /\ (length (Dict.keys (empty_graph nodes)) <= length nodes)%nat.
Proof.
  destruct (empty_graph_fold nodes []) as (H1 & H2 & H3 & H4).
  - constructor.
  - discriminate.
  - repeat split; try assumption.
    + intros H. apply H2 in H as [H|H]; [now apply elem_of_nil in H | exact H].
    + intros H. apply H2. now right.
Qed.

Lemma add_edge_records (g : list (string * list string)) (done : list Edge) (e : Edge) :
  records g done ->
  source e ∈ Dict.keys g ->
  exists g', add_edge g e = Ok g'
             /\ Dict.keys g' = Dict.keys g
             /\ records g' (done ++ [e]).
Proof.
  intros [Hsound Hcomplete] Hsrc. unfold add_edge.
  destruct (DictFacts.keys_get g (source e) Hsrc) as [targets Hget]. rewrite Hget.
  eexists. split; [reflexivity|]. split; [now apply DictFacts.keys_set_present|].
  split.
  - intros a ns b Ha Hb. destruct (decide (source e = a)) as [<-|Hne].
    + rewrite DictFacts.get_set_eq in Ha. injection Ha as <-.
      apply elem_of_app in Hb as [Hb|Hb].
      * destruct (Hsound _ _ _ Hget Hb) as (e' & He' & Hs & Ht).
        exists e'. rewrite elem_of_app. auto.
      * apply list_elem_of_singleton in Hb as ->. exists e.
        rewrite elem_of_app, list_elem_of_singleton. auto.
    + rewrite DictFacts.get_set_ne in Ha by assumption.
      destruct (Hsound _ _ _ Ha Hb) as (e' & He' & Hs & Ht).
      exists e'. rewrite elem_of_app. auto.
  - intros e' He'. apply elem_of_app in He' as [He'|He'].
    + destruct (Hcomplete e' He') as (ns & Hns & Hin).
      destruct (decide (source e = source e')) as [E|Hne].
      * rewrite <- E, DictFacts.get_set_eq. eexists. split; [reflexivity|].
        rewrite <- E, Hget in Hns. injection Hns as <-.
        apply elem_of_app. now left.
      * rewrite DictFacts.get_set_ne by assumption. eauto.
    + apply list_elem_of_singleton in He' as ->.
      rewrite DictFacts.get_set_eq. eexists. split; [reflexivity|].
      apply elem_of_app. right. now apply list_elem_of_singleton.
Qed.

Lemma build_graph_fold (edges done : list Edge) (g : list (string * list string)) :
  records g done ->
  (forall e, e ∈ edges -> source e ∈ Dict.keys g) ->
  exists g',
    fold_left (fun acc edge => rbind acc (fun g => add_edge g edge)) edges (Ok g) = Ok g'
    /\ Dict.keys g' = Dict.keys g
    /\ records g' (done ++ edges).
Proof.
  revert done g. induction edges as [|e edges IH]; intros done g Hrec Hsrc;
    cbn [fold_left].
  - exists g. rewrite app_nil_r. auto.
  - destruct (add_edge_records g done e Hrec) as (g1 & Hadd & Hkeys & Hrec1).
    { apply Hsrc. apply list_elem_of_here. }
    cbn [rbind]. rewrite Hadd.
    destruct (IH (done ++ [e])%list g1 Hrec1) as (g' & Hfold & Hkeys' & Hrec').
    { intros e' He'. rewrite Hkeys. apply Hsrc. now apply list_elem_of_further. }
    exists g'. split; [exact Hfold|]. split; [congruence|].
    now rewrite <- app_assoc in Hrec'.
Qed.

(** When the sources of all edges are nodes, the graph is built, its keys are
    the node ids, and it records the edges. *)
Lemma build_graph_spec (nodes : list Node) (edges : list Edge) :
  (forall e, e ∈ edges -> source e ∈ map node_id nodes) ->
  exists g,
    build_graph nodes edges = Ok g
    /\ NoDup (Dict.keys g)
    /\ (forall k, k ∈ Dict.keys g <-> k ∈ map node_id nodes)
    /\ (length (Dict.keys g) <= length nodes)%nat
    /\ records g edges.
Proof.
  intros Hsrc.
  destruct (empty_graph_spec nodes) as (Hnd & Hkeys & Hempty & Hlen).
  destruct (build_graph_fold edges [] (empty_graph nodes)) as (g & Hg & Hk & Hrec).
  - split.
    + intros a ns b Ha Hb. apply Hempty in Ha as ->. now apply elem_of_nil in Hb.
    + intros e He. now apply elem_of_nil in He.
  - intros e He. apply Hkeys. now apply Hsrc.
  - exists g. unfold build_graph. rewrite Hg, Hk. auto.
Qed.

(** *** The search *)

Lemma unvisited_mono (g : list (string * list string)) (V V' : gset string) :
  V ⊆ V' -> (unvisited g V' <= unvisited g V)%nat.
Proof.
  intros Hsub. unfold unvisited.
  induction (Dict.keys g) as [|k ks IH]; cbn [List.filter length]; [lia|].
  destruct (bool_decide_reflect (k ∉ V')) as [H'|H'];
    destruct (bool_decide_reflect (k ∉ V)) as [H|H]; cbn [length]; try lia.
  exfalso. apply H. intros Hk. apply H'. now apply Hsub.
Qed.

Lemma unvisited_visit (g : list (string * list string)) (V : gset string)
      (node : string) :
  node ∈ Dict.keys g -> node ∉ V ->
  (unvisited g ({[node]} ∪ V) < unvisited g V)%nat.
Proof.
  intros Hin Hout. unfold unvisited.
  induction (Dict.keys g) as [|k ks IH]; [now apply elem_of_nil in Hin|].
  cbn [List.filter].
  assert (Hle : (length (List.filter (fun k => bool_decide (k ∉ {[node]} ∪ V)) ks)
                 <= length (List.filter (fun k => bool_decide (k ∉ V)) ks))%nat).
  { clear. induction ks as [|k ks IH]; cbn [List.filter length]; [lia|].
    destruct (bool_decide_reflect (k ∉ {[node]} ∪ V)) as [H'|H'];
      destruct (bool_decide_reflect (k ∉ V)) as [H|H]; cbn [length]; try lia.
    exfalso. set_solver. }
  apply elem_of_cons in Hin as [<-|Hin].
  - destruct (bool_decide_reflect (node ∉ {[node]} ∪ V)) as [H'|H']; [set_solver|].
    destruct (bool_decide_reflect (node ∉ V)) as [H|H]; [|contradiction].
    cbn [length]. lia.
  - specialize (IH Hin).
    destruct (bool_decide_reflect (k ∉ {[node]} ∪ V)) as [H'|H'];
      destruct (bool_decide_reflect (k ∉ V)) as [H|H]; cbn [length]; try lia.
    exfalso. set_solver.
Qed.

Section Search.

Variable g : list (string * list string).
Hypothesis g_closed : closed_graph g.

(** The loop over the neighbours of [node], given that [rec] behaves as the
    search is meant to on every unvisited key. *)
Lemma visit_spec (rec : string -> marks -> result (bool * marks))
      (node : string) (S1 : gset string) (bound : nat) :
  (forall n V, (unvisited g V <= bound)%nat -> settled g (V, S1) ->
               n ∈ Dict.keys g -> n ∉ V ->
               exists b V' S',
                 rec n (V, S1) = Ok (b, (V', S'))
                 /\ (b = false ->
                     S' = S1 /\ V ⊆ V' /\ n ∈ V' /\ settled g (V', S1))) ->
  forall rest V,
    (forall n, n ∈ rest -> n ∈ Dict.keys g) ->
    (unvisited g V <= bound)%nat ->
    settled g (V, S1) ->
    exists b V' S',
      visit rec node rest (V, S1) = Ok (b, (V', S'))
      /\ (b = false ->
          S' = S1 ∖ {[node]} /\ V ⊆ V' /\ settled g (V', S1)
          /\ forall n, n ∈ rest -> n ∈ V' /\ n ∉ S1).
Proof.
  intros Hrec. induction rest as [|neighbor rest IH]; intros V Hkeys Hbound Hset.
  - exists false, V, (S1 ∖ {[node]}). split; [reflexivity|]. intros _.
    split; [reflexivity|]. split; [reflexivity|]. split; [exact Hset|].
    intros n Hn. now apply elem_of_nil in Hn.
  - cbn [visit fst snd].
    assert (Hrest : forall n, n ∈ rest -> n ∈ Dict.keys g)
      by (intros n Hn; apply Hkeys; now apply list_elem_of_further).
    destruct (decide (neighbor ∉ V)) as [Hnew|Hold].
    + destruct (Hrec neighbor V Hbound Hset) as (b & V2 & S2 & Hcall & Hfalse);
        [apply Hkeys, list_elem_of_here | exact Hnew |].
      rewrite Hcall. destruct b.
      * exists true, V2, S2. split; [reflexivity | discriminate].
      * destruct (Hfalse eq_refl) as (-> & Hsub & Hin & Hset2).
        destruct (IH V2 Hrest) as (b & V' & S' & Hvisit & Hdone).
        { pose proof (unvisited_mono g V V2 Hsub). lia. }
        { exact Hset2. }
        exists b, V', S'. split; [exact Hvisit|].
        intros Hb. destruct (Hdone Hb) as (HS & Hsub' & Hset' & Hall).
        split; [exact HS|]. split; [now transitivity V2|]. split; [exact Hset'|].
        intros n Hn. apply elem_of_cons in Hn as [->|Hn]; [|now apply Hall].
        split; [now apply Hsub'|].
        intros Hstack. apply Hnew. destruct Hset as [Hsv _]. now apply Hsv.
    + destruct (decide (neighbor ∈ S1)) as [Hstack|Hoff].
      * exists true, V, S1. split; [reflexivity | discriminate].
      * destruct (IH V Hrest Hbound Hset) as (b & V' & S' & Hvisit & Hdone).
        exists b, V', S'. split; [exact Hvisit|].
        intros Hb. destruct (Hdone Hb) as (HS & Hsub' & Hset' & Hall).
        split; [exact HS|]. split; [exact Hsub'|]. split; [exact Hset'|].
        intros n Hn. apply elem_of_cons in Hn as [->|Hn]; [|now apply Hall].
        split; [|exact Hoff].
        apply Hsub'. destruct (decide (neighbor ∈ V)); [assumption | contradiction].
Qed.

(** [dfs] on an unvisited key, with depth enough for the keys still
    unvisited: it does not raise, and when it answers [False] the stack is
    what it was and every node it visited is accessible. *)
Lemma dfs_spec (depth : nat) :
  forall node V S,
    (unvisited g V <= depth)%nat ->
    settled g (V, S) ->
    node ∈ Dict.keys g ->
    node ∉ V ->
    exists b V' S',
      dfs depth g node (V, S) = Ok (b, (V', S'))
      /\ (b = false -> S' = S /\ V ⊆ V' /\ node ∈ V' /\ settled g (V', S)).
Proof.
  induction depth as [|depth IH]; intros node V S Hbound Hset Hkey Hnew.
  - pose proof (unvisited_visit g V node Hkey Hnew). lia.
  - cbn [dfs fst snd].
    destruct (DictFacts.keys_get g node Hkey) as [ns Hns]. rewrite Hns.
    destruct Hset as [Hsv Hacc]. cbn [fst snd] in Hsv, Hacc.
    assert (Hout : node ∉ S) by (intros H; apply Hnew; now apply Hsv).
    assert (Hset1 : settled g ({[node]} ∪ V, {[node]} ∪ S)).
    { split; cbn [fst snd].
      - clear -Hsv. set_solver.
      - intros x Hx Hx'. apply Hacc.
        + clear -Hx Hx'. set_solver.
        + clear -Hx'. set_solver. }
    pose proof (visit_spec (dfs depth g) node ({[node]} ∪ S) depth) as Hvisit.
    destruct (Hvisit (fun n V0 Hb0 Hs0 Hk0 Hn0 => IH n V0 _ Hb0 Hs0 Hk0 Hn0)
                     ns ({[node]} ∪ V))
      as (b & V' & S' & Hrun & Hdone).
    + intros n Hn. now apply (g_closed node ns).
    + pose proof (unvisited_visit g V node Hkey Hnew). lia.
    + exact Hset1.
    + exists b, V', S'. split; [exact Hrun|].
      intros Hb. destruct (Hdone Hb) as (HS & Hsub & [Hsv' Hacc'] & Hall).
      cbn [fst snd] in Hsv', Hacc'.
      assert (Hin : node ∈ V') by (clear -Hsub; set_solver).
      assert (Hsv2 : S ⊆ V') by (clear -Hsv'; set_solver).
      split; [rewrite HS; clear -Hout; set_solver|].
      split; [clear -Hsub; set_solver|]. split; [exact Hin|].
      split; cbn [fst snd]; [exact Hsv2|].
      intros x Hx Hx'. destruct (decide (x = node)) as [->|Hne].
      * constructor. intros y (ns' & Hns' & Hy).
        rewrite Hns in Hns'. injection Hns' as <-.
        destruct (Hall y Hy) as [Hy1 Hy2]. now apply Hacc'.
      * apply Hacc'; [exact Hx|]. clear -Hx' Hne. set_solver.
Qed.

Lemma search_spec (depth : nat) :
  forall roots V,
    (forall r, r ∈ roots -> r ∈ Dict.keys g) ->
    (unvisited g V <= depth)%nat ->
    settled g (V, ∅) ->
    exists b,
      search depth g roots (V, ∅) = Ok b
      /\ (b = false ->
          exists V', V ⊆ V' /\ settled g (V', ∅) /\ forall r, r ∈ roots -> r ∈ V').
Proof.
  induction roots as [|node rest IH]; intros V Hkeys Hbound Hset.
  - exists false. split; [reflexivity|]. intros _. exists V.
    split; [reflexivity|]. split; [exact Hset|].
    intros r Hr. now apply elem_of_nil in Hr.
  - cbn [search fst snd].
    assert (Hrest : forall r, r ∈ rest -> r ∈ Dict.keys g)
      by (intros r Hr; apply Hkeys; now apply list_elem_of_further).
    destruct (decide (node ∉ V)) as [Hnew|Hold].
    + destruct (dfs_spec depth node V ∅ Hbound Hset) as (b & V2 & S2 & Hcall & Hfalse);
        [apply Hkeys, list_elem_of_here | exact Hnew |].
      rewrite Hcall. destruct b.
      * exists true. split; [reflexivity | discriminate].
      * destruct (Hfalse eq_refl) as (-> & Hsub & Hin & Hset2).
        destruct (IH V2 Hrest) as (b & Hsearch & Hdone).
        { pose proof (unvisited_mono g V V2 Hsub). lia. }
        { exact Hset2. }
        exists b. split; [exact Hsearch|].
        intros Hb. destruct (Hdone Hb) as (V' & Hsub' & Hset' & Hall).
        exists V'. split; [now transitivity V2|]. split; [exact Hset'|].
        intros r Hr. apply elem_of_cons in Hr as [->|Hr];
          [now apply Hsub' | now apply Hall].
    + destruct (IH V Hrest Hbound Hset) as (b & Hsearch & Hdone).
      exists b. split; [exact Hsearch|].
      intros Hb. destruct (Hdone Hb) as (V' & Hsub' & Hset' & Hall).
      exists V'. split; [exact Hsub'|]. split; [exact Hset'|].
      intros r Hr. apply elem_of_cons in Hr as [->|Hr]; [|now apply Hall].
      apply Hsub'. destruct (decide (node ∈ V)); [assumption | contradiction].
Qed.

End Search.

(** *** From the search to the absence of cycles *)

Lemma accessible_not_on_a_cycle (edges : list Edge) (g : list (string * list string))
      (x : string) :
  records g edges ->
  Acc (successor g) x ->
  ~ tc (edge_of edges) x x.
Proof.
  intros [_ Hcomplete] Hacc.
  assert (Hstep : forall a b, edge_of edges a b -> successor g b a).
  { intros a b (e & He & <- & <-). now apply Hcomplete. }
  induction Hacc as [x _ IH]. intros Hcycle.
  assert (Hfirst : exists y, edge_of edges x y /\ rtc (edge_of edges) y x).
  { inversion Hcycle as [? ? Hxx|? y ? Hxy Hyx]; subst.
    - exists x. split; [exact Hxx | apply rtc_refl].
    - exists y. split; [exact Hxy | now apply tc_rtc]. }
  destruct Hfirst as (y & Hxy & Hyx).
  apply (IH y (Hstep _ _ Hxy)).
  eapply tc_rtc_l; [exact Hyx|]. now apply tc_once.
Qed.


Lemma valid_edge_spec (nodes : list Node) (e : Edge) :
  valid_edge nodes e = true ->
  source e ∈ map node_id nodes /\ target e ∈ map node_id nodes.
Proof.
  unfold valid_edge. intros H. apply andb_prop in H as [Hs Ht].
  apply existsb_exists in Hs as (n & Hn & Hs), Ht as (n' & Hn' & Ht).
  apply String.eqb_eq in Hs, Ht. split.
  - rewrite <- Hs. apply list_elem_of_fmap. exists n. split; [reflexivity|].
    now apply list_elem_of_In.
  - rewrite <- Ht. apply list_elem_of_fmap. exists n'. split; [reflexivity|].
    now apply list_elem_of_In.
Qed.

(** With depth enough for the nodes, a graph whose edges join nodes and in
    which [_has_cycles] finds nothing has no cycle. *)
Lemma has_cycles_complete (depth : nat) (nodes : list Node) (edges : list Edge) :
  (length nodes <= depth)%nat ->
  (forall e, e ∈ edges -> valid_edge nodes e = true) ->
  _has_cycles depth nodes edges = false ->
  ~ cyclic edges.
Proof.
  intros Hdepth Hvalid Hcheck [x Hcycle].
  destruct (build_graph_spec nodes edges) as (g & Hbuild & Hnd & Hkeys & Hlen & Hrec).
  { intros e He. now apply valid_edge_spec, Hvalid. }
  assert (Hclosed : closed_graph g).
  { intros a ns b Ha Hb. destruct Hrec as [Hsound _].
    destruct (Hsound a ns b Ha Hb) as (e & He & _ & <-).
    apply Hkeys. now apply valid_edge_spec, Hvalid. }
  destruct (search_spec g Hclosed depth (Dict.keys g) ∅) as (b & Hsearch & Hdone).
  - auto.
  - unfold unvisited.
    etransitivity; [apply List.filter_length_le|].
    etransitivity; [exact Hlen | exact Hdepth].
  - split; cbn [fst snd]; [reflexivity|].
    intros y Hy. now apply not_elem_of_empty in Hy.
  - unfold _has_cycles in Hcheck. rewrite Hbuild in Hcheck.
    cbn [rbind] in Hcheck. rewrite Hsearch in Hcheck. cbn [try_except] in Hcheck.
    subst b. destruct (Hdone eq_refl) as (V' & _ & [_ Hacc] & Hall).
    cbn [fst snd] in Hacc.
    apply (accessible_not_on_a_cycle edges g x Hrec); [|exact Hcycle].
    apply Hacc; [|apply not_elem_of_empty]. apply Hall, Hkeys.
    assert (Hfirst : exists y, edge_of edges x y).
    { inversion Hcycle; subst; eauto. }
    destruct Hfirst as (y & e & He & <- & _).
    now apply valid_edge_spec, Hvalid.
Qed.




(** The pipeline is stored; the ring, which has a cycle, is refused. *)
Lemma pipeline_is_stored_and_ring_is_refused :
  is_ok (create_visual_workflow 3 "pipeline" Scenarios.pipeline_nodes
                                Scenarios.pipeline_edges []) = true
  /\ cyclic Scenarios.ring_edges
  /\ create_visual_workflow 3 "ring" Scenarios.pipeline_nodes Scenarios.ring_edges []
     = Raise (Exn "ValueError" "Workflow contains cycles").
Proof.
  split; [vm_compute; reflexivity|]. split; [|vm_compute; reflexivity].
  exists "a".
  assert (Hedge : forall a b,
             {| source := a; target := b |} ∈ Scenarios.ring_edges ->
             edge_of Scenarios.ring_edges a b).
  { intros a b H. now exists {| source := a; target := b |}. }
  apply tc_l with "b"; [apply Hedge; apply list_elem_of_here|].
  apply tc_l with "c";
    [apply Hedge; apply list_elem_of_further, list_elem_of_here|].
  apply tc_once, Hedge.
  apply list_elem_of_further, list_elem_of_further, list_elem_of_here.
Qed.

(** *** Soundness of the search for cycles *)

Section Soundness.

Variable g : list (string * list string).

Lemma visit_sound (rec : string -> marks -> result (bool * marks)) (node : string) :
  (forall n mk0 b mk0',
      rec n mk0 = Ok (b, mk0') ->
      (forall s, s ∈ mk0.2 -> rtc (graph_edge g) s n) ->
      (b = true -> exists x, tc (graph_edge g) x x) /\ (b = false -> mk0'.2 ⊆ mk0.2)) ->
  forall neighbors mk b mk',
    (forall n, n ∈ neighbors -> graph_edge g node n) ->
    (forall s, s ∈ mk.2 -> rtc (graph_edge g) s node) ->
    visit rec node neighbors mk = Ok (b, mk') ->
    (b = true -> exists x, tc (graph_edge g) x x)
    /\ (b = false -> mk'.2 ⊆ mk.2 ∖ {[node]}).
Proof.
  intros Hrec. induction neighbors as [|neighbor rest IH]; intros mk b mk' Hedge Hstack Hrun.
  - cbn [visit] in Hrun. injection Hrun as <- <-. split; [discriminate|].
    intros _. reflexivity.
  - cbn [visit] in Hrun.
    assert (Hrest : forall n, n ∈ rest -> graph_edge g node n)
      by (intros n Hn; apply Hedge; now apply list_elem_of_further).
    assert (Hstep : graph_edge g node neighbor) by apply Hedge, list_elem_of_here.
    destruct (decide (neighbor ∉ mk.1)) as [Hnew|Hold].
    + destruct (rec neighbor mk) as [[[|] mk1]|e] eqn:Hcall; [| |discriminate].
      * injection Hrun as <- <-. split; [|discriminate]. intros _.
        apply (Hrec _ _ _ _ Hcall); [|reflexivity].
        intros s Hs. eapply rtc_r; [now apply Hstack | exact Hstep].
      * destruct (Hrec _ _ _ _ Hcall) as [_ Hsub].
        { intros s Hs. eapply rtc_r; [now apply Hstack | exact Hstep]. }
        specialize (Hsub eq_refl).
        destruct (IH mk1 b mk' Hrest) as [Htrue Hfalse]; [|exact Hrun|].
        { intros s Hs. apply Hstack. now apply Hsub. }
        split; [exact Htrue|]. intros Hb. specialize (Hfalse Hb).
        clear -Hfalse Hsub. set_solver.
    + destruct (decide (neighbor ∈ mk.2)) as [Hon|Hoff].
      * injection Hrun as <- <-. split; [|discriminate]. intros _.
        exists neighbor. eapply tc_rtc_l; [now apply Hstack|]. now apply tc_once.
      * now apply (IH mk b mk' Hrest).
Qed.

Lemma dfs_sound (depth : nat) :
  forall node mk b mk',
    dfs depth g node mk = Ok (b, mk') ->
    (forall s, s ∈ mk.2 -> rtc (graph_edge g) s node) ->
    (b = true -> exists x, tc (graph_edge g) x x) /\ (b = false -> mk'.2 ⊆ mk.2).
Proof.
  induction depth as [|depth IH]; intros node mk b mk' Hrun Hstack; [discriminate|].
  cbn [dfs] in Hrun.
  destruct (Dict.get node g) as [neighbors|] eqn:Hget; [|discriminate].
  destruct (visit_sound (dfs depth g) node IH neighbors
                        ({[node]} ∪ mk.1, {[node]} ∪ mk.2) b mk') as [Htrue Hfalse];
    [| |exact Hrun|].
  - intros n Hn. now exists neighbors.
  - cbn [snd]. intros s Hs. apply elem_of_union in Hs as [Hs|Hs].
    + apply elem_of_singleton in Hs as ->. reflexivity.
    + now apply Hstack.
  - split; [exact Htrue|]. intros Hb. specialize (Hfalse Hb). cbn [snd] in Hfalse.
    clear -Hfalse. set_solver.
Qed.

Lemma search_sound (depth : nat) :
  forall roots mk,
    mk.2 ⊆ ∅ ->
    search depth g roots mk = Ok true ->
    exists x, tc (graph_edge g) x x.
Proof.
  induction roots as [|node rest IH]; intros mk Hempty Hrun; [discriminate|].
  cbn [search] in Hrun.
  destruct (decide (node ∉ mk.1)) as [Hnew|Hold]; [|now apply (IH mk)].
  destruct (dfs depth g node mk) as [[[|] mk1]|e] eqn:Hcall; [| |discriminate].
  - apply (dfs_sound depth _ _ _ _ Hcall); [|reflexivity].
    intros s Hs. apply Hempty in Hs. now apply not_elem_of_empty in Hs.
  - apply (IH mk1); [|exact Hrun].
    destruct (dfs_sound depth _ _ _ _ Hcall) as [_ Hsub].
    + intros s Hs. apply Hempty in Hs. now apply not_elem_of_empty in Hs.
    + etransitivity; [now apply Hsub | exact Hempty].
Qed.

End Soundness.

Lemma add_edge_sound (g g' : list (string * list string)) (done : list Edge) (e : Edge) :
  sound_graph g done ->
  add_edge g e = Ok g' ->
  sound_graph g' (done ++ [e]).
Proof.
  intros Hsound Hadd. unfold add_edge in Hadd.
  destruct (Dict.get (source e) g) as [targets|] eqn:Hget; [|discriminate].
  injection Hadd as <-.
  intros a ns b Ha Hb. destruct (decide (source e = a)) as [<-|Hne].
  - rewrite DictFacts.get_set_eq in Ha. injection Ha as <-.
    apply elem_of_app in Hb as [Hb|Hb].
    + destruct (Hsound _ _ _ Hget Hb) as (e' & He' & Hs & Ht).
      exists e'. rewrite elem_of_app. auto.
    + apply list_elem_of_singleton in Hb as ->. exists e.
      rewrite elem_of_app, list_elem_of_singleton. auto.
  - rewrite DictFacts.get_set_ne in Ha by assumption.
    destruct (Hsound _ _ _ Ha Hb) as (e' & He' & Hs & Ht).
    exists e'. rewrite elem_of_app. auto.
Qed.

Lemma build_graph_fold_sound (edges done : list Edge)
      (acc : result (list (string * list string))) (g' : list (string * list string)) :
  (forall g, acc = Ok g -> sound_graph g done) ->
  fold_left (fun acc edge => rbind acc (fun g => add_edge g edge)) edges acc = Ok g' ->
  sound_graph g' (done ++ edges).
Proof.
  revert done acc. induction edges as [|e edges IH]; intros done acc Hacc Hfold;
    cbn [fold_left] in Hfold.
  - rewrite app_nil_r. now apply Hacc.
  - replace (done ++ e :: edges)%list with ((done ++ [e]) ++ edges)%list
      by now rewrite <- app_assoc.
    apply (IH (done ++ [e])%list
              (rbind acc (fun g => add_edge g e))); [|exact Hfold].
    intros g1 Hg1. destruct acc as [g0|err]; [|discriminate].
    cbn [rbind] in Hg1. now apply (add_edge_sound g0 g1 done e (Hacc g0 eq_refl)).
Qed.

Lemma build_graph_sound (nodes : list Node) (edges : list Edge)
      (g : list (string * list string)) :
  build_graph nodes edges = Ok g -> sound_graph g edges.
Proof.
  intros Hbuild. apply (build_graph_fold_sound edges [] _ g) in Hbuild; [exact Hbuild|].
  intros g0 Hg0. injection Hg0 as <-. intros a ns b Ha Hb.
  destruct (VisualFacts.empty_graph_spec nodes) as (_ & _ & Hempty & _).
  apply Hempty in Ha as ->. now apply elem_of_nil in Hb.
Qed.

Lemma has_cycles_sound (depth : nat) (nodes : list Node) (edges : list Edge) :
  _has_cycles depth nodes edges = true -> cyclic edges.
Proof.
  unfold _has_cycles. intros Hcheck.
  destruct (build_graph nodes edges) as [g|e] eqn:Hbuild; [|discriminate].
  cbn [rbind] in Hcheck.
  destruct (search depth g (Dict.keys g) (∅, ∅)) as [[|]|e] eqn:Hsearch;
    try discriminate.
  destruct (search_sound g depth (Dict.keys g) (∅, ∅)) as [x Hx];
    [reflexivity | exact Hsearch |].
  exists x. pose proof (build_graph_sound nodes edges g Hbuild) as Hsound.
  apply (tc_congruence (fun a => a) (edge_of edges)) in Hx; [exact Hx|].
  intros a b (ns & Hns & Hb). now apply (Hsound a ns b).
Qed.

(** X20.  A cycle reported by [_has_cycles] is a cycle of the edges: when the
    check answers [True], with whatever depth of recursion and for whatever
    nodes, some node reaches itself along one edge or more. *)
Theorem reported_cycles_are_cycles (depth : nat) (nodes : list Node) (edges : list Edge) :
  _has_cycles depth nodes edges = true -> cyclic edges.
Proof. exact (has_cycles_sound depth nodes edges). Qed.

Lemma reported_cycles_are_cycles_witness :
  cyclic Scenarios.ring_edges.
Proof.
  apply (reported_cycles_are_cycles 3 Scenarios.pipeline_nodes Scenarios.ring_edges).
  vm_compute. reflexivity.
Defined.

Lemma find_negb_none {A} (p : A -> bool) (l : list A) :
  List.find (fun x => negb (p x)) l = None <-> forallb p l = true.
Proof.
  induction l as [|x l IH]; cbn [List.find forallb]; [tauto|].
  destruct (p x); cbn [negb andb]; [exact IH|]. split; discriminate.
Qed.

Lemma validate_iff (depth : nat) (nodes : list Node) (edges : list Edge) :
  _validate_visual_workflow depth nodes edges = Ok tt
  <-> _has_cycles depth nodes edges = false
      /\ forallb valid_type nodes = true
      /\ forallb (valid_edge nodes) edges = true.
Proof.
  unfold _validate_visual_workflow.
  destruct (_has_cycles depth nodes edges); [split; [discriminate | now intros [? _]]|].
  rewrite <- !find_negb_none.
  destruct (List.find _ nodes); [split; [discriminate | now intros (_ & ? & _)]|].
  destruct (List.find _ edges); [split; [discriminate | now intros (_ & _ & ?)]|].
  tauto.
Qed.

(** X21.  With depth enough for one nested call of [dfs] per node, the
    creation of a visual workflow succeeds exactly when the edges have no
    cycle, every node has one of the six node types, and every edge joins
    two of the nodes. *)
Theorem visual_workflow_is_stored_iff_well_formed
        (depth : nat) (workflow_name : string) (nodes : list Node) (edges : list Edge)
        (db : list definition) :
  (length nodes <= depth)%nat ->
  is_ok (create_visual_workflow depth workflow_name nodes edges db) = true
  <-> ~ cyclic edges
      /\ forallb valid_type nodes = true
      /\ forallb (valid_edge nodes) edges = true.
Proof.
  intros Hdepth. unfold create_visual_workflow.
  pose proof (validate_iff depth nodes edges) as Hiff.
  destruct (_validate_visual_workflow depth nodes edges) as [[]|e]; cbn [rbind is_ok].
  - destruct (proj1 Hiff eq_refl) as (Hcheck & Htypes & Hedges).
    split; [intros _|reflexivity]. split; [|now split].
    apply (VisualFacts.has_cycles_complete depth nodes edges Hdepth); [|exact Hcheck].
    intros e He. rewrite forallb_forall in Hedges. apply Hedges.
    now apply list_elem_of_In.
  - split; [discriminate|]. intros (Hacyclic & Htypes & Hedges).
    assert (Hcheck : _has_cycles depth nodes edges = false).
    { destruct (_has_cycles depth nodes edges) eqn:E; [|reflexivity].
      exfalso. now apply Hacyclic, (has_cycles_sound depth nodes). }
    assert (Hok : Raise e = Ok tt) by (apply Hiff; auto). discriminate.
Qed.

Lemma visual_workflow_is_stored_iff_well_formed_witness :
  is_ok (create_visual_workflow 3 "pipeline" Scenarios.pipeline_nodes
                                Scenarios.pipeline_edges []) = true
  <-> ~ cyclic Scenarios.pipeline_edges
      /\ forallb valid_type Scenarios.pipeline_nodes = true
      /\ forallb (valid_edge Scenarios.pipeline_nodes) Scenarios.pipeline_edges = true.
Proof.
  apply (visual_workflow_is_stored_iff_well_formed
           3 "pipeline" Scenarios.pipeline_nodes Scenarios.pipeline_edges []).
  vm_compute. lia.
Defined.

(** *** The execution graph *)

Lemma fold_set_spec {V} (mk : Node -> V) (P : V -> Prop) (nodes : list Node)
      (g : list (string * V)) :
  NoDup (Dict.keys g) ->
  (forall k v, Dict.get k g = Some v -> P v) ->
  (forall node, P (mk node)) ->
  let g' := fold_left (fun g node => Dict.set (node_id node) (mk node) g) nodes g in
  NoDup (Dict.keys g')
  /\ (forall k, k ∈ Dict.keys g' <-> k ∈ Dict.keys g \/ k ∈ map node_id nodes)
  /\ (forall k v, Dict.get k g' = Some v -> P v)
  /\ (length (Dict.keys g') <= length (Dict.keys g) + length nodes)%nat.
Proof.
  intros Hnd Hg Hmk. revert g Hnd Hg.
  induction nodes as [|node nodes IH]; intros g Hnd Hg; cbn [fold_left].
  - cbn zeta. split; [exact Hnd|]. split; [|split; [exact Hg | cbn; lia]].
    intros k. cbn [map]. rewrite elem_of_nil. tauto.
  - destruct (IH (Dict.set (node_id node) (mk node) g)) as (H1 & H2 & H3 & H4).
    + now apply DictFacts.keys_set_NoDup.
    + intros k v. destruct (decide (node_id node = k)) as [<-|Hne].
      * rewrite DictFacts.get_set_eq. intros [= <-]. apply Hmk.
      * rewrite DictFacts.get_set_ne by assumption. apply Hg.
    + cbn zeta. split; [exact H1|]. split; [|split; [exact H3|]].
      * intros k. rewrite H2, VisualFacts.keys_set_elem. cbn [map].
        rewrite elem_of_cons. tauto.
      * pose proof (VisualFacts.keys_set_length g (node_id node) (mk node)).
        cbn [length]. lia.
Qed.

Lemma mem_keys {V} (k : string) (g : list (string * V)) :
  Dict.mem k g = true <-> k ∈ Dict.keys g.
Proof.
  unfold Dict.mem. destruct (Dict.get k g) as [v|] eqn:E.
  - split; [intros _; now apply (DictFacts.get_Some_keys _ _ v) | reflexivity].
  - split; [discriminate|]. intros H. now apply DictFacts.get_None_keys in E.
Qed.

Lemma existsb_node_id (nodes : list Node) (k : string) :
  existsb (fun n => String.eqb (node_id n) k) nodes = true <-> k ∈ map node_id nodes.
Proof.
  rewrite existsb_exists, list_elem_of_fmap. split.
  - intros (n & Hn & E). apply String.eqb_eq in E. exists n.
    split; [now symmetry | now apply list_elem_of_In].
  - intros (n & -> & Hn). exists n. split; [now apply list_elem_of_In|].
    apply String.eqb_refl.
Qed.

Lemma mem_valid_edge {V} (nodes : list Node) (g : list (string * V)) (e : Edge) :
  (forall k, k ∈ Dict.keys g <-> k ∈ map node_id nodes) ->
  Dict.mem (source e) g && Dict.mem (target e) g = valid_edge nodes e.
Proof.
  intros Hkeys. unfold valid_edge.
  assert (Hmem : forall k, Dict.mem k g
                           = existsb (fun n => String.eqb (node_id n) k) nodes).
  { intros k. apply eq_true_iff_eq. now rewrite mem_keys, existsb_node_id. }
  now rewrite !Hmem.
Qed.

Lemma update_entry_spec (k : string) (f : node_info -> node_info) (g : execution_graph)
      (i : node_info) :
  Dict.get k g = Some i ->
  update_entry k f g = Ok (Dict.set k (f i) g)
  /\ Dict.keys (Dict.set k (f i) g) = Dict.keys g
  /\ forall k', Dict.get k' (Dict.set k (f i) g)
                = if String.eqb k k' then Some (f i) else Dict.get k' g.
Proof.
  intros Hget. unfold update_entry. rewrite Hget. split; [reflexivity|]. split.
  - apply DictFacts.keys_set_present. now apply (DictFacts.get_Some_keys _ _ i).
  - intros k'. destruct (String.eqb_spec k k') as [<-|Hne].
    + apply DictFacts.get_set_eq.
    + now apply DictFacts.get_set_ne.
Qed.

Lemma waits_for_app (nodes : list Node) (done : list Edge) (e : Edge) (k : string) :
  waits_for nodes (done ++ [e]) k
  = (waits_for nodes done k
       ++ (if valid_edge nodes e && String.eqb (target e) k then [source e] else []))%list.
Proof.
  unfold waits_for. rewrite List.filter_app, map_app. cbn [List.filter].
  now destruct (valid_edge nodes e && String.eqb (target e) k).
Qed.

(** What the graph holds after the edges of [done]. *)
Lemma add_execution_edge_spec (nodes : list Node) (done : list Edge) (e : Edge)
      (g : execution_graph) :
  (forall k, k ∈ Dict.keys g <-> k ∈ map node_id nodes) ->
  (forall k i, Dict.get k g = Some i ->
               dependencies i = waits_for nodes done k /\ executed i = false) ->
  exists g',
    add_execution_edge g e = Ok g'
    /\ Dict.keys g' = Dict.keys g
    /\ (forall k i, Dict.get k g' = Some i ->
                    dependencies i = waits_for nodes (done ++ [e]) k
                    /\ executed i = false).
Proof.
  intros Hkeys Hg. unfold add_execution_edge.
  rewrite (mem_valid_edge nodes g e Hkeys).
  destruct (valid_edge nodes e) eqn:Hvalid.
  2:{ exists g. split; [reflexivity|]. split; [reflexivity|].
      intros k i Hget. rewrite waits_for_app, Hvalid. cbn [andb]. rewrite app_nil_r.
      now apply Hg. }
  destruct (VisualFacts.valid_edge_spec nodes e Hvalid) as [Hs Ht].
  apply Hkeys, DictFacts.keys_get in Hs as [info_s His].
  destruct (update_entry_spec (source e) (add_dependent (target e)) g info_s His)
    as (E1 & Hkeys1 & Hget1).
  rewrite E1. cbn [rbind].
  set (g1 := Dict.set (source e) (add_dependent (target e) info_s) g) in *.
  assert (Ht1 : target e ∈ Dict.keys g1) by (rewrite Hkeys1; now apply Hkeys).
  apply DictFacts.keys_get in Ht1 as [info_t Hit].
  destruct (update_entry_spec (target e) (add_dependency (source e)) g1 info_t Hit)
    as (E2 & Hkeys2 & Hget2).
  rewrite E2. eexists. split; [reflexivity|]. split; [congruence|].
  assert (Hg1 : forall k i, Dict.get k g1 = Some i ->
                            dependencies i = waits_for nodes done k
                            /\ executed i = false).
  { intros k i. rewrite Hget1. destruct (String.eqb_spec (source e) k) as [<-|Hne].
    - intros [= <-]. cbn [add_dependent dependencies executed]. now apply Hg.
    - apply Hg. }
  intros k i. rewrite Hget2, waits_for_app, Hvalid. cbn [andb].
  destruct (String.eqb_spec (target e) k) as [<-|Hne].
  - intros [= <-]. cbn [add_dependency dependencies executed].
    destruct (Hg1 _ _ Hit) as [-> ->]. now split.
  - rewrite app_nil_r. apply Hg1.
Qed.

Lemma build_execution_graph_fold (nodes : list Node) (edges done : list Edge)
      (g : execution_graph) :
  (forall k, k ∈ Dict.keys g <-> k ∈ map node_id nodes) ->
  (forall k i, Dict.get k g = Some i ->
               dependencies i = waits_for nodes done k /\ executed i = false) ->
  exists g',
    fold_left (fun acc edge => rbind acc (fun g => add_execution_edge g edge))
              edges (Ok g) = Ok g'
    /\ Dict.keys g' = Dict.keys g
    /\ (forall k i, Dict.get k g' = Some i ->
                    dependencies i = waits_for nodes (done ++ edges) k
                    /\ executed i = false).
Proof.
  revert done g. induction edges as [|e edges IH]; intros done g Hkeys Hg.
  - exists g. rewrite app_nil_r. split; [reflexivity|]. split; [reflexivity | exact Hg].
  - cbn [fold_left rbind].
    destruct (add_execution_edge_spec nodes done e g Hkeys Hg) as (g1 & E1 & Hk1 & Hg1).
    rewrite E1.
    destruct (IH (done ++ [e])%list g1) as (g' & E' & Hk' & Hg').
    + intros k. rewrite Hk1. apply Hkeys.
    + exact Hg1.
    + exists g'. split; [exact E'|]. split; [congruence|].
      intros k i Hget. rewrite <- app_assoc in Hg'. now apply Hg'.
Qed.

Lemma build_execution_graph_spec (nodes : list Node) (edges : list Edge) :
  exists g,
    _build_execution_graph nodes edges = Ok g
    /\ NoDup (Dict.keys g)
    /\ (forall k, k ∈ Dict.keys g <-> k ∈ map node_id nodes)
    /\ (length g <= length nodes)%nat
    /\ (forall k i, Dict.get k g = Some i ->
                    dependencies i = waits_for nodes edges k /\ executed i = false).
Proof.
  unfold _build_execution_graph.
  destruct (fold_set_spec new_entry
              (fun i => dependencies i = [] /\ executed i = false) nodes [])
    as (Hnd & Hkeys & Hnew & Hlen); [constructor | discriminate | now split |].
  cbn zeta in *.
  set (g0 := fold_left (fun g node => Dict.set (node_id node) (new_entry node) g)
                       nodes []) in *.
  assert (Hkeys0 : forall k, k ∈ Dict.keys g0 <-> k ∈ map node_id nodes).
  { intros k. rewrite Hkeys. split; [intros [H|H]; [now apply elem_of_nil in H | exact H]
                                    | now right]. }
  destruct (build_execution_graph_fold nodes edges [] g0 Hkeys0) as (g & E & Hk & Hg).
  { intros k i Hget. now apply Hnew in Hget. }
  exists g. split; [exact E|]. rewrite Hk. split; [exact Hnd|]. split; [exact Hkeys0|].
  split; [|exact Hg].
  assert (length g = length (Dict.keys g)) as -> by (unfold Dict.keys; now rewrite length_map).
  rewrite Hk. cbn in Hlen. lia.
Qed.

(** *** The rounds of the scheduling *)

Section Rounds.

Variable deps : string -> list string.

Variable keys : list string.

Hypothesis keys_NoDup : NoDup keys.

Hypothesis deps_closed : forall k d, k ∈ keys -> d ∈ deps k -> d ∈ keys.

Lemma inb_app (k : string) (l l' : list string) :
  inb k (l ++ l') = orb (inb k l) (inb k l').
Proof.
  unfold inb. rewrite <- bool_decide_or. apply bool_decide_ext, elem_of_app.
Qed.

Lemma inb_true (k : string) (l : list string) : inb k l = true <-> k ∈ l.
Proof. unfold inb. apply bool_decide_eq_true. Qed.

Lemma inb_false (k : string) (l : list string) : inb k l = false <-> k ∉ l.
Proof. unfold inb. apply bool_decide_eq_false. Qed.

Lemma mark_executed_spec (ready : list string) :
  forall done g,
    tracks deps keys done g ->
    (forall r, r ∈ ready -> r ∈ keys) ->
    exists g', mark_executed ready g = Ok g'
               /\ tracks deps keys (done ++ ready) g'.
Proof.
  unfold mark_executed.
  induction ready as [|r ready IH]; intros done g Hg Hready; cbn [fold_left].
  - exists g. rewrite app_nil_r. now split.
  - cbn [rbind]. destruct Hg as [Hkeys Hg].
    assert (Hr : r ∈ Dict.keys g) by (rewrite Hkeys; apply Hready; left).
    apply DictFacts.keys_get in Hr as [i Hi].
    destruct (update_entry_spec r set_executed g i Hi) as (E & Hk & Hget).
    rewrite E.
    destruct (IH (done ++ [r])%list (Dict.set r (set_executed i) g)) as (g' & E' & Hg').
    + split; [congruence|]. intros k i'. rewrite Hget, inb_app.
      destruct (String.eqb_spec r k) as [<-|Hne].
      * intros [= <-]. cbn [set_executed dependencies executed].
        split; [now apply Hg|]. symmetry. apply orb_true_iff. right.
        apply inb_true. left.
      * intros Hk'. destruct (Hg _ _ Hk') as [-> ->]. split; [reflexivity|].
        assert (inb k [r] = false) as ->.
        { apply inb_false. rewrite list_elem_of_singleton. congruence. }
        now rewrite orb_false_r.
    + intros r' Hr'. apply Hready. now right.
    + exists g'. split; [exact E'|]. now rewrite <- app_assoc in Hg'.
Qed.

Lemma all_executed_spec (done : list string) (g : execution_graph) (ds : list string) :
  tracks deps keys done g ->
  (forall d, d ∈ ds -> d ∈ keys) ->
  all_executed g ds = Ok (forallb (fun d => inb d done) ds).
Proof.
  intros [Hkeys Hg] Hds. induction ds as [|d ds IH]; [reflexivity|].
  cbn [all_executed forallb].
  assert (Hd : d ∈ Dict.keys g) by (rewrite Hkeys; apply Hds; left).
  apply DictFacts.keys_get in Hd as [i Hi]. rewrite Hi.
  destruct (Hg _ _ Hi) as [_ ->].
  destruct (inb d done); [|reflexivity]. cbn [andb]. apply IH.
  intros d' Hd'. apply Hds. now right.
Qed.

Lemma entries_get {V} (g : list (string * V)) (k : string) (v : V) :
  NoDup (Dict.keys g) -> (k, v) ∈ g -> Dict.get k g = Some v.
Proof.
  induction g as [|[k' v'] g IH]; intros Hnd Hin; [now apply elem_of_nil in Hin|].
  cbn [Dict.keys map fst] in Hnd. apply NoDup_cons in Hnd as [Hk' Hnd].
  cbn [Dict.get]. apply elem_of_cons in Hin as [[= -> ->]|Hin].
  - now rewrite String.eqb_refl.
  - destruct (String.eqb_spec k k') as [->|Hne]; [|now apply IH].
    exfalso. apply Hk'. apply list_elem_of_fmap. now exists (k', v).
Qed.

Lemma next_ready_spec (done : list string) (g : execution_graph) :
  tracks deps keys done g ->
  next_ready g g = Ok (ready_after deps keys done).
Proof.
  intros Hg. pose proof Hg as [Hkeys Hentries].
  assert (Hgen : forall entries,
             (forall k i, (k, i) ∈ entries -> Dict.get k g = Some i) ->
             next_ready g entries
             = Ok (List.filter
                     (fun k => negb (inb k done)
                               && forallb (fun d => inb d done) (deps k))
                     (map fst entries))).
  { induction entries as [|[k i] entries IH]; intros Hin; [reflexivity|].
    cbn [next_ready map fst List.filter].
    assert (Hk : Dict.get k g = Some i) by (apply Hin; left).
    destruct (Hentries _ _ Hk) as [Hd He]. rewrite He, Hd.
    rewrite IH by (intros k' i' H; apply Hin; now right).
    destruct (inb k done); cbn [negb andb rbind]; [reflexivity|].
    rewrite (all_executed_spec done g (deps k) Hg).
    - cbn [rbind]. now destruct (forallb _ (deps k)).
    - intros d Hd'. apply (deps_closed k); [|exact Hd'].
      rewrite <- Hkeys. now apply (DictFacts.get_Some_keys _ _ i). }
  unfold ready_after. rewrite <- Hkeys. apply Hgen.
  intros k i. apply entries_get. now rewrite Hkeys.
Qed.

Lemma first_ready_spec (g : execution_graph) :
  tracks deps keys [] g ->
  first_ready g = ready_after deps keys [].
Proof.
  intros [Hkeys Hentries]. unfold first_ready, ready_after. rewrite <- Hkeys.
  assert (Hgen : forall entries,
             (forall k i, (k, i) ∈ entries -> Dict.get k g = Some i) ->
             map fst (List.filter (fun kv => match dependencies kv.2 with
                                             | [] => negb (executed kv.2)
                                             | _ :: _ => false
                                             end) entries)
             = List.filter
                 (fun k => negb (inb k []) && forallb (fun d => inb d []) (deps k))
                 (map fst entries)).
  { induction entries as [|[k i] entries IH]; intros Hin; [reflexivity|].
    cbn [map fst snd List.filter].
    assert (Hk : Dict.get k g = Some i) by (apply Hin; left).
    destruct (Hentries _ _ Hk) as [Hd He]. rewrite He, Hd.
    rewrite <- IH by (intros k' i' H; apply Hin; now right).
    assert (inb k [] = false) as -> by (apply inb_false, not_elem_of_nil).
    destruct (deps k) as [|d ds]; [reflexivity|].
    cbn [forallb negb andb].
    assert (inb d [] = false) as -> by (apply inb_false, not_elem_of_nil).
    reflexivity. }
  apply Hgen. intros k i. apply entries_get. now rewrite Hkeys.
Qed.

Lemma ready_after_elem (done : list string) (k : string) :
  k ∈ ready_after deps keys done
  <-> k ∈ keys /\ (k ∉ done) /\ (forall d, d ∈ deps k -> d ∈ done).
Proof.
  unfold ready_after. rewrite list_elem_of_In, filter_In, <- list_elem_of_In.
  rewrite andb_true_iff, negb_true_iff, inb_false, forallb_forall.
  split; intros (Hk & Hd & Hds); (split; [exact Hk|]); (split; [exact Hd|]);
    intros d Hin.
  - apply inb_true, Hds. now apply list_elem_of_In.
  - apply inb_true, Hds. now apply list_elem_of_In.
Qed.

Lemma filter_length_lt {A} (p q : A -> bool) (l : list A) (x : A) :
  (forall y, p y = true -> q y = true) ->
  x ∈ l -> q x = true -> p x = false ->
  (length (List.filter p l) < length (List.filter q l))%nat.
Proof.
  intros Hpq Hx Hq Hp.
  assert (Hle : forall l', (length (List.filter p l') <= length (List.filter q l'))%nat).
  { induction l' as [|y l' IH]; [reflexivity|]. cbn [List.filter].
    destruct (p y) eqn:E.
    - rewrite (Hpq y E). cbn [length]. lia.
    - destruct (q y); cbn [length]; lia. }
  induction l as [|y l IH]; [now apply elem_of_nil in Hx|].
  cbn [List.filter]. apply elem_of_cons in Hx as [<-|Hx].
  - rewrite Hp, Hq. cbn [length]. specialize (Hle l). lia.
  - specialize (IH Hx). destruct (p y) eqn:E.
    + rewrite (Hpq y E). cbn [length]. lia.
    + destruct (q y); cbn [length]; lia.
Qed.

Lemma run_rounds_spec (rounds : nat) :
  forall done g,
    tracks deps keys done g ->
    (length (List.filter (fun k => negb (inb k done)) keys) <= rounds)%nat ->
    exists waves g',
      run_rounds rounds (ready_after deps keys done) g = Some (Ok (waves, g'))
      /\ scheduled deps keys done waves
      /\ tracks deps keys (done ++ concat waves) g'
      /\ ready_after deps keys (done ++ concat waves) = [].
Proof.
  induction rounds as [|rounds IH]; intros done g Hg Hleft.
  - destruct (ready_after deps keys done) as [|r ready] eqn:Hready.
    + exists [], g. cbn [run_rounds concat scheduled]. rewrite app_nil_r. auto.
    + exfalso.
      assert (Hr : r ∈ ready_after deps keys done) by (rewrite Hready; left).
      apply ready_after_elem in Hr as (Hk & Hd & _).
      assert (Hlt : (length (List.filter (fun _ : string => false) keys)
                     < length (List.filter (fun k => negb (inb k done)) keys))%nat).
      { apply (filter_length_lt _ _ keys r); try easy.
        now apply negb_true_iff, inb_false. }
      lia.
  - destruct (ready_after deps keys done) as [|r ready] eqn:Hready.
    + exists [], g. cbn [run_rounds concat scheduled]. rewrite app_nil_r. auto.
    + cbn [run_rounds]. rewrite <- Hready.
      assert (Hr : r ∈ ready_after deps keys done) by (rewrite Hready; left).
      apply ready_after_elem in Hr as (Hk & Hd & _).
      destruct (mark_executed_spec (ready_after deps keys done) done g Hg)
        as (g1 & E1 & Hg1).
      { intros r' Hr'. now apply ready_after_elem in Hr'. }
      rewrite E1. cbn [rbind]. rewrite (next_ready_spec _ g1 Hg1). cbn [rbind].
      destruct (IH (done ++ ready_after deps keys done)%list g1 Hg1)
        as (waves & g' & E' & Hs & Hg' & Hend).
      { assert (Hlt : (length (List.filter
                                 (fun k => negb (inb k (done ++ ready_after deps keys done)))
                                 keys)
                       < length (List.filter (fun k => negb (inb k done)) keys))%nat).
        { apply (filter_length_lt _ _ keys r).
          - intros y. rewrite inb_app, negb_orb, andb_true_iff. tauto.
          - exact Hk.
          - now apply negb_true_iff, inb_false.
          - apply negb_false_iff, inb_true, elem_of_app. right. rewrite Hready. left. }
        lia. }
      rewrite E'. exists (ready_after deps keys done :: waves), g'.
      split; [reflexivity|]. cbn [scheduled concat]. rewrite app_assoc.
      split; [|now split].
      split; [reflexivity|]. split; [rewrite Hready; discriminate | exact Hs].
Qed.

(** What a schedule is: no node twice, nodes of the graph only, and every
    node after the nodes it waits for. *)
Lemma scheduled_fresh (waves : list (list string)) :
  forall done,
    scheduled deps keys done waves ->
    NoDup (concat waves)
    /\ forall n, n ∈ concat waves -> n ∈ keys /\ n ∉ done.
Proof.
  induction waves as [|wave waves IH]; intros done Hs; cbn [concat].
  - split; [constructor|]. intros n Hn. now apply elem_of_nil in Hn.
  - destruct Hs as (Hwave & _ & Hs). destruct (IH _ Hs) as [Hnd Hin].
    assert (Hw : forall n, n ∈ wave -> n ∈ keys /\ n ∉ done).
    { intros n Hn. rewrite Hwave in Hn. apply ready_after_elem in Hn. tauto. }
    split.
    + apply NoDup_app. split; [|split; [|exact Hnd]].
      * rewrite Hwave. unfold ready_after. now apply NoDup_ListNoDup, List.NoDup_filter, NoDup_ListNoDup.
      * intros n Hn Hn'. apply Hin in Hn' as [_ Hn']. apply Hn', elem_of_app. now right.
    + intros n Hn. apply elem_of_app in Hn as [Hn|Hn]; [now apply Hw|].
      apply Hin in Hn as [Hk Hn]. split; [exact Hk|].
      intros Hd. apply Hn, elem_of_app. now left.
Qed.

Lemma scheduled_order (waves : list (list string)) :
  forall done i wave n d,
    scheduled deps keys done waves ->
    waves !! i = Some wave -> n ∈ wave -> d ∈ deps n ->
    d ∈ done
    \/ exists j earlier, (j < i)%nat /\ waves !! j = Some earlier /\ d ∈ earlier.
Proof.
  induction waves as [|w waves IH]; intros done i wave n d Hs Hi Hn Hd;
    [discriminate|].
  destruct Hs as (Hw & _ & Hs). destruct i as [|i]; cbn in Hi.
  - injection Hi as <-. rewrite Hw in Hn. apply ready_after_elem in Hn.
    left. now apply Hn.
  - destruct (IH _ i wave n d Hs Hi Hn Hd) as [Hin|(j & earlier & Hj & He & Hin)].
    + apply elem_of_app in Hin as [Hin|Hin]; [now left|].
      right. exists 0%nat, w. split; [lia|]. now split.
    + right. exists (S j), earlier. split; [lia|]. now split.
Qed.

Lemma concat_lookup (waves : list (list string)) (n : string) :
  n ∈ concat waves <-> exists i wave, waves !! i = Some wave /\ n ∈ wave.
Proof.
  induction waves as [|w waves IH]; cbn [concat].
  - split; [intros H; now apply elem_of_nil in H | now intros (i & wave & H & _)].
  - rewrite elem_of_app, IH. split.
    + intros [H|(i & wave & Hi & H)]; [now exists 0%nat, w | now exists (S i), wave].
    + intros ([|i] & wave & Hi & H); cbn in Hi; [injection Hi as <-; now left|].
      right. now exists i, wave.
Qed.

Lemma concat_lookup_unique (waves : list (list string)) (n : string) :
  NoDup (concat waves) ->
  forall i j wi wj,
    waves !! i = Some wi -> waves !! j = Some wj -> n ∈ wi -> n ∈ wj -> i = j.
Proof.
  induction waves as [|w waves IH]; intros Hnd i j wi wj Hi Hj Hni Hnj;
    [discriminate|].
  cbn [concat] in Hnd. apply NoDup_app in Hnd as (_ & Hdisj & Hnd).
  destruct i as [|i], j as [|j]; cbn in Hi, Hj.
  - reflexivity.
  - injection Hi as <-. exfalso. apply (Hdisj n Hni).
    apply concat_lookup. now exists j, wj.
  - injection Hj as <-. exfalso. apply (Hdisj n Hnj).
    apply concat_lookup. now exists i, wi.
  - f_equal. now apply (IH Hnd i j wi wj).
Qed.

End Rounds.

(** *** The schedule of a visual workflow *)

Lemma waits_for_elem (nodes : list Node) (edges : list Edge) (k d : string) :
  d ∈ waits_for nodes edges k
  <-> exists e, e ∈ edges /\ valid_edge nodes e = true
                /\ source e = d /\ target e = k.
Proof.
  unfold waits_for. rewrite list_elem_of_fmap. split.
  - intros (e & -> & He). apply list_elem_of_In, filter_In in He as [He Hv].
    apply andb_prop in Hv as [Hv Ht]. apply String.eqb_eq in Ht.
    exists e. split; [now apply list_elem_of_In | auto].
  - intros (e & He & Hv & <- & <-). exists e. split; [reflexivity|].
    apply list_elem_of_In, filter_In. split; [now apply list_elem_of_In|].
    now rewrite Hv, String.eqb_refl.
Qed.

Lemma schedule_spec (nodes : list Node) (edges : list Edge) :
  exists keys waves g',
    schedule (length nodes) nodes edges = Some (Ok (waves, g'))
    /\ NoDup keys
    /\ (forall k, k ∈ keys <-> k ∈ map node_id nodes)
    /\ scheduled (waits_for nodes edges) keys [] waves
    /\ tracks (waits_for nodes edges) keys (concat waves) g'
    /\ ready_after (waits_for nodes edges) keys (concat waves) = [].
Proof.
  destruct (build_execution_graph_spec nodes edges) as (g & E & Hnd & Hkeys & Hlen & Hg).
  unfold schedule, _execute_visual_nodes. rewrite E.
  set (deps := waits_for nodes edges). set (keys := Dict.keys g).
  assert (Hclosed : forall k d, k ∈ keys -> d ∈ deps k -> d ∈ keys).
  { intros k d _ Hd. apply waits_for_elem in Hd as (e & _ & Hv & <- & _).
    apply Hkeys. now apply VisualFacts.valid_edge_spec in Hv. }
  assert (Htracks : tracks deps keys [] g).
  { split; [reflexivity|]. intros k i Hi. destruct (Hg _ _ Hi) as [-> ->].
    split; [reflexivity|]. symmetry. apply inb_false, not_elem_of_nil. }
  rewrite (first_ready_spec deps keys Hnd g Htracks).
  destruct (run_rounds_spec deps keys Hnd Hclosed (length nodes) [] g Htracks)
    as (waves & g' & Erun & Hs & Hg' & Hend).
  { etransitivity; [apply List.filter_length_le|].
    subst keys. unfold Dict.keys. now rewrite length_map. }
  exists keys, waves, g'. cbn [app] in Hg', Hend.
  split; [exact Erun|]. split; [exact Hnd|]. split; [exact Hkeys|].
  split; [exact Hs|]. split; [exact Hg' | exact Hend].
Qed.

Lemma scheduled_before (nodes : list Node) (edges : list Edge) (keys : list string)
      (waves : list (list string)) :
  scheduled (waits_for nodes edges) keys [] waves ->
  forall a b,
    tc (edge_of (List.filter (valid_edge nodes) edges)) a b ->
    forall j later,
      waves !! j = Some later -> b ∈ later ->
      exists i earlier, (i < j)%nat /\ waves !! i = Some earlier /\ a ∈ earlier.
Proof.
  intros Hs a b Hpath.
  assert (Hstep : forall a b,
             edge_of (List.filter (valid_edge nodes) edges) a b ->
             forall j later,
               waves !! j = Some later -> b ∈ later ->
               exists i earlier, (i < j)%nat /\ waves !! i = Some earlier /\ a ∈ earlier).
  { intros x y (e & He & <- & <-) j later Hj Hy.
    apply list_elem_of_In, filter_In in He as [He Hv].
    destruct (scheduled_order (waits_for nodes edges) keys waves [] j later
                (target e) (source e) Hs Hj Hy) as [Hin|H]; [|now apply elem_of_nil in Hin|exact H].
    apply waits_for_elem. exists e. split; [now apply list_elem_of_In | auto]. }
  induction Hpath as [a b Hab|a m b Ham Hmb IH]; [now apply Hstep|].
  intros j later Hj Hb.
  destruct (IH j later Hj Hb) as (i & earlier & Hi & Hei & Hm).
  destruct (Hstep a m Ham i earlier Hei Hm) as (i' & earlier' & Hi' & He' & Ha).
  exists i', earlier'. split; [lia | now split].
Qed.

(** X22.  The scheduling of a visual workflow.  For whatever nodes and edges,
    [_execute_visual_nodes] on the graph of [_build_execution_graph] comes
    to an end within one round per node.  No node is executed twice, and
    only nodes of the workflow are executed.  A node is executed in a later
    round than every node it waits for, that is than the source of every
    edge that ends in it and joins two nodes.  The entries marked executed
    at the end are those of the nodes that were executed, and a node that
    lies on a cycle of such edges is not executed at all. *)
Theorem visual_nodes_run_after_their_dependencies (nodes : list Node) (edges : list Edge) :
  exists waves g',
    schedule (length nodes) nodes edges = Some (Ok (waves, g'))
    /\ NoDup (concat waves)
    /\ (forall n, n ∈ concat waves -> n ∈ map node_id nodes)
    /\ (forall j later e,
          waves !! j = Some later -> e ∈ edges -> valid_edge nodes e = true ->
          target e ∈ later ->
          exists i earlier,
            (i < j)%nat /\ waves !! i = Some earlier /\ source e ∈ earlier)
    /\ (forall k info,
          Dict.get k g' = Some info -> executed info = inb k (concat waves))
    /\ (forall n,
          tc (edge_of (List.filter (valid_edge nodes) edges)) n n ->
          n ∉ concat waves).
Proof.
  destruct (schedule_spec nodes edges)
    as (keys & waves & g' & Erun & Hnd & Hkeys & Hs & Hg' & Hend).
  exists waves, g'. split; [exact Erun|].
  destruct (scheduled_fresh (waits_for nodes edges) keys Hnd waves [] Hs)
    as [Hnodup Hin].
  split; [exact Hnodup|]. split; [|split; [|split]].
  - intros n Hn. apply Hkeys. now apply Hin.
  - intros j later e Hj He Hv Ht.
    apply (scheduled_before nodes edges keys waves Hs (source e) (target e)) with later;
      [|exact Hj|exact Ht].
    apply tc_once. exists e. split; [|now split].
    apply list_elem_of_In, filter_In. split; [now apply list_elem_of_In | exact Hv].
  - intros k info Hk. destruct Hg' as [_ Hg']. now apply Hg' in Hk.
  - intros n Hcycle Hn. apply concat_lookup in Hn as (j & later & Hj & Hn).
    destruct (scheduled_before nodes edges keys waves Hs n n Hcycle j later Hj Hn)
      as (i & earlier & Hi & Hei & Hn').
    assert (i = j) by now apply (concat_lookup_unique waves n Hnodup i j earlier later).
    lia.
Qed.

Lemma acyclic_accessible (edges : list Edge) (k : string) :
  ~ cyclic edges -> Acc (edge_of edges) k.
Proof.
  intros Hacyclic.
  assert (Hflip : forall a b, tc (flip (edge_of edges)) a b -> tc (edge_of edges) b a).
  { intros a b H. induction H as [a b Hab|a m b Ham Hmb IH].
    - now apply tc_once.
    - eapply tc_r; [exact IH | exact Ham]. }
  apply (tc_finite_sn (R := flip (edge_of edges)) k).
  - intros x Hx. apply Hacyclic. exists x. now apply Hflip.
  - exists (map source edges). intros y Hy.
    apply Hflip in Hy. inversion Hy as [? ? (e & He & Hs & _)|? m ? (e & He & Hs & _) _];
      subst; apply list_elem_of_fmap; now exists e.
Qed.

(** X23.  A visual workflow that [create_visual_workflow] accepts is run to
    its end: within one round per node, [_execute_visual_nodes] executes
    every node of the workflow, once. *)
Theorem accepted_visual_workflows_run_every_node
        (depth : nat) (workflow_name : string) (nodes : list Node) (edges : list Edge)
        (db : list definition) :
  (length nodes <= depth)%nat ->
  is_ok (create_visual_workflow depth workflow_name nodes edges db) = true ->
  exists waves g',
    schedule (length nodes) nodes edges = Some (Ok (waves, g'))
    /\ NoDup (concat waves)
    /\ (forall k, k ∈ concat waves <-> k ∈ map node_id nodes)
    /\ (forall k info, Dict.get k g' = Some info -> executed info = true).
Proof.
  intros Hdepth Hstored.
  assert (Hacyclic : ~ cyclic edges).
  { unfold create_visual_workflow in Hstored.
    pose proof (VisualFacts.validate_iff depth nodes edges) as Hiff.
    destruct (_validate_visual_workflow depth nodes edges) as [[]|e]; [|discriminate].
    destruct (proj1 Hiff eq_refl) as (Hcheck & _ & Hedges).
    apply (VisualFacts.has_cycles_complete depth nodes edges Hdepth); [|exact Hcheck].
    intros e He. rewrite forallb_forall in Hedges. apply Hedges.
    now apply list_elem_of_In. }
  destruct (schedule_spec nodes edges)
    as (keys & waves & g' & Erun & Hnd & Hkeys & Hs & Hg' & Hend).
  exists waves, g'. split; [exact Erun|].
  destruct (scheduled_fresh (waits_for nodes edges) keys Hnd waves [] Hs)
    as [Hnodup Hin].
  split; [exact Hnodup|].
  assert (Hall : forall k, k ∈ keys -> k ∈ concat waves).
  { intros k. induction (acyclic_accessible edges k Hacyclic) as [k _ IH].
    intros Hk. destruct (decide (k ∈ concat waves)) as [Hrun|Hrun]; [exact Hrun|].
    exfalso.
    assert (Hready : k ∈ ready_after (waits_for nodes edges) keys (concat waves)).
    { apply ready_after_elem. split; [exact Hk|]. split; [exact Hrun|].
      intros d Hd. pose proof Hd as Hd'.
      apply waits_for_elem in Hd' as (e & He & Hv & <- & <-).
      apply IH.
      - now exists e.
      - apply Hkeys. now apply VisualFacts.valid_edge_spec in Hv. }
    rewrite Hend in Hready. now apply elem_of_nil in Hready. }
  split.
  - intros k. split; [intros Hk; apply Hkeys; now apply Hin|].
    intros Hk. now apply Hall, Hkeys.
  - intros k info Hk. destruct Hg' as [Hkeys' Hg']. destruct (Hg' _ _ Hk) as [_ ->].
    apply inb_true, Hall. rewrite <- Hkeys'. now apply (DictFacts.get_Some_keys _ _ info).
Qed.

Lemma accepted_visual_workflows_run_every_node_witness :
  exists waves g',
    schedule 3 Scenarios.pipeline_nodes Scenarios.pipeline_edges
    = Some (Ok (waves, g'))
    /\ NoDup (concat waves)
    /\ (forall k, k ∈ concat waves <-> k ∈ map node_id Scenarios.pipeline_nodes)
    /\ (forall k info, Dict.get k g' = Some info -> executed info = true).
Proof.
  apply (accepted_visual_workflows_run_every_node
           3 "pipeline" Scenarios.pipeline_nodes Scenarios.pipeline_edges []).
  - vm_compute. lia.
  - vm_compute. reflexivity.
Defined.

(** *** Paths and keys *)

Lemma split_dot_dotless (k : string) : dotless k = true -> split_dot k = [k].
Proof.
  induction k as [|c k IH]; [reflexivity|]. cbn [dotless split_dot].
  intros H. apply andb_prop in H as [Hc Hk]. apply negb_true_iff in Hc.
  rewrite Hc, (IH Hk). reflexivity.
Qed.

Lemma split_dot_app (k s : string) :
  dotless k = true -> split_dot (k +:+ "." +:+ s) = k :: split_dot s.
Proof.
  induction k as [|c k IH]; [reflexivity|]. cbn [dotless].
  intros H. apply andb_prop in H as [Hc Hk]. apply negb_true_iff in Hc.
  change (String c k +:+ "." +:+ s) with (String c (k +:+ "." +:+ s)).
  cbn [split_dot]. rewrite Hc, (IH Hk). reflexivity.
Qed.

Lemma concat_cons (k : string) (rest : list string) :
  rest <> [] -> String.concat "." (k :: rest) = k +:+ "." +:+ String.concat "." rest.
Proof. destruct rest; [congruence | reflexivity]. Qed.

Lemma plain_key_spec (k : string) :
  plain_key k = true <-> k <> "" /\ dotless k = true.
Proof.
  unfold plain_key. rewrite andb_true_iff, negb_true_iff, String.eqb_neq. tauto.
Qed.

Lemma concat_empty (path : list string) :
  Forall (fun k => plain_key k = true) path ->
  String.concat "." path = "" -> path = [].
Proof.
  destruct path as [|k rest]; [reflexivity|]. intros Hpath E. exfalso.
  apply Forall_cons in Hpath as [Hk _]. apply plain_key_spec in Hk as [Hk _].
  destruct rest as [|k' rest]; cbn [String.concat] in E; [contradiction|].
  destruct k; [contradiction | discriminate].
Qed.

Lemma split_dot_concat (path : list string) :
  Forall (fun k => plain_key k = true) path -> path <> [] ->
  split_dot (String.concat "." path) = path.
Proof.
  induction path as [|k rest IH]; [congruence|]. intros Hpath _.
  apply Forall_cons in Hpath as [Hk Hrest]. apply plain_key_spec in Hk as [_ Hk].
  destruct rest as [|k' rest]; [now apply split_dot_dotless|].
  rewrite concat_cons by discriminate. rewrite (split_dot_app _ _ Hk).
  f_equal. now apply IH.
Qed.

Lemma concat_app_one (k : string) (rest : list string) (key : string) :
  String.concat "." ((k :: rest) ++ [key])
  = String.concat "." (k :: rest) +:+ "." +:+ key.
Proof.
  revert k. induction rest as [|k' rest IH]; intros k; [reflexivity|].
  change ((k :: k' :: rest) ++ [key])%list with (k :: ((k' :: rest) ++ [key]))%list.
  rewrite (concat_cons k ((k' :: rest) ++ [key])) by discriminate.
  rewrite (concat_cons k (k' :: rest)) by discriminate.
  rewrite IH. now rewrite !StrFacts.app_assoc.
Qed.

Lemma concat_snoc (ks : list string) (key : string) :
  Forall (fun k => plain_key k = true) ks ->
  (if String.eqb (String.concat "." ks) "" then key
   else String.concat "." ks +:+ "." +:+ key)
  = String.concat "." (ks ++ [key]).
Proof.
  intros Hks. destruct (String.eqb_spec (String.concat "." ks) "") as [E|Hne].
  - now rewrite (concat_empty ks Hks E).
  - destruct ks as [|k rest]; [contradiction|]. now rewrite concat_app_one.
Qed.

(** *** Flattening *)

Lemma set_elem {V} (d : list (string * V)) (k k' : string) (v v' : V) :
  (k, v) ∈ Dict.set k' v' d -> (k, v) = (k', v') \/ (k, v) ∈ d.
Proof.
  induction d as [|[k0 v0] d IH]; cbn [Dict.set].
  - rewrite list_elem_of_singleton. now left.
  - destruct (String.eqb_spec k' k0) as [->|Hne]; rewrite !elem_of_cons.
    + intros [H|H]; [now left | right; now right].
    + intros [H|H]; [right; now left|]. destruct (IH H); [now left | right; now right].
Qed.

Lemma update_elem (flat result : dict) (k : string) (x : value) :
  (k, x) ∈ Audit.update result flat -> (k, x) ∈ flat \/ (k, x) ∈ result.
Proof.
  unfold Audit.update. revert result.
  induction flat as [|[k' v'] flat IH]; intros result; cbn [fold_left fst snd].
  - now right.
  - intros H. apply IH in H as [H|H]; [left; now right|].
    apply set_elem in H as [H|H]; [left; rewrite H; now left | now right].
Qed.

Lemma get_elem {V} (d : list (string * V)) (k : string) (v : V) :
  Dict.get k d = Some v -> (k, v) ∈ d.
Proof.
  induction d as [|[k' v'] d IH]; cbn [Dict.get]; [discriminate|].
  destruct (String.eqb_spec k k') as [->|Hne].
  - intros [= ->]. left.
  - intros H. right. now apply IH.
Qed.

Lemma fold_raise {A B} (step : result B -> A -> result B) (l : list A) (e : exn) :
  (forall a, step (Raise e) a = Raise e) ->
  fold_left step l (Raise e) = Raise e.
Proof. intros Hstep. induction l as [|a l IH]; cbn [fold_left]; [reflexivity|]. now rewrite Hstep. Qed.

Lemma tree_dict (entries : dict) :
  tree (VDict entries) = true ->
  NoDup (Dict.keys entries)
  /\ forall key val, (key, val) ∈ entries -> plain_key key = true /\ tree val = true.
Proof.
  cbn [tree]. intros H. apply andb_prop in H as [Hnd Hall].
  apply bool_decide_eq_true in Hnd. split; [exact Hnd|].
  intros key val Hin. rewrite forallb_forall in Hall.
  apply list_elem_of_In, Hall in Hin. now apply andb_prop in Hin.
Qed.

(** Every entry of the flattened dictionary is a value of the data, and its
    key spells the path to it. *)
Lemma flatten_entries (depth : nat) :
  forall v ks flat,
    tree v = true ->
    Forall (fun k => plain_key k = true) ks ->
    _flatten_json depth v (String.concat "." ks) = Ok flat ->
    forall k x,
      (k, x) ∈ flat ->
      exists path,
        Forall (fun k => plain_key k = true) path
        /\ k = String.concat "." (ks ++ path)
        /\ follow path v = x.
Proof.
  induction depth as [|depth IH]; intros v ks flat Hv Hks Hflat k x Hin;
    [discriminate|].
  assert (Hleaf : (k, x) ∈ Dict.set (String.concat "." ks) v [] ->
                  exists path,
                    Forall (fun k => plain_key k = true) path
                    /\ k = String.concat "." (ks ++ path)
                    /\ follow path v = x).
  { cbn [Dict.set]. rewrite list_elem_of_singleton. intros [= -> ->].
    exists []. rewrite app_nil_r. now repeat split. }
  cbn [_flatten_json] in Hflat. unfold try_except in Hflat.
  match type of Hflat with
  | match ?b with _ => _ end = _ => destruct b as [flat'|e] eqn:Hbody
  end; [injection Hflat as ->|injection Hflat as <-; now apply Hleaf].
  destruct v as [| | | |items|entries|]; try (injection Hbody as <-; now apply Hleaf).
  { discriminate. }
  destruct (tree_dict entries Hv) as [Hnd Hentries].
  assert (Hgen : forall rest acc flat,
             (forall kv, kv ∈ rest -> kv ∈ entries) ->
             (forall k x, (k, x) ∈ acc ->
                          exists path,
                            Forall (fun k => plain_key k = true) path
                            /\ k = String.concat "." (ks ++ path)
                            /\ follow path (VDict entries) = x) ->
             fold_left
               (fun acc kv =>
                  rbind acc (fun result =>
                  let new_key := if String.eqb (String.concat "." ks) "" then kv.1
                                 else String.concat "." ks +:+ "." +:+ kv.1 in
                  rbind (_flatten_json depth kv.2 new_key) (fun flat =>
                  Ok (Audit.update result flat))))
               rest (Ok acc) = Ok flat ->
             forall k x, (k, x) ∈ flat ->
                         exists path,
                           Forall (fun k => plain_key k = true) path
                           /\ k = String.concat "." (ks ++ path)
                           /\ follow path (VDict entries) = x).
  { clear flat Hbody k x Hin Hleaf.
    induction rest as [|[key val] rest IHrest]; intros acc flat Hrest Hacc Hfold.
    - injection Hfold as <-. exact Hacc.
    - cbn [fold_left rbind fst snd] in Hfold. cbv zeta in Hfold.
      assert (Hkv : (key, val) ∈ entries) by (apply Hrest; left).
      destruct (Hentries _ _ Hkv) as [Hkey Hval].
      rewrite (concat_snoc ks key Hks) in Hfold.
      destruct (_flatten_json depth val (String.concat "." (ks ++ [key])))
        as [sub|e] eqn:Hsub.
      2:{ cbn [rbind] in Hfold. rewrite fold_raise in Hfold by reflexivity.
          discriminate. }
      cbn [rbind] in Hfold.
      apply (IHrest (Audit.update acc sub) flat); [|clear IHrest|exact Hfold].
      + intros kv Hin. apply Hrest. now right.
      + intros k x Hin. apply update_elem in Hin as [Hin|Hin]; [|now apply Hacc].
        destruct (IH val (ks ++ [key])%list sub Hval) with (k := k) (x := x)
          as (path & Hpath & -> & Hx); [|exact Hsub|exact Hin|].
        { apply Forall_app. split; [exact Hks|]. now constructor. }
        exists (key :: path). split; [now constructor|].
        split; [now rewrite <- app_assoc|].
        cbn [follow]. now rewrite (entries_get entries key val Hnd Hkv). }
  apply (Hgen entries [] flat); [auto | | exact Hbody | exact Hin].
  intros k' x' H. now apply elem_of_nil in H.
Qed.

Lemma update_NoDup (flat result : dict) :
  NoDup (Dict.keys result) -> NoDup (Dict.keys (Audit.update result flat)).
Proof.
  unfold Audit.update. revert result.
  induction flat as [|[k v] flat IH]; intros result Hnd; cbn [fold_left]; [exact Hnd|].
  apply IH. now apply DictFacts.keys_set_NoDup.
Qed.

Lemma get_update (flat result : dict) (k : string) :
  NoDup (Dict.keys flat) ->
  Dict.get k (Audit.update result flat)
  = match Dict.get k flat with
    | Some x => Some x
    | None => Dict.get k result
    end.
Proof.
  unfold Audit.update. revert result.
  induction flat as [|[k' v'] flat IH]; intros result Hnd; [reflexivity|].
  cbn [Dict.keys map fst] in Hnd. apply NoDup_cons in Hnd as [Hk' Hnd].
  cbn [fold_left fst snd Dict.get]. rewrite (IH _ Hnd).
  destruct (String.eqb_spec k k') as [->|Hne].
  - apply DictFacts.get_None_keys in Hk'. rewrite Hk'. apply DictFacts.get_set_eq.
  - rewrite DictFacts.get_set_ne by congruence. reflexivity.
Qed.

Lemma flatten_NoDup (depth : nat) (v : value) (prefix : string) (flat : dict) :
  _flatten_json depth v prefix = Ok flat -> NoDup (Dict.keys flat).
Proof.
  destruct depth as [|depth]; [discriminate|].
  cbn [_flatten_json]. unfold try_except.
  assert (Hleaf : NoDup (Dict.keys (Dict.set prefix v []))).
  { apply DictFacts.keys_set_NoDup. constructor. }
  assert (Hfold : forall A (new_key : A -> string) (sub : A -> value) (l : list A) acc flat,
             NoDup (Dict.keys acc) ->
             fold_left
               (fun acc a =>
                  rbind acc (fun result =>
                  rbind (_flatten_json depth (sub a) (new_key a)) (fun flat =>
                  Ok (Audit.update result flat))))
               l (Ok acc) = Ok flat ->
             NoDup (Dict.keys flat)).
  { intros A new_key sub l. induction l as [|a l IH]; intros acc flat' Hacc Hfold.
    - now injection Hfold as <-.
    - cbn [fold_left rbind] in Hfold.
      destruct (_flatten_json depth (sub a) (new_key a)) as [s|e]; cbn [rbind] in Hfold.
      + apply (IH _ _ (update_NoDup s acc Hacc) Hfold).
      + rewrite fold_raise in Hfold by reflexivity. discriminate. }
  match goal with
  | |- match ?b with _ => _ end = _ -> _ => destruct b as [flat'|e] eqn:Hbody
  end; intros [= <-]; [|exact Hleaf].
  destruct v; try (injection Hbody as <-; exact Hleaf).
  - apply (Hfold _ _ _ _ _ _ (NoDup_nil_2 : NoDup (Dict.keys [])) Hbody).
  - apply (Hfold _ _ _ _ _ _ (NoDup_nil_2 : NoDup (Dict.keys [])) Hbody).
Qed.

Lemma concat_inj (l l' : list string) :
  Forall (fun k => plain_key k = true) l ->
  Forall (fun k => plain_key k = true) l' ->
  String.concat "." l = String.concat "." l' -> l = l'.
Proof.
  intros Hl Hl' E. destruct l as [|k l], l' as [|k' l'].
  - reflexivity.
  - symmetry. now apply concat_empty.
  - now apply concat_empty.
  - rewrite <- (split_dot_concat (k :: l)), <- (split_dot_concat (k' :: l'));
      try assumption; try discriminate. now rewrite E.
Qed.

Lemma lookup_path_plain (path : list string) :
  forall v x,
    tree v = true -> Audit.lookup_path path v = Some x ->
    Forall (fun k => plain_key k = true) path /\ tree x = true.
Proof.
  induction path as [|key path IH]; intros v x Hv Hx; cbn [Audit.lookup_path] in Hx.
  - injection Hx as <-. now split.
  - destruct v as [| | | | |entries|]; try discriminate.
    destruct (Dict.get key entries) as [val|] eqn:Hget; [|discriminate].
    destruct (tree_dict entries Hv) as [_ Hentries].
    destruct (Hentries key val (get_elem _ _ _ Hget)) as [Hkey Hval].
    destruct (IH val x Hval Hx) as [Hpath Htree]. split; [now constructor | exact Htree].
Qed.

Lemma height_entry (entries : dict) (key : string) (val : value) :
  (key, val) ∈ entries -> (height val < height (VDict entries))%nat.
Proof.
  cbn [height]. intros Hin.
  assert (height val <= list_max (map (fun kv => height kv.2) entries))%nat; [|lia].
  induction entries as [|[k v] entries IH]; [now apply elem_of_nil in Hin|].
  cbn [map list_max fold_right snd]. apply elem_of_cons in Hin as [[= -> ->]|Hin].
  - lia.
  - specialize (IH Hin). unfold list_max in IH. lia.
Qed.

(** With depth enough for the data, the flattened dictionary holds every
    value at the end of a path, under the key that spells the path, and
    nothing but such values. *)
Lemma flatten_leaves (depth : nat) :
  forall v ks,
    tree v = true ->
    Forall (fun k => plain_key k = true) ks ->
    (height v < depth)%nat ->
    exists flat,
      _flatten_json depth v (String.concat "." ks) = Ok flat
      /\ (forall k x, (k, x) ∈ flat -> Audit.is_scalar x = true)
      /\ (forall path x,
            Audit.lookup_path path v = Some x -> Audit.is_scalar x = true ->
            Dict.get (String.concat "." (ks ++ path)) flat = Some x).
Proof.
  induction depth as [|depth IH]; intros v ks Hv Hks Hdepth; [lia|].
  assert (Hleaf : Audit.is_scalar v = true ->
                  exists flat,
                    Ok (Dict.set (String.concat "." ks) v []) = Ok flat
                    /\ (forall k x, (k, x) ∈ flat -> Audit.is_scalar x = true)
                    /\ (forall path x,
                          Audit.lookup_path path v = Some x ->
                          Audit.is_scalar x = true ->
                          Dict.get (String.concat "." (ks ++ path)) flat = Some x)).
  { intros Hscalar. eexists. split; [reflexivity|]. cbn [Dict.set]. split.
    - intros k x. rewrite list_elem_of_singleton. now intros [= -> ->].
    - intros [|key path] x Hx _.
      + injection Hx as <-. rewrite app_nil_r. cbn [Dict.get].
        now rewrite String.eqb_refl.
      + now destruct v. }
  cbn [_flatten_json].
  destruct v as [| | | |items|entries|]; try (cbn [try_except]; now apply Hleaf).
  { discriminate. }
  destruct (tree_dict entries Hv) as [Hnd Hentries].
  assert (Hgen : forall rest done acc,
             entries = (done ++ rest)%list ->
             NoDup (Dict.keys acc) ->
             (forall k x, (k, x) ∈ acc -> Audit.is_scalar x = true) ->
             (forall k, k ∈ Dict.keys acc ->
                        exists key path,
                          key ∈ Dict.keys done
                          /\ Forall (fun k => plain_key k = true) path
                          /\ k = String.concat "." (ks ++ key :: path)) ->
             (forall key val path x,
                (key, val) ∈ done ->
                Audit.lookup_path path val = Some x -> Audit.is_scalar x = true ->
                Dict.get (String.concat "." (ks ++ key :: path)) acc = Some x) ->
             exists flat,
               fold_left
                 (fun acc kv =>
                    rbind acc (fun result =>
                    let new_key := if String.eqb (String.concat "." ks) "" then kv.1
                                   else String.concat "." ks +:+ "." +:+ kv.1 in
                    rbind (_flatten_json depth kv.2 new_key) (fun flat =>
                    Ok (Audit.update result flat))))
                 rest (Ok acc) = Ok flat
               /\ (forall k x, (k, x) ∈ flat -> Audit.is_scalar x = true)
               /\ (forall key val path x,
                     (key, val) ∈ entries ->
                     Audit.lookup_path path val = Some x -> Audit.is_scalar x = true ->
                     Dict.get (String.concat "." (ks ++ key :: path)) flat = Some x)).
  { induction rest as [|[key val] rest IHrest];
      intros done acc Hsplit Hacc Hscalar Hkeys Hdone.
    - exists acc. rewrite app_nil_r in Hsplit. subst done. now repeat split.
    - cbn [fold_left rbind fst snd]. cbv zeta.
      assert (Hkv : (key, val) ∈ entries).
      { rewrite Hsplit. apply elem_of_app. right. left. }
      destruct (Hentries _ _ Hkv) as [Hkey Hval].
      rewrite (concat_snoc ks key Hks).
      assert (Hks' : Forall (fun k => plain_key k = true) (ks ++ [key])).
      { apply Forall_app. split; [exact Hks|]. now constructor. }
      destruct (IH val (ks ++ [key])%list Hval Hks') as (sub & Hsub & Hsub_scalar & Hsub_all).
      { pose proof (height_entry entries key val Hkv). lia. }
      rewrite Hsub. cbn [rbind].
      pose proof (flatten_NoDup _ _ _ _ Hsub) as Hsub_nd.
      assert (Hfresh : key ∉ Dict.keys done).
      { rewrite Hsplit in Hnd. unfold Dict.keys in Hnd. rewrite map_app in Hnd.
        apply NoDup_app in Hnd as (_ & Hdisj & _). intros Hin.
        apply (Hdisj key Hin). left. }
      assert (Hsub_keys : forall k, k ∈ Dict.keys sub ->
                                    exists path,
                                      Forall (fun k => plain_key k = true) path
                                      /\ k = String.concat "." (ks ++ key :: path)).
      { intros k Hk. apply DictFacts.keys_get in Hk as [x Hx].
        destruct (flatten_entries depth val (ks ++ [key])%list sub Hval Hks' Hsub
                    k x (get_elem _ _ _ Hx)) as (path & Hpath & -> & _).
        exists path. split; [exact Hpath|]. now rewrite <- app_assoc. }
      destruct (IHrest (done ++ [(key, val)])%list (Audit.update acc sub))
        as (flat & Hflat & Hflat_scalar & Hflat_all).
      + now rewrite <- app_assoc.
      + now apply update_NoDup.
      + intros k x Hin. apply update_elem in Hin as [Hin|Hin];
          [now apply (Hsub_scalar k) | now apply (Hscalar k)].
      + intros k Hk. apply DictFacts.keys_get in Hk as [x Hx].
        apply get_elem, update_elem in Hx as [Hx|Hx].
        * destruct (Hsub_keys k) as (path & Hpath & ->).
          { now apply (DictFacts.get_Some_keys _ _ x), entries_get;
              [exact Hsub_nd|]. }
          exists key, path. split; [|now split].
          unfold Dict.keys. rewrite map_app. apply elem_of_app. right. left.
        * destruct (Hkeys k) as (key0 & path & Hkey0 & Hpath & ->).
          { apply (DictFacts.get_Some_keys _ _ x). now apply entries_get. }
          exists key0, path. split; [|now split].
          unfold Dict.keys. rewrite map_app. apply elem_of_app. now left.
      + intros key0 val0 path x Hin Hx Hscalar_x.
        rewrite (get_update sub acc _ Hsub_nd).
        apply elem_of_app in Hin as [Hin|Hin].
        * (* an earlier entry: the new keys do not touch it *)
          destruct (Dict.get (String.concat "." (ks ++ key0 :: path)) sub) as [y|] eqn:Hy;
            [exfalso|now apply (Hdone key0 val0)].
          destruct (Hsub_keys (String.concat "." (ks ++ key0 :: path)))
            as (path' & Hpath' & E); [now apply (DictFacts.get_Some_keys _ _ y)|].
          assert (Hkv0 : (key0, val0) ∈ entries).
          { rewrite Hsplit. apply elem_of_app. now left. }
          destruct (Hentries _ _ Hkv0) as [Hkey0 Hval0].
          destruct (lookup_path_plain path val0 x Hval0 Hx) as [Hpath _].
          apply concat_inj in E.
          -- apply app_inv_head in E. injection E as -> _. apply Hfresh.
             apply list_elem_of_fmap. now exists (key, val0).
          -- apply Forall_app. split; [exact Hks|]. now constructor.
          -- apply Forall_app. split; [exact Hks|]. now constructor.
        * apply list_elem_of_singleton in Hin. injection Hin as -> ->.
          specialize (Hsub_all path x Hx Hscalar_x).
          rewrite <- app_assoc in Hsub_all. cbn [app] in Hsub_all.
          now rewrite Hsub_all.
      + exists flat. split; [exact Hflat|]. split; [exact Hflat_scalar | exact Hflat_all]. }
  destruct (Hgen entries [] []) as (flat & Hflat & Hscalar & Hall).
  - reflexivity.
  - constructor.
  - intros k x H. now apply elem_of_nil in H.
  - intros k H. now apply elem_of_nil in H.
  - intros key val path x H. now apply elem_of_nil in H.
  - exists flat. split.
    { unfold try_except.
      match goal with
      | |- match ?b with _ => _ end = _ =>
          replace b with (Ok flat : result dict) by (symmetry; exact Hflat)
      end.
      reflexivity. }
    split; [exact Hscalar|].
    intros [|key path] x Hx Hscalar_x; [injection Hx as <-; discriminate|].
    cbn [Audit.lookup_path] in Hx.
    destruct (Dict.get key entries) as [val|] eqn:Hget; [|discriminate].
    now apply (Hall key val path x (get_elem _ _ _ Hget)).
Qed.

(** X24.  Flattening and extraction agree on nested dictionaries.  For data
    made of dictionaries whose keys are not empty and have no dot, down to
    values that are neither dictionaries nor lists, and with depth enough
    for its nesting, [_flatten_json] returns a dictionary whose entries are
    exactly the values at the end of the paths of the data, each under the
    path joined with dots, and [_extract_json_path] gives back the value of
    every entry from its key. *)
Theorem flattened_json_is_read_back (depth : nat) (data : value) :
  tree data = true ->
  (height data < depth)%nat ->
  exists flat,
    _flatten_json depth data "" = Ok flat
    /\ (forall k x,
          Dict.get k flat = Some x ->
          Audit.is_scalar x = true /\ _extract_json_path data k = x)
    /\ (forall path x,
          Audit.lookup_path path data = Some x -> Audit.is_scalar x = true ->
          Dict.get (String.concat "." path) flat = Some x).
Proof.
  intros Htree Hdepth.
  destruct (flatten_leaves depth data [] Htree (Forall_nil_2 _) Hdepth)
    as (flat & Hflat & Hscalar & Hall).
  exists flat. split; [exact Hflat|]. split; [|exact Hall].
  intros k x Hget. apply get_elem in Hget.
  split; [now apply (Hscalar k)|].
  destruct (flatten_entries depth data [] flat Htree (Forall_nil_2 _) Hflat k x Hget)
    as (path & Hpath & -> & <-).
  cbn [app]. unfold _extract_json_path.
  destruct (String.eqb_spec (String.concat "." path) "") as [E|Hne].
  - now rewrite (concat_empty path Hpath E).
  - rewrite split_dot_concat; [reflexivity | exact Hpath |].
    intros ->. now apply Hne.
Qed.

Lemma flattened_json_is_read_back_witness :
  exists flat,
    _flatten_json 3 Scenarios.profile "" = Ok flat
    /\ (forall k x,
          Dict.get k flat = Some x ->
          Audit.is_scalar x = true /\ _extract_json_path Scenarios.profile k = x)
    /\ (forall path x,
          Audit.lookup_path path Scenarios.profile = Some x -> Audit.is_scalar x = true ->
          Dict.get (String.concat "." path) flat = Some x).
Proof.
  apply (flattened_json_is_read_back 3 Scenarios.profile).
  - vm_compute. reflexivity.
  - vm_compute. lia.
Defined.

End VisualFacts.
